(** * A contact manager: validators, records, address book, commands

    Shallow embedding of [final_project_group_8.py].  Python objects that
    the program mutates in place (records stored in the address book) are
    modelled by explicit state passing: a command takes the book and
    returns its reply together with the book it leaves behind. *)

From Stdlib Require Import String Ascii.
From Stdlib Require Import List ZArith NArith Bool Lia.
Import ListNotations.

(** ** Python strings

    A Python [str] is a sequence of Unicode code points, so a character is
    a code point and not a byte.  The string methods the program calls
    ([isdigit], [lower], [capitalize], [strip], [split], the [\w] class of
    [re]) consult the Unicode character database of the interpreter.  The
    tables below are complete on ASCII, and complete for white space and
    for [isdigit]; for case and for the letters of [\w] they list an
    excerpt of the database (Latin-1, basic Cyrillic and the special
    casings used further down) and treat every other code point above
    127 as caseless and, unless it is a digit, as no word character. *)

Definition char := N.
Definition str := list char.

Definition py (s : string) : str :=
  map N_of_ascii (list_ascii_of_string s).

Arguments py s%_string.

Definition in_range (lo hi c : N) : bool := (lo <=? c)%N && (c <=? hi)%N.

Definition is_ascii (c : char) : bool := (c <? 128)%N.

Fixpoint str_eqb (a b : str) : bool :=
  match a, b with
  | [], [] => true
  | x :: a', y :: b' => (x =? y)%N && str_eqb a' b'
  | _, _ => false
  end.

Definition ch_space : char := 32%N.
Definition ch_hash : char := 35%N.
Definition ch_hyphen : char := 45%N.
Definition ch_dot : char := 46%N.
Definition ch_at : char := 64%N.
Definition ch_underscore : char := 95%N.

(** [str.isspace] on one character: the white space of CPython
    ([_PyUnicode_IsWhitespace]), in full. *)
Definition isspace_char (c : char) : bool :=
  in_range 9 13 c || in_range 28 32 c
  || (c =? 0x85)%N || (c =? 0xA0)%N || (c =? 0x1680)%N
  || in_range 0x2000 0x200A c
  || (c =? 0x2028)%N || (c =? 0x2029)%N || (c =? 0x202F)%N
  || (c =? 0x205F)%N || (c =? 0x3000)%N.

Definition ascii_digit (c : char) : bool := in_range 48 57 c.
Definition ascii_upper (c : char) : bool := in_range 65 90 c.
Definition ascii_lower (c : char) : bool := in_range 97 122 c.

(** [str.isdigit] on one character, in full: the code points whose
    numeric type is decimal or digit, 788 of them in the character
    database of CPython 3.11 (Unicode 14.0), as ranges.  Besides the
    decimal digits of the scripts they include the superscript, subscript
    and circled digits. *)
Definition DIGIT_RANGES : list (N * N) :=
  [(0x30, 0x39); (0xB2, 0xB3); (0xB9, 0xB9); (0x660, 0x669);
   (0x6F0, 0x6F9); (0x7C0, 0x7C9); (0x966, 0x96F); (0x9E6, 0x9EF);
   (0xA66, 0xA6F); (0xAE6, 0xAEF); (0xB66, 0xB6F); (0xBE6, 0xBEF);
   (0xC66, 0xC6F); (0xCE6, 0xCEF); (0xD66, 0xD6F); (0xDE6, 0xDEF);
   (0xE50, 0xE59); (0xED0, 0xED9); (0xF20, 0xF29); (0x1040, 0x1049);
   (0x1090, 0x1099); (0x1369, 0x1371); (0x17E0, 0x17E9); (0x1810, 0x1819);
   (0x1946, 0x194F); (0x19D0, 0x19DA); (0x1A80, 0x1A89); (0x1A90, 0x1A99);
   (0x1B50, 0x1B59); (0x1BB0, 0x1BB9); (0x1C40, 0x1C49); (0x1C50, 0x1C59);
   (0x2070, 0x2070); (0x2074, 0x2079); (0x2080, 0x2089); (0x2460, 0x2468);
   (0x2474, 0x247C); (0x2488, 0x2490); (0x24EA, 0x24EA); (0x24F5, 0x24FD);
   (0x24FF, 0x24FF); (0x2776, 0x277E); (0x2780, 0x2788); (0x278A, 0x2792);
   (0xA620, 0xA629); (0xA8D0, 0xA8D9); (0xA900, 0xA909); (0xA9D0, 0xA9D9);
   (0xA9F0, 0xA9F9); (0xAA50, 0xAA59); (0xABF0, 0xABF9); (0xFF10, 0xFF19);
   (0x104A0, 0x104A9); (0x10A40, 0x10A43); (0x10D30, 0x10D39);
   (0x10E60, 0x10E68); (0x11052, 0x1105A); (0x11066, 0x1106F);
   (0x110F0, 0x110F9); (0x11136, 0x1113F); (0x111D0, 0x111D9);
   (0x112F0, 0x112F9); (0x11450, 0x11459); (0x114D0, 0x114D9);
   (0x11650, 0x11659); (0x116C0, 0x116C9); (0x11730, 0x11739);
   (0x118E0, 0x118E9); (0x11950, 0x11959); (0x11C50, 0x11C59);
   (0x11D50, 0x11D59); (0x11DA0, 0x11DA9); (0x16A60, 0x16A69);
   (0x16AC0, 0x16AC9); (0x16B50, 0x16B59); (0x1D7CE, 0x1D7FF);
   (0x1E140, 0x1E149); (0x1E2F0, 0x1E2F9); (0x1E950, 0x1E959);
   (0x1F100, 0x1F10A); (0x1FBF0, 0x1FBF9)]%N.

Definition isdigit_char (c : char) : bool :=
  existsb (fun r => in_range (fst r) (snd r) c) DIGIT_RANGES.

(** Latin-1 and basic Cyrillic letters, by case. *)
Definition latin1_upper (c : char) : bool :=
  in_range 0xC0 0xDE c && negb (c =? 0xD7)%N.
Definition latin1_lower (c : char) : bool :=
  in_range 0xE0 0xFE c && negb (c =? 0xF7)%N.
Definition cyr_upper (c : char) : bool := in_range 0x410 0x42F c.
Definition cyr_lower (c : char) : bool := in_range 0x430 0x44F c.
Definition cyr_upper_ext (c : char) : bool := in_range 0x400 0x40F c.
Definition cyr_lower_ext (c : char) : bool := in_range 0x450 0x45F c.

(** The full lower-case mapping of one character ([str.lower]); a
    mapping may have several characters (U+0130). *)
Definition lower_char (c : char) : list char :=
  if ascii_upper c || latin1_upper c || cyr_upper c then [(c + 32)%N]
  else if cyr_upper_ext c then [(c + 80)%N]
  else if (c =? 0x130)%N then [0x69; 0x307]%N
  else if (c =? 0x490)%N then [0x491%N]
  else [c].

(** The full title-case mapping of one character, which
    [str.capitalize] applies to the first character (U+00DF gives "Ss",
    U+0149 gives U+02BC followed by "N"). *)
Definition title_char (c : char) : list char :=
  if ascii_lower c || latin1_lower c || cyr_lower c then [(c - 32)%N]
  else if cyr_lower_ext c then [(c - 80)%N]
  else if (c =? 0xB5)%N then [0x39C%N]
  else if (c =? 0xDF)%N then [0x53; 0x73]%N
  else if (c =? 0xFF)%N then [0x178%N]
  else if (c =? 0x149)%N then [0x2BC; 0x4E]%N
  else if (c =? 0x491)%N then [0x490%N]
  else [c].

(** Cased characters, which [str.title] looks at. *)
Definition iscased_char (c : char) : bool :=
  ascii_upper c || ascii_lower c
  || (c =? 0xAA)%N || (c =? 0xB5)%N || (c =? 0xBA)%N || (c =? 0xDF)%N
  || (c =? 0xFF)%N || latin1_upper c || latin1_lower c
  || (c =? 0x130)%N || (c =? 0x149)%N
  || in_range 0x400 0x45F c || in_range 0x490 0x491 c.

(** The class [\w] of [re] on a [str] pattern: alphanumeric or [_]. *)
Definition isword_char (c : char) : bool :=
  ascii_digit c || ascii_upper c || ascii_lower c || (c =? ch_underscore)%N
  || isdigit_char c || iscased_char c.

(** The class [[a-zA-Z0-9_]], which is ASCII whatever the flags. *)
Definition ascii_word (c : char) : bool :=
  ascii_digit c || ascii_upper c || ascii_lower c || (c =? ch_underscore)%N.

(** *** Methods of [str] *)

Definition len (s : str) : Z := Z.of_nat (length s).

(** [s.isdigit()]: every character is a digit and there is at least one. *)
Definition isdigit (s : str) : bool :=
  match s with
  | [] => false
  | _ => forallb isdigit_char s
  end.

Fixpoint startswith (s p : str) : bool :=
  match p, s with
  | [], _ => true
  | x :: p', y :: s' => (x =? y)%N && startswith s' p'
  | _ :: _, [] => false
  end.

Definition lower (s : str) : str := flat_map lower_char s.

(** [s.capitalize()]: first character in title case, the rest in lower
    case. *)
Definition capitalize (s : str) : str :=
  match s with
  | [] => []
  | c :: r => title_char c ++ lower r
  end.

(** [s.title()]: a character that follows a cased one is lowered, any
    other is put in title case. *)
Fixpoint title_from (previous_is_cased : bool) (s : str) : str :=
  match s with
  | [] => []
  | c :: r =>
      (if previous_is_cased then lower_char c else title_char c)
      ++ title_from (iscased_char c) r
  end.

Definition title (s : str) : str := title_from false s.

Fixpoint dropwhile (f : char -> bool) (s : str) : str :=
  match s with
  | [] => []
  | c :: r => if f c then dropwhile f r else s
  end.

Definition lstrip (s : str) : str := dropwhile isspace_char s.
Definition rstrip (s : str) : str := rev (dropwhile isspace_char (rev s)).
Definition strip (s : str) : str := rstrip (lstrip s).

(** [s.lstrip("#")] *)
Definition lstrip_hash (s : str) : str :=
  dropwhile (fun c => (c =? ch_hash)%N) s.

(** [c in s] for a one-character [c]. *)
Definition contains (c : char) (s : str) : bool :=
  existsb (fun x => (x =? c)%N) s.

(** [s.endswith(".")] *)
Definition endswith_dot (s : str) : bool :=
  match rev s with
  | c :: _ => (c =? ch_dot)%N
  | [] => false
  end.

(** [sep.join(l)] *)
Fixpoint join (sep : str) (l : list str) : str :=
  match l with
  | [] => []
  | [w] => w
  | w :: l' => w ++ sep ++ join sep l'
  end.

(** [s.split(sep)] for a one-character separator: the fields between
    the separators, empty ones included. *)
Fixpoint split_on (sep : char) (s : str) : list str :=
  match s with
  | [] => [[]]
  | c :: r =>
      if (c =? sep)%N then [] :: split_on sep r
      else match split_on sep r with
           | w :: ws => (c :: w) :: ws
           | [] => [[c]]
           end
  end.

(** [s.split()]: the maximal runs of characters that are not white
    space.  [cur] is the run being read, if any. *)
Fixpoint split_from (cur : option str) (s : str) : list str :=
  match s with
  | [] => match cur with Some w => [w] | None => [] end
  | c :: r =>
      if isspace_char c then
        match cur with
        | Some w => w :: split_from None r
        | None => split_from None r
        end
      else
        match cur with
        | Some w => split_from (Some (w ++ [c])) r
        | None => split_from (Some [c]) r
        end
  end.

Definition split (s : str) : list str := split_from None s.

(** *** The two regular expressions of the program *)

Definition next_isword (s : str) : bool :=
  match s with
  | c :: _ => isword_char c
  | [] => false
  end.

(** [re.sub(r"#\w+", "", s)]: every [#] that a word character follows
    is deleted together with the word characters after it.  [skipping]
    says that the scan is inside such a match. *)
Fixpoint re_sub_tags_from (skipping : bool) (s : str) : str :=
  match s with
  | [] => []
  | c :: r =>
      if skipping && isword_char c then re_sub_tags_from true r
      else if (c =? ch_hash)%N && next_isword r then re_sub_tags_from true r
      else c :: re_sub_tags_from false r
  end.

Definition re_sub_tags (s : str) : str := re_sub_tags_from false s.

(** [re.findall(r"#(\w+)", s)]: the words of the matches, in order.
    [cur] is the word of the match being read, if any. *)
Fixpoint re_findall_tags_from (cur : option str) (s : str) : list str :=
  match s with
  | [] => match cur with Some w => [w] | None => [] end
  | c :: r =>
      let restart :=
        if (c =? ch_hash)%N && next_isword r
        then re_findall_tags_from (Some []) r
        else re_findall_tags_from None r in
      match cur with
      | Some w =>
          if isword_char c then re_findall_tags_from (Some (w ++ [c])) r
          else w :: restart
      | None => restart
      end
  end.

Definition re_findall_tags (s : str) : list str :=
  re_findall_tags_from None s.

(** ** Replies and exceptions

    Every command answers with a message.  The messages are kept as a
    data type, one constructor per message of the source, with the values
    the message is formatted with. *)

Inductive Command :=
  | addcontact | editname | addphone | changephone
  | addaddress | editaddress | addemail | editemail | removeemail
  | addnote | editnote | removenote | addtag | removetag.

Inductive Reply :=
  (* Phone *)
  | PhoneNot10Digits            (* Phone number must contain exactly 10 digits. *)
  | PhoneBadCode                (* The phone number must start with a valid code *)
  (* Record.add_phone, Record.edit_phone *)
  | PhoneExistsHere (phone : str)        (* already exists for this contact *)
  | PhoneBelongs (phone owner : str)     (* The number .. already belongs to .. *)
  | OldPhoneNotFound (phone : str)       (* The old number .. was not found. *)
  | NewPhoneBelongs (phone owner : str)  (* The new number .. already belongs to .. *)
  | UpdateWentWrong             (* Something went wrong while updating the number. *)
  (* Email, Note *)
  | InvalidEmail                (* Invalid email format. *)
  | InvalidTag (tag : str)      (* Invalid tag: .. *)
  (* Record.remove_note, Record.edit_note *)
  | NoteRemoved                 (* Note removed! *)
  | NoteNotFound                (* Note not found. *)
  | NoteEdited                  (* Note edited! *)
  (* input_error *)
  | Usage (command : Command)   (* error_messages[command] *)
  | ContactNotFound             (* Contact not found. *)
  | SomethingWentWrong          (* Something went wrong: .. *)
  (* add_contact *)
  | NeedPhone                   (* At least one valid phone number is required *)
  | NameMissing                 (* Name is missing. *)
  | NameExists (name : str)     (* A contact named .. already exists. *)
  | ContactAdded                (* Contact added! *)
  (* change_contact, add_phone_to_contact *)
  | PhoneUpdated                (* Phone number updated! *)
  | PhoneAdded                  (* Phone number added! *)
  (* add_address *)
  | AddressExists               (* Address already exists. *)
  | AddressAdded                (* Address added! *)
  (* add_note *)
  | NoteExists                  (* Note already exists. Use 'editnote' .. *)
  | NoteAdded (tags : list str) (* Note added with tags: .. *)
  (* remove_note *)
  | NoNotesToRemove (name : str)   (* No notes to remove for .. *)
  | AllNotesRemoved (name : str)   (* All notes removed for .. *)
  | ProvideNameAndNote          (* Please provide the contact name and note text to remove. *)
  (* add_tag_to_note *)
  | ProvideNameNoteTag          (* Please provide the contact name, note text and tag to add. *)
  | TagPresent (tag : str)      (* Tag .. is already present in the note. *)
  | TagAdded (tag text : str)   (* Tag .. added to note: .. *)
  | NoteNotFoundExact.          (* Note not found. Please check the note text. Be exact. *)

(** A constructor that validates: the value built, or [ValueError(msg)]. *)
Inductive checked (A : Type) :=
  | Valid (a : A)
  | Invalid (msg : Reply).

Arguments Valid {A} a.
Arguments Invalid {A} msg.

(** The exceptions that a command body raises and [input_error] catches. *)
Inductive Exn :=
  | ValueError (msg : Reply)
  | KeyError
  | IndexError
  | AttributeError.

Inductive result (A : Type) :=
  | Return (a : A)
  | Raise (e : Exn).

Arguments Return {A} a.
Arguments Raise {A} e.

(** ** Field validators *)

Definition VALID_CODES : list str :=
  [py "050"; py "066"; py "067"; py "068"; py "095"; py "096";
   py "097"; py "098"; py "099"; py "063"; py "073"; py "093"].

(** [Phone.__init__] *)
Definition Phone (value : str) : checked str :=
  if negb (isdigit value) || negb (len value =? 10)%Z then
    Invalid PhoneNot10Digits
  else if negb (existsb (fun code => startswith value code) VALID_CODES) then
    Invalid PhoneBadCode
  else Valid value.

(** The claim's wording: ten ASCII digits, the first three a code. *)
Definition ascii_phone (s : str) : bool :=
  (length s =? 10)%nat && forallb ascii_digit s
  && existsb (str_eqb (firstn 3 s)) VALID_CODES.

(** What [Phone] tests: ten characters that [str.isdigit] accepts. *)
Definition digits10_with_code (s : str) : bool :=
  (length s =? 10)%nat && forallb isdigit_char s
  && existsb (str_eqb (firstn 3 s)) VALID_CODES.

Fixpoint span (f : char -> bool) (s : str) : str * str :=
  match s with
  | [] => ([], [])
  | c :: r =>
      if f c then let (a, b) := span f r in (c :: a, b) else ([], s)
  end.

Definition nonempty {A : Type} (l : list A) : bool :=
  match l with [] => false | _ => true end.

(** The class [[\w\.-]] of the email pattern. *)
Definition email_class (c : char) : bool :=
  isword_char c || (c =? ch_dot)%N || (c =? ch_hyphen)%N.

(** [$] also matches just before a newline that ends the string. *)
Definition drop_final_newline (s : str) : str :=
  match rev s with
  | c :: r => if (c =? 10)%N then rev r else s
  | [] => s
  end.

(** [Email.validate_email]: [re.match(r"^[\w\.-]+@[\w\.-]+\.\w+$", value)].
    [@] is outside the class, so the local part is what precedes the
    first [@]; the last group has no dot, so it is what follows the last
    dot. *)
Definition validate_email (value : str) : bool :=
  let (local_part, r) := span email_class value in
  match r with
  | c :: domain =>
      let (tld_rev, d_rev) :=
        span isword_char (rev (drop_final_newline domain)) in
      (c =? ch_at)%N && nonempty local_part && nonempty tld_rev
      && match d_rev with
         | dot :: host_rev =>
             (dot =? ch_dot)%N && nonempty host_rev
             && forallb email_class host_rev
         | [] => false
         end
  | [] => false
  end.

(** [Email.__init__] *)
Definition Email (value : str) : checked str :=
  if validate_email value then Valid value else Invalid InvalidEmail.

(** ** Notes *)

(** [tags] is a Python set, kept as a list without repetition; only
    membership and set equality are observed. *)
Record Note := mkNote { n_text : str; n_tags : list str }.

Definition set_mem (x : str) (s : list str) : bool := existsb (str_eqb x) s.

Definition set_add (x : str) (s : list str) : list str :=
  if set_mem x s then s else s ++ [x].

Definition set_eqb (a b : list str) : bool :=
  forallb (fun x => set_mem x b) a && forallb (fun x => set_mem x a) b.

(** [TAG_PATTERN.fullmatch]: [^[a-zA-Z0-9_]{1,30}$] *)
Definition TAG_PATTERN_fullmatch (s : str) : bool :=
  (1 <=? len s)%Z && (len s <=? 30)%Z && forallb ascii_word s.

(** [Note.add_tag] *)
Definition Note_add_tag (self : Note) (tag : str) : checked Note :=
  let tag_clean := lower (lstrip_hash tag) in
  if TAG_PATTERN_fullmatch tag_clean then
    Valid {| n_text := n_text self; n_tags := set_add tag_clean (n_tags self) |}
  else Invalid (InvalidTag tag).

(** The loop of [Note.__init__] over the tags given. *)
Fixpoint Note_add_tags (self : Note) (l : list str) : checked Note :=
  match l with
  | [] => Valid self
  | tag :: l' =>
      match Note_add_tag self tag with
      | Valid self' => Note_add_tags self' l'
      | Invalid msg => Invalid msg
      end
  end.

(** The tags that [Note.add_tag] accepts. *)
Definition valid_tag (tag : str) : bool :=
  TAG_PATTERN_fullmatch (lower (lstrip_hash tag)).

(** [Note.__init__]; [tags=None] is the empty list. *)
Definition Note_init (text : str) (tags : list str) : checked Note :=
  Note_add_tags {| n_text := strip text; n_tags := [] |} tags.

(** [Note.__eq__]: the same text, case included, and the same tag set. *)
Definition Note_eq (a b : Note) : bool :=
  str_eqb (n_text a) (n_text b) && set_eqb (n_tags a) (n_tags b).

(** ** Contact records *)

(** The class [Record] of the source.  A phone is kept by its validated
    string, a birthday, an address and an email by their stored string. *)
Record ContactRecord := mkRecord {
  r_name : str;
  r_phones : list str;
  r_birthday : option str;
  r_address : option str;
  r_email : option str;
  r_notes : list Note
}.

(** [Record.__init__] *)
Definition Record_init (name : str) : ContactRecord :=
  {| r_name := name; r_phones := []; r_birthday := None; r_address := None;
     r_email := None; r_notes := [] |}.

Definition set_phones (r : ContactRecord) (l : list str) : ContactRecord :=
  {| r_name := r_name r; r_phones := l; r_birthday := r_birthday r;
     r_address := r_address r; r_email := r_email r; r_notes := r_notes r |}.

Definition set_address (r : ContactRecord) (a : option str) : ContactRecord :=
  {| r_name := r_name r; r_phones := r_phones r; r_birthday := r_birthday r;
     r_address := a; r_email := r_email r; r_notes := r_notes r |}.

Definition set_email (r : ContactRecord) (e : option str) : ContactRecord :=
  {| r_name := r_name r; r_phones := r_phones r; r_birthday := r_birthday r;
     r_address := r_address r; r_email := e; r_notes := r_notes r |}.

Definition set_notes (r : ContactRecord) (l : list Note) : ContactRecord :=
  {| r_name := r_name r; r_phones := r_phones r; r_birthday := r_birthday r;
     r_address := r_address r; r_email := r_email r; r_notes := l |}.

(** ** The address book

    [AddressBook] is a [UserDict]: its [data] maps a key to a record and
    keeps the keys in insertion order.  A record object stored in the
    book is reached under exactly one key by the operations modelled
    here, so that key stands for the identity of the object. *)
Definition AddressBook := list (str * ContactRecord).

(** [data[key] = record]: in place when the key is there, at the end
    otherwise. *)
Fixpoint dict_set (key : str) (record : ContactRecord) (book : AddressBook)
  : AddressBook :=
  match book with
  | [] => [(key, record)]
  | (k, r) :: b =>
      if str_eqb k key then (k, record) :: b
      else (k, r) :: dict_set key record b
  end.

(** [AddressBook.add_record] *)
Definition add_record (book : AddressBook) (record : ContactRecord)
  : AddressBook :=
  dict_set (r_name record) record book.

(** [AddressBook.find]: the first record whose key equals [name] up to
    case, with the key it is stored under. *)
Fixpoint find (book : AddressBook) (name : str)
  : option (str * ContactRecord) :=
  match book with
  | [] => None
  | (key, record) :: b =>
      if str_eqb (lower key) (lower name) then Some (key, record)
      else find b name
  end.

(** [AddressBook.name_exists] *)
Definition name_exists (book : AddressBook) (name : str) : bool :=
  existsb (fun kr => str_eqb (lower name) (lower (fst kr))) book.

(** *** Methods of a record *)

(** [any(p.value == phone for p in record.phones)] *)
Definition has_phone (phone : str) (r : ContactRecord) : bool :=
  existsb (fun p => str_eqb p phone) (r_phones r).

(** [record != self]: records have no [__eq__], so this compares
    identities.  [self_key] is the key of [self] in the book, or [None]
    for a record that is not stored yet. *)
Definition is_other (self_key : option str) (key : str) : bool :=
  match self_key with
  | Some k => negb (str_eqb key k)
  | None => true
  end.

(** The loop over [book.data.values()] of [add_phone] and [edit_phone]:
    the first other record that has the phone. *)
Fixpoint phone_owner (self_key : option str) (phone : str)
  (book : AddressBook) : option ContactRecord :=
  match book with
  | [] => None
  | (key, record) :: b =>
      if is_other self_key key && has_phone phone record then Some record
      else phone_owner self_key phone b
  end.

(** [Record.add_phone]: the message returned ([None] on success) and
    the record afterwards. *)
Definition Record_add_phone (self : ContactRecord) (self_key : option str)
  (phone : str) (book : AddressBook) : option Reply * ContactRecord :=
  match Phone phone with
  | Invalid msg => (Some msg, self)
  | Valid phone_obj =>
      if has_phone phone self then (Some (PhoneExistsHere phone), self)
      else
        match phone_owner self_key phone book with
        | Some record => (Some (PhoneBelongs phone (r_name record)), self)
        | None => (None, set_phones self (r_phones self ++ [phone_obj]))
        end
  end.

(** [Record.find_phone] *)
Definition find_phone (self : ContactRecord) (phone : str) : option str :=
  List.find (fun p => str_eqb p phone) (r_phones self).

(** The last loop of [edit_phone]: the first phone equal to [old] is
    replaced; [None] when the loop runs to its end. *)
Fixpoint replace_first (old new : str) (l : list str) : option (list str) :=
  match l with
  | [] => None
  | p :: l' =>
      if str_eqb p old then Some (new :: l')
      else option_map (cons p) (replace_first old new l')
  end.

(** [Record.edit_phone] *)
Definition Record_edit_phone (self : ContactRecord) (self_key : option str)
  (old_phone new_phone : str) (book : AddressBook)
  : option Reply * ContactRecord :=
  match find_phone self old_phone with
  | None => (Some (OldPhoneNotFound old_phone), self)
  | Some _ =>
      match Phone new_phone with
      | Invalid msg => (Some msg, self)
      | Valid new_phone_obj =>
          match phone_owner self_key new_phone book with
          | Some record =>
              (Some (NewPhoneBelongs new_phone (r_name record)), self)
          | None =>
              match replace_first old_phone new_phone_obj (r_phones self) with
              | Some l => (None, set_phones self l)
              | None => (Some UpdateWentWrong, self)
              end
          end
      end
  end.

(** [Record.add_address] *)
Definition Record_add_address (self : ContactRecord) (a : str)
  : ContactRecord :=
  set_address self (Some a).

(** [Record.add_email] *)
Definition Record_add_email (self : ContactRecord) (e : str)
  : checked ContactRecord :=
  match Email e with
  | Valid v => Valid (set_email self (Some v))
  | Invalid msg => Invalid msg
  end.

(** [note.text.strip().lower()], the form notes are matched in. *)
Definition note_key (n : Note) : str := lower (strip (n_text n)).

(** [Record.add_note]: the note added, or [None] when a note with the
    same text up to case is there already. *)
Definition Record_add_note (self : ContactRecord) (text : str)
  (tags : list str) : checked (option Note * ContactRecord) :=
  match Note_init text tags with
  | Invalid msg => Invalid msg
  | Valid new_note =>
      if existsb (fun existing_note =>
                    str_eqb (note_key existing_note) (note_key new_note))
                 (r_notes self)
      then Valid (None, self)
      else Valid (Some new_note, set_notes self (r_notes self ++ [new_note]))
  end.

(** [list.remove(x)]: the first element equal to [x] goes. *)
Fixpoint list_remove (x : Note) (l : list Note) : list Note :=
  match l with
  | [] => []
  | y :: l' => if Note_eq y x then l' else y :: list_remove x l'
  end.

(** [Record.remove_note] *)
Definition Record_remove_note (self : ContactRecord) (text : str)
  : Reply * ContactRecord :=
  let normalized_input := lower (strip (re_sub_tags text)) in
  match List.find (fun note => str_eqb (note_key note) normalized_input)
                  (r_notes self) with
  | Some note => (NoteRemoved, set_notes self (list_remove note (r_notes self)))
  | None => (NoteNotFound, self)
  end.

(** The loop of [edit_note]: the first note whose text matches is
    replaced by [Note(cleaned_new_text, new_tags)]; [None] when no note
    matches. *)
Fixpoint replace_note (normalized_old cleaned_new_text : str)
  (new_tags : list str) (l : list Note) : option (checked (list Note)) :=
  match l with
  | [] => None
  | note :: l' =>
      if str_eqb (note_key note) normalized_old then
        match Note_init cleaned_new_text new_tags with
        | Valid n => Some (Valid (n :: l'))
        | Invalid msg => Some (Invalid msg)
        end
      else
        match replace_note normalized_old cleaned_new_text new_tags l' with
        | Some (Valid l'') => Some (Valid (note :: l''))
        | other => other
        end
  end.

(** [Record.edit_note] *)
Definition Record_edit_note (self : ContactRecord) (old_text new_text : str)
  : checked (Reply * ContactRecord) :=
  let normalized_old := lower (strip old_text) in
  let cleaned_new_text := strip (re_sub_tags new_text) in
  let new_tags := re_findall_tags new_text in
  match replace_note normalized_old cleaned_new_text new_tags (r_notes self) with
  | Some (Valid l) => Valid (NoteEdited, set_notes self l)
  | Some (Invalid msg) => Invalid msg
  | None => Valid (NoteNotFound, self)
  end.

(** ** Words

    What [split] yields: non-empty strings without white space. *)
Definition spacefree (w : str) : bool :=
  forallb (fun c => negb (isspace_char c)) w.

Definition word_ok (w : str) : bool := nonempty w && spacefree w.

(** [fix_part], read character by character: a hyphen is kept and
    starts a new part, the first character of a part is put in title
    case, its other characters in lower case. *)
Fixpoint cap_from (start : bool) (s : str) : str :=
  match s with
  | [] => []
  | c :: r =>
      if (c =? ch_hyphen)%N then c :: cap_from true r
      else (if start then title_char c else lower_char c) ++ cap_from false r
  end.

(** U+0149, LATIN SMALL LETTER N PRECEDED BY APOSTROPHE: the one
    character that [str.capitalize] does not leave alone once
    capitalized. *)
Definition ch_n_apostrophe : char := 0x149%N.

(** A character and its two case mappings: neither is empty; neither has
    a hyphen, nor white space unless the character is white space; the
    lower-case mapping is stable in a part after its first character, and
    the title-case mapping is stable at the start of a part, U+0149
    apart. *)
Definition case_ok (c : char) : bool :=
  let t := title_char c in
  let l := lower_char c in
  nonempty t && nonempty l
  && ((c =? ch_hyphen)%N
      || (negb (contains ch_hyphen t) && negb (contains ch_hyphen l)))
  && str_eqb (cap_from false l) l
  && ((c =? ch_n_apostrophe)%N || str_eqb (cap_from true t) t)
  && (isspace_char c || (spacefree t && spacefree l)).

(** Some part of [s] between hyphens starts with U+0149; [start] says
    that [s] begins at the start of a part. *)
Fixpoint part_start_from (start : bool) (s : str) : bool :=
  match s with
  | [] => false
  | c :: r =>
      if (c =? ch_hyphen)%N then part_start_from true r
      else (start && (c =? ch_n_apostrophe)%N) || part_start_from false r
  end.

(** ** Helpers of the commands *)

(** [normalize_name] *)
Definition fix_part (part : str) : str :=
  join [ch_hyphen] (map capitalize (split_on ch_hyphen part)).

Definition normalize_name (name : str) : str :=
  join [ch_space] (map fix_part (split (strip name))).

(** The names that [normalize_name] does not normalize for good: some
    part, between hyphens, of some word of the name starts with
    U+0149. *)
Definition starts_with_n_apostrophe (part : str) : bool :=
  match part with
  | c :: _ => (c =? ch_n_apostrophe)%N
  | [] => false
  end.

Definition has_n_apostrophe_part (name : str) : bool :=
  existsb (fun word =>
             existsb starts_with_n_apostrophe (split_on ch_hyphen word))
          (split (strip name)).

(** [format_address] *)
Definition format_address (address : str) : str :=
  join [ch_space]
    (map (fun word =>
            if endswith_dot (lower word) && (len word <=? 4)%Z
            then lower word else capitalize word)
         (split address)).

(** [extract_tags_from_text] *)
Definition extract_tags_from_text (text : str) : list str :=
  map lower (re_findall_tags text).

(** The truth value of a message: each one is a non-empty string. *)
Definition truthy (r : Reply) : bool := true.

(** [" ".join(args)] *)
Definition unwords (args : list str) : str := join [ch_space] args.

(** ** Name resolution by forward scanning

    The loop
    [for i in range(1, stop): if book.name_exists(normalize_name(" ".join(args[:i]))): ... break]
    that the commands share: [scan_name book args i n] tries the [n]
    split points from [i] on and answers the first one whose prefix names
    a contact, with the name. *)
Fixpoint scan_name (book : AddressBook) (args : list str) (i n : nat)
  : option (nat * str) :=
  match n with
  | O => None
  | S n' =>
      let possible_name := normalize_name (unwords (firstn i args)) in
      if name_exists book possible_name then Some (i, possible_name)
      else scan_name book args (S i) n'
  end.

(** The first [k] tokens name a contact of the book. *)
Definition names_contact (book : AddressBook) (args : list str) (k : nat)
  : bool :=
  name_exists book (normalize_name (unwords (firstn k args))).

(** The [stop] of the range of each scanning command, for [n] tokens:
    [len(args)], [len(args) + 1] or [len(args) - 1].  The commands that
    split from the end of the tokens have none. *)
Definition scan_stop (c : Command) (n : nat) : option nat :=
  match c with
  | editname | addaddress | editaddress | addemail | editemail
  | addnote | editnote => Some n
  | removeemail | removenote | removetag => Some (n + 1)
  | addtag => Some (n - 1)
  | addcontact | addphone | changephone => None
  end.

Definition resolve (c : Command) (book : AddressBook) (args : list str)
  : option (nat * str) :=
  match scan_stop c (length args) with
  | Some stop => scan_name book args 1 (stop - 1)
  | None => None
  end.

(** ** Commands

    A command body answers [Return (reply, book')] or raises; the
    decorator [input_error] turns what is raised into a reply.  No body
    below changes the book before it raises, so the book is then the one
    the command was given. *)

Definition input_error (command : Command) (book : AddressBook)
  (r : result (Reply * AddressBook)) : Reply * AddressBook :=
  match r with
  | Return x => x
  | Raise (ValueError msg) => (msg, book)
  | Raise KeyError => (ContactNotFound, book)
  | Raise IndexError => (Usage command, book)
  | Raise AttributeError => (SomethingWentWrong, book)
  end.

(** [arg.isdigit() and len(arg) == 10] *)
Definition is_phone_token (arg : str) : bool :=
  isdigit arg && (len arg =? 10)%Z.

Fixpoint take_while (f : str -> bool) (l : list str) : list str :=
  match l with
  | [] => []
  | x :: l' => if f x then x :: take_while f l' else []
  end.

Fixpoint drop_while (f : str -> bool) (l : list str) : list str :=
  match l with
  | [] => []
  | x :: l' => if f x then drop_while f l' else l
  end.

(** The loop [for phone in phones] of [add_contact] on the new record,
    which stops at the first message. *)
Fixpoint add_phones (record : ContactRecord) (phones : list str)
  (book : AddressBook) : option Reply * ContactRecord :=
  match phones with
  | [] => (None, record)
  | phone :: l =>
      match Record_add_phone record None phone book with
      | (Some msg, r) => (Some msg, r)
      | (None, r) => add_phones r l book
      end
  end.

(** The loop over the tokens after the phones: the last token with an
    [@] is the email, the others make the address. *)
Fixpoint email_and_address (args : list str) (email : option str)
  (address_parts : list str) : option str * list str :=
  match args with
  | [] => (email, address_parts)
  | arg :: l =>
      if contains ch_at arg then email_and_address l (Some arg) address_parts
      else email_and_address l email (address_parts ++ [arg])
  end.

Definition add_contact_body (args : list str) (book : AddressBook)
  : result (Reply * AddressBook) :=
  if (length args <? 2)%nat then Raise IndexError
  else
    let name_parts := take_while (fun a => negb (is_phone_token a)) args in
    let from_phone := drop_while (fun a => negb (is_phone_token a)) args in
    match from_phone with
    | [] => Raise (ValueError NeedPhone)
    | _ =>
        match name_parts with
        | [] => Raise (ValueError NameMissing)
        | _ =>
            let name := normalize_name (unwords name_parts) in
            if name_exists book name then Return (NameExists name, book)
            else
              let phones := take_while is_phone_token from_phone in
              let rest := drop_while is_phone_token from_phone in
              match add_phones (Record_init name) phones book with
              | (Some msg, _) => Return (msg, book)
              | (None, record) =>
                  let (email, address_parts) :=
                    email_and_address rest None [] in
                  let with_email :=
                    match email with
                    | Some e => Record_add_email record (strip e)
                    | None => Valid record
                    end in
                  match with_email with
                  | Invalid msg => Raise (ValueError msg)
                  | Valid record1 =>
                      let record2 :=
                        match address_parts with
                        | [] => record1
                        | _ =>
                            Record_add_address record1
                              (format_address (strip (unwords address_parts)))
                        end in
                      Return (ContactAdded, add_record book record2)
                  end
              end
        end
    end.

Definition add_contact (args : list str) (book : AddressBook)
  : Reply * AddressBook :=
  input_error addcontact book (add_contact_body args book).

(** [args[-1]] and [args[:-1]] *)
Definition last_arg (args : list str) : str := last args [].
Definition but_last (args : list str) : list str := removelast args.

Definition change_contact_body (args : list str) (book : AddressBook)
  : result (Reply * AddressBook) :=
  if (length args <? 3)%nat then Raise IndexError
  else
    let old_phone := last_arg (but_last args) in
    let new_phone := last_arg args in
    let name := normalize_name (unwords (but_last (but_last args))) in
    match find book name with
    | None => Raise KeyError
    | Some (key, record) =>
        match Record_edit_phone record (Some key) old_phone new_phone book with
        | (Some msg, _) => Return (msg, book)
        | (None, record') => Return (PhoneUpdated, dict_set key record' book)
        end
    end.

Definition change_contact (args : list str) (book : AddressBook)
  : Reply * AddressBook :=
  input_error changephone book (change_contact_body args book).

Definition add_phone_to_contact_body (args : list str) (book : AddressBook)
  : result (Reply * AddressBook) :=
  if (length args <? 2)%nat then Raise IndexError
  else
    let possible_phone := last_arg args in
    let name := normalize_name (unwords (but_last args)) in
    match find book name with
    | None => Raise KeyError
    | Some (key, record) =>
        match Record_add_phone record (Some key) possible_phone book with
        | (Some msg, _) => Return (msg, book)
        | (None, record') => Return (PhoneAdded, dict_set key record' book)
        end
    end.

Definition add_phone_to_contact (args : list str) (book : AddressBook)
  : Reply * AddressBook :=
  input_error addphone book (add_phone_to_contact_body args book).

Definition add_address_body (args : list str) (book : AddressBook)
  : result (Reply * AddressBook) :=
  if (length args <? 2)%nat then Raise IndexError
  else
    match resolve addaddress book args with
    | None => Return (ContactNotFound, book)
    | Some (i, name) =>
        let address := title (unwords (skipn i args)) in
        match find book name with
        | None => Raise AttributeError
        | Some (key, record) =>
            match r_address record with
            | Some _ => Return (AddressExists, book)
            | None =>
                Return (AddressAdded,
                        dict_set key (Record_add_address record address) book)
            end
        end
    end.

Definition add_address (args : list str) (book : AddressBook)
  : Reply * AddressBook :=
  input_error addaddress book (add_address_body args book).

Definition add_note_body (args : list str) (book : AddressBook)
  : result (Reply * AddressBook) :=
  if (length args <? 2)%nat then Raise IndexError
  else
    match resolve addnote book args with
    | None => Return (ContactNotFound, book)
    | Some (i, name) =>
        let note_text := unwords (skipn i args) in
        let tags := extract_tags_from_text note_text in
        let clean_text := strip (re_sub_tags note_text) in
        match find book name with
        | None => Raise AttributeError
        | Some (key, record) =>
            match Record_add_note record clean_text tags with
            | Invalid msg => Raise (ValueError msg)
            | Valid (None, _) => Return (NoteExists, book)
            | Valid (Some note_result, record') =>
                Return (NoteAdded (n_tags note_result),
                        dict_set key record' book)
            end
        end
    end.

Definition add_note (args : list str) (book : AddressBook)
  : Reply * AddressBook :=
  input_error addnote book (add_note_body args book).

Definition remove_note_body (args : list str) (book : AddressBook)
  : result (Reply * AddressBook) :=
  match args with
  | [] => Raise IndexError
  | _ =>
      match resolve removenote book args with
      | None => Return (ProvideNameAndNote, book)
      | Some (i, name) =>
          match find book name with
          | None => Raise AttributeError
          | Some (key, record) =>
              let note_text := strip (unwords (skipn i args)) in
              match note_text with
              | [] =>
                  match r_notes record with
                  | [] => Return (NoNotesToRemove name, book)
                  | _ =>
                      Return (AllNotesRemoved name,
                              dict_set key (set_notes record []) book)
                  end
              | _ =>
                  let (msg, record') := Record_remove_note record note_text in
                  if truthy msg then
                    Return (NoteRemoved, dict_set key record' book)
                  else Return (NoteNotFound, dict_set key record' book)
              end
          end
      end
  end.

Definition remove_note (args : list str) (book : AddressBook)
  : Reply * AddressBook :=
  input_error removenote book (remove_note_body args book).

(** The loop over the notes of [add_tag_to_note]: the first note whose
    text matches gets the tag, or tells why not. *)
Fixpoint tag_first_match (note_text tag : str) (l : list Note)
  : option (Reply * list Note) :=
  match l with
  | [] => None
  | note :: l' =>
      if str_eqb (note_key note) (lower (strip note_text)) then
        if set_mem tag (n_tags note) then Some (TagPresent tag, l)
        else
          match Note_add_tag note tag with
          | Valid note' => Some (TagAdded tag (n_text note), note' :: l')
          | Invalid msg => Some (msg, l)
          end
      else
        match tag_first_match note_text tag l' with
        | Some (msg, l'') => Some (msg, note :: l'')
        | None => None
        end
  end.

Definition add_tag_to_note_body (args : list str) (book : AddressBook)
  : result (Reply * AddressBook) :=
  if (length args <? 3)%nat then Raise IndexError
  else
    match resolve addtag book args with
    | None => Return (ProvideNameNoteTag, book)
    | Some (i, name) =>
        match find book name with
        | None => Raise AttributeError
        | Some (key, record) =>
            let note_text := unwords (but_last (skipn i args)) in
            let tag := lower (lstrip_hash (last_arg args)) in
            match tag_first_match note_text tag (r_notes record) with
            | Some (msg, l) => Return (msg, dict_set key (set_notes record l) book)
            | None => Return (NoteNotFoundExact, book)
            end
        end
    end.

Definition add_tag_to_note (args : list str) (book : AddressBook)
  : Reply * AddressBook :=
  input_error addtag book (add_tag_to_note_body args book).

(** ** Dates

    [datetime.date]: a year, a month and a day of the proleptic
    Gregorian calendar, with years from 1 to 9999.  Arithmetic goes
    through the ordinal of a date, as in the [datetime] module. *)

Record date := mkdate { year_of : Z; month_of : Z; day_of : Z }.

Definition is_leap (y : Z) : bool :=
  ((y mod 4 =? 0) && (negb (y mod 100 =? 0) || (y mod 400 =? 0)))%Z.

Definition days_in_month (y m : Z) : Z :=
  (if m =? 2 then (if is_leap y then 29 else 28)
   else if (m =? 4) || (m =? 6) || (m =? 9) || (m =? 11) then 30
   else 31)%Z.

Definition valid_ymd (y m d : Z) : bool :=
  ((1 <=? y) && (y <=? 9999) && (1 <=? m) && (m <=? 12)
   && (1 <=? d) && (d <=? days_in_month y m))%Z.

Definition valid_date (d : date) : bool :=
  valid_ymd (year_of d) (month_of d) (day_of d).

(** [date(y, m, d)]; [None] stands for the [ValueError] of a date that
    does not exist. *)
Definition make_date (y m d : Z) : option date :=
  if valid_ymd y m d then Some (mkdate y m d) else None.

(** [d.replace(year=y)] *)
Definition replace_year (d : date) (y : Z) : option date :=
  make_date y (month_of d) (day_of d).

(** Comparison of dates: by year, then month, then day. *)
Definition date_ltb (a b : date) : bool :=
  ((year_of a <? year_of b)
   || ((year_of a =? year_of b)
       && ((month_of a <? month_of b)
           || ((month_of a =? month_of b) && (day_of a <? day_of b)))))%Z.

Definition date_eqb (a b : date) : bool :=
  ((year_of a =? year_of b) && (month_of a =? month_of b)
   && (day_of a =? day_of b))%Z.

Definition date_leb (a b : date) : bool := date_ltb a b || date_eqb a b.

Definition days_before_year (y : Z) : Z :=
  (let y1 := y - 1 in y1 * 365 + y1 / 4 - y1 / 100 + y1 / 400)%Z.

(** [_DAYS_BEFORE_MONTH] *)
Definition DAYS_BEFORE_MONTH (m : Z) : Z :=
  nth (Z.to_nat m) [0; 0; 31; 59; 90; 120; 151; 181; 212; 243; 273; 304; 334]%Z
      0%Z.

(** [_DAYS_IN_MONTH] *)
Definition DAYS_IN_MONTH (m : Z) : Z :=
  nth (Z.to_nat m) [0; 31; 28; 31; 30; 31; 30; 31; 31; 30; 31; 30; 31]%Z 0%Z.

Definition days_before_month (y m : Z) : Z :=
  (DAYS_BEFORE_MONTH m + (if (2 <? m) && is_leap y then 1 else 0))%Z.

(** The days of a year before a date of it, the date included. *)
Definition day_of_year (y m d : Z) : Z := (days_before_month y m + d)%Z.

(** [d.toordinal()]: day 1 is 1 January of year 1. *)
Definition toordinal (d : date) : Z :=
  (days_before_year (year_of d) + days_before_month (year_of d) (month_of d)
   + day_of d)%Z.

Definition MAXORDINAL : Z := 3652059.

(** [date.fromordinal(n)], the function [_ord2ymd]. *)
Definition fromordinal (n0 : Z) : date :=
  (let n := n0 - 1 in
   let n400 := n / 146097 in
   let n := n mod 146097 in
   let n100 := n / 36524 in
   let n := n mod 36524 in
   let n4 := n / 1461 in
   let n := n mod 1461 in
   let n1 := n / 365 in
   let n := n mod 365 in
   let year := n400 * 400 + 1 + n100 * 100 + n4 * 4 + n1 in
   if (n1 =? 4) || (n100 =? 4) then mkdate (year - 1) 12 31
   else
     let leapyear := (n1 =? 3) && (negb (n4 =? 24) || (n100 =? 3)) in
     let month := Z.shiftr (n + 50) 5 in
     let preceding :=
       DAYS_BEFORE_MONTH month + (if (2 <? month) && leapyear then 1 else 0) in
     if n <? preceding then
       let month1 := month - 1 in
       let preceding1 :=
         preceding
         - (DAYS_IN_MONTH month1
            + (if (month1 =? 2) && leapyear then 1 else 0)) in
       mkdate year month1 (n - preceding1 + 1)
     else mkdate year month (n - preceding + 1))%Z.

(** The last steps of [fromordinal] on their own: the month and the day
    of day [n] of a year, counted from 0, [leapyear] telling whether the
    year is a leap year. *)
Definition month_day (leapyear : bool) (n : Z) : Z * Z :=
  (let month := Z.shiftr (n + 50) 5 in
   let preceding :=
     DAYS_BEFORE_MONTH month + (if (2 <? month) && leapyear then 1 else 0) in
   if n <? preceding then
     let month1 := month - 1 in
     let preceding1 :=
       preceding
       - (DAYS_IN_MONTH month1
          + (if (month1 =? 2) && leapyear then 1 else 0)) in
     (month1, n - preceding1 + 1)
   else (month, n - preceding + 1))%Z.

(** [month_day] answers a month and a day of that month, the day
    [n + 1] of the year. *)
Definition month_day_ok (leapyear : bool) (n : Z) : bool :=
  (let (m, d) := month_day leapyear n in
   (1 <=? m) && (m <=? 12) && (1 <=? d)
   && (d <=? (if m =? 2 then (if leapyear then 29 else 28)
              else if (m =? 4) || (m =? 6) || (m =? 9) || (m =? 11) then 30
              else 31))
   && (DAYS_BEFORE_MONTH m + (if (2 <? m) && leapyear then 1 else 0) + d
       =? n + 1))%Z.

(** [d + timedelta(days=n)]; [None] stands for [OverflowError]. *)
Definition date_add (d : date) (n : Z) : option date :=
  (let o := toordinal d + n in
   if (0 <? o) && (o <=? MAXORDINAL) then Some (fromordinal o) else None)%Z.

(** [d.weekday()]: Monday is 0, Saturday 5, Sunday 6. *)
Definition weekday (d : date) : Z := ((toordinal d + 6) mod 7)%Z.

(** *** Reading and writing [DD.MM.YYYY] *)

(** The value of a decimal digit, as [\d] matches it and [int] reads
    it: ASCII, Arabic-Indic, Extended Arabic-Indic, Devanagari and
    full-width digits. *)
Definition decimal_value (c : char) : option Z :=
  if in_range 48 57 c then Some (Z.of_N c - 48)%Z
  else if in_range 0x660 0x669 c then Some (Z.of_N c - 0x660)%Z
  else if in_range 0x6F0 0x6F9 c then Some (Z.of_N c - 0x6F0)%Z
  else if in_range 0x966 0x96F c then Some (Z.of_N c - 0x966)%Z
  else if in_range 0xFF10 0xFF19 c then Some (Z.of_N c - 0xFF10)%Z
  else None.

(** The group of [%d]: [3[0-1]|[1-2]\d|0[1-9]|[1-9]| [1-9]] *)
Definition parse_day (f : str) : option Z :=
  match f with
  | [a; b] =>
      if (a =? 51)%N && in_range 48 49 b then Some (30 + (Z.of_N b - 48))%Z
      else if in_range 49 50 a then
        option_map (fun v => (Z.of_N a - 48) * 10 + v)%Z (decimal_value b)
      else if ((a =? 48)%N || (a =? ch_space)%N) && in_range 49 57 b
      then Some (Z.of_N b - 48)%Z
      else None
  | [a] => if in_range 49 57 a then Some (Z.of_N a - 48)%Z else None
  | _ => None
  end.

(** The group of [%m]: [1[0-2]|0[1-9]|[1-9]] *)
Definition parse_month (f : str) : option Z :=
  match f with
  | [a; b] =>
      if (a =? 49)%N && in_range 48 50 b then Some (10 + (Z.of_N b - 48))%Z
      else if (a =? 48)%N && in_range 49 57 b then Some (Z.of_N b - 48)%Z
      else None
  | [a] => if in_range 49 57 a then Some (Z.of_N a - 48)%Z else None
  | _ => None
  end.

(** The group of [%Y]: [\d\d\d\d] *)
Definition parse_year (f : str) : option Z :=
  match f with
  | [a; b; c; d] =>
      match decimal_value a, decimal_value b, decimal_value c,
            decimal_value d with
      | Some x, Some y, Some z, Some w =>
          Some (x * 1000 + y * 100 + z * 10 + w)%Z
      | _, _, _, _ => None
      end
  | _ => None
  end.

(** [datetime.strptime(value, "%d.%m.%Y").date()]; [None] stands for
    [ValueError].  No group matches a dot, so the three groups are the
    fields between the dots. *)
Definition strptime_dmY (value : str) : option date :=
  match split_on ch_dot value with
  | [fd; fm; fy] =>
      match parse_day fd, parse_month fm, parse_year fy with
      | Some d, Some m, Some y => make_date y m d
      | _, _, _ => None
      end
  | _ => None
  end.

Definition digit_char (n : Z) : char := Z.to_N (48 + n).

Definition two_digits (n : Z) : str :=
  [digit_char (n / 10); digit_char (n mod 10)]%Z.

Definition four_digits (n : Z) : str :=
  [digit_char (n / 1000); digit_char (n / 100 mod 10);
   digit_char (n / 10 mod 10); digit_char (n mod 10)]%Z.

(** [d.strftime("%d.%m.%Y")], with the year on four digits. *)
Definition strftime_dmY (d : date) : str :=
  two_digits (day_of d) ++ [ch_dot] ++ two_digits (month_of d)
  ++ [ch_dot] ++ four_digits (year_of d).

(** ** Upcoming birthdays *)

(** What one turn of the loop of [get_upcoming_birthdays] does: go on
    to the next record ([continue], also from the [except ValueError]),
    append a line, or let an [OverflowError] escape. *)
Inductive turn :=
  | Continue
  | Append (line : str)
  | Overflow.

Definition upcoming_turn (today end_date : date) (record : ContactRecord)
  : turn :=
  match r_birthday record with
  | None => Continue
  | Some value =>
      match strptime_dmY value with
      | None => Continue
      | Some birthday_date =>
          match replace_year birthday_date (year_of today) with
          | None => Continue
          | Some this_year =>
              match (if date_ltb this_year today
                     then replace_year this_year (year_of today + 1)
                     else Some this_year) with
              | None => Continue
              | Some birthday_this_year =>
                  if date_leb today birthday_this_year
                     && date_leb birthday_this_year end_date
                  then
                    match (if (weekday birthday_this_year =? 5)%Z
                           then date_add birthday_this_year 2
                           else if (weekday birthday_this_year =? 6)%Z
                           then date_add birthday_this_year 1
                           else Some birthday_this_year) with
                    | Some congratulation_date =>
                        Append (r_name record ++ py ": "
                                ++ strftime_dmY congratulation_date)
                    | None => Overflow
                    end
                  else Continue
              end
          end
      end
  end.

Fixpoint upcoming_loop (today end_date : date) (records : list ContactRecord)
  (upcoming : list str) : option (list str) :=
  match records with
  | [] => Some upcoming
  | record :: rest =>
      match upcoming_turn today end_date record with
      | Continue => upcoming_loop today end_date rest upcoming
      | Append line => upcoming_loop today end_date rest (upcoming ++ [line])
      | Overflow => None
      end
  end.

(** [AddressBook.get_upcoming_birthdays]; [today] is what
    [datetime.today().date()] answers, and [None] stands for an
    [OverflowError] that leaves the method. *)
Definition get_upcoming_birthdays (book : AddressBook) (today : date)
  (days : Z) : option (list str) :=
  match date_add today days with
  | None => None
  | Some end_date => upcoming_loop today end_date (map snd book) []
  end.

(** ** Statements about the collection *)

(** The books that [add_contact], [add_phone] and [edit_phone] build
    from the empty book, through the commands or through the methods of
    a stored record. *)
Inductive reachable : AddressBook -> Prop :=
  | reach_empty : reachable []
  | reach_add_contact args book :
      reachable book -> reachable (snd (add_contact args book))
  | reach_add_phone_to_contact args book :
      reachable book -> reachable (snd (add_phone_to_contact args book))
  | reach_change_contact args book :
      reachable book -> reachable (snd (change_contact args book))
  | reach_Record_add_phone key record phone book :
      reachable book -> In (key, record) book ->
      reachable
        (dict_set key (snd (Record_add_phone record (Some key) phone book))
                  book)
  | reach_Record_edit_phone key record old_phone new_phone book :
      reachable book -> In (key, record) book ->
      reachable
        (dict_set key
           (snd (Record_edit_phone record (Some key) old_phone new_phone book))
           book).

(** What the three operations keep true of a book: the keys are pairwise
    distinct, a record is stored under its name, every stored phone
    passed [Phone], and no phone is with two records. *)
Record book_ok (book : AddressBook) : Prop := {
  ok_keys : NoDup (map fst book);
  ok_name : forall k r, In (k, r) book -> r_name r = k;
  ok_valid : forall k r p,
      In (k, r) book -> In p (r_phones r) -> Phone p = Valid p;
  ok_exclusive : forall k1 r1 k2 r2 p,
      In (k1, r1) book -> In (k2, r2) book -> k1 <> k2 ->
      In p (r_phones r1) -> In p (r_phones r2) -> False
}.

(** No phone is in the lists of two distinct records of the book. *)
Definition phones_exclusive (book : AddressBook) : Prop :=
  forall i j e1 e2 p,
    i <> j -> nth_error book i = Some e1 -> nth_error book j = Some e2 ->
    In p (r_phones (snd e1)) -> In p (r_phones (snd e2)) -> False.

(** The book of the scenario: ["ivan petrov"] added with one phone. *)
Definition book_ivan : AddressBook :=
  snd (add_contact [py "ivan"; py "petrov"; py "0987654321"] []).

(** A contact with two phones, and a contact with two notes. *)
Definition book_two_phones : AddressBook :=
  snd (add_contact [py "Ivan"; py "0501234567"; py "0671234567"] []).

Definition record_two_notes : ContactRecord :=
  set_notes (Record_init (py "Ivan"))
            [mkNote (py "Call") []; mkNote (py "Lunch") []].

(** A contact with the one note [Meeting]. *)
Definition book_meeting : AddressBook :=
  snd (add_note [py "Ivan"; py "Meeting"]
         (snd (add_contact [py "Ivan"; py "0501234567"] []))).

(** A tag of 31 letters. *)
Definition tag31 : str := repeat 97%N 31.

(** Two contacts, the name of one a prefix of the name of the other. *)
Definition book_petrov_jr : AddressBook :=
  snd (add_contact [py "Ivan"; py "Petrov"; py "Jr"; py "0671234567"]
         (snd (add_contact [py "Ivan"; py "Petrov"; py "0501234567"] []))).

(** [Ivan Petrov] with a note, and [Ivan] added after. *)
Definition book_ivan_and_petrov : AddressBook :=
  snd (add_contact [py "Ivan"; py "0501234567"]
         (snd (add_note [py "Ivan"; py "Petrov"; py "hello"]
                 (snd (add_contact [py "Ivan"; py "Petrov"; py "0671234567"]
                         []))))).

(** ** Statements about the birthdays *)

(** The next occurrence of a birthday: the birthday with the year
    replaced by the current year, advanced one year if that date is
    before today.  There is none when such a date does not exist. *)
Definition next_occurrence (today birthday_date : date) : option date :=
  match replace_year birthday_date (year_of today) with
  | Some d =>
      if date_ltb d today then replace_year d (year_of today + 1) else Some d
  | None => None
  end.

(** The days from one date to another. *)
Definition days_from (a b : date) : Z := (toordinal b - toordinal a)%Z.

(** By how many days a date is shifted: 2 on a Saturday, 1 on a
    Sunday. *)
Definition weekend_shift (d : date) : Z :=
  (if weekday d =? 5 then 2 else if weekday d =? 6 then 1 else 0)%Z.

(** The congratulation date of an occurrence. *)
Definition congratulation_date (d : date) : date :=
  fromordinal (toordinal d + weekend_shift d).

(** The line reported for a record, if any: the record has a birthday
    that parses, and the next occurrence of it is from 0 to [days] days
    after today. *)
Definition upcoming_line (today : date) (days : Z) (record : ContactRecord)
  : option str :=
  match r_birthday record with
  | Some value =>
      match strptime_dmY value with
      | Some birthday_date =>
          match next_occurrence today birthday_date with
          | Some d =>
              if ((0 <=? days_from today d) && (days_from today d <=? days))%Z
              then Some (r_name record ++ py ": "
                         ++ strftime_dmY (congratulation_date d))
              else None
          | None => None
          end
      | None => None
      end
  | None => None
  end.

Definition lines_of (today : date) (days : Z) (records : list ContactRecord)
  : list str :=
  flat_map (fun record =>
              match upcoming_line today days record with
              | Some line => [line]
              | None => []
              end) records.

(** The scenario of the birthdays: 10.05.2025 is a Saturday. *)
Definition today_2025_05_10 : date := mkdate 2025 5 10.

Definition with_birthday (name value : str) : str * ContactRecord :=
  (name,
   {| r_name := name; r_phones := []; r_birthday := Some value;
      r_address := None; r_email := None; r_notes := [] |}).

Definition book_birthdays : AddressBook :=
  [with_birthday (py "Ivan") (py "15.05.1990");
   with_birthday (py "Olha") (py "17.05.1985");
   with_birthday (py "Petro") (py "29.02.2000");
   with_birthday (py "Anna") (py "18.05.1992")].

(** ** Tactics for the calendar *)

(** The twelve cases of a month. *)
Ltac month_cases m :=
  let H := fresh in
  assert (m = 1 \/ m = 2 \/ m = 3 \/ m = 4 \/ m = 5 \/ m = 6 \/ m = 7
          \/ m = 8 \/ m = 9 \/ m = 10 \/ m = 11 \/ m = 12)%Z as H by lia;
  repeat (destruct H as [H|H]; [subst m|]); [..|subst m].

Ltac calc_bool b :=
  let t := eval vm_compute in b in
  match t with
  | true => change b with true in *
  | false => change b with false in *
  end.

Ltac calc_tables :=
  repeat match goal with
  | |- context [DAYS_BEFORE_MONTH ?m] =>
      let t := eval vm_compute in (DAYS_BEFORE_MONTH m) in
      change (DAYS_BEFORE_MONTH m) with t in *
  | |- context [DAYS_IN_MONTH ?m] =>
      let t := eval vm_compute in (DAYS_IN_MONTH m) in
      change (DAYS_IN_MONTH m) with t in *
  | |- context [(?a <? ?b)%Z] => calc_bool (a <? b)%Z
  | |- context [(?a =? ?b)%Z] => calc_bool (a =? b)%Z
  | H : context [(?a <? ?b)%Z] |- _ => calc_bool (a <? b)%Z
  | H : context [(?a =? ?b)%Z] |- _ => calc_bool (a =? b)%Z
  end;
  cbn [andb orb negb] in *; cbv iota in *.

(** * The other operations

    The rest of the record and book methods and of the commands, with
    the messages they answer. *)

Inductive MoreCommand :=
  | removephone | removecontact | removeaddress
  | addbday | editbday | removebday | upcomingbdays.

Inductive MoreReply :=
  | Earlier (r : Reply)            (* a message of the commands above *)
  | MoreUsage (command : MoreCommand)   (* error_messages[command] *)
  (* remove_phone, remove_contact, edit_contact_name *)
  | PhoneNotFound (phone : str)    (* Phone number .. not found. *)
  | PhoneRemoved                   (* Phone number removed! *)
  | ContactRemoved (name : str)    (* Contact .. removed! *)
  | NameChanged (name : str)       (* Contact name changed to ..! *)
  (* add_email, edit_email, remove_email *)
  | EmailExists                    (* Email already exists. Use 'editemail' .. *)
  | EmailAdded                     (* Email added! *)
  | EmailNotSetUseAdd              (* Email is not set. Use 'addemail' to add one. *)
  | EmailUpdated                   (* Email updated! *)
  | ProvideValidName               (* Please provide a valid contact name. *)
  | EmailNotSet                    (* Email is not set. *)
  | EmailRemoved                   (* Email removed! *)
  (* edit_address, remove_address *)
  | AddressUpdated                 (* Address updated! *)
  | AddressNotSet                  (* Address is not set. *)
  | AddressRemoved                 (* Address removed! *)
  (* Birthday *)
  | InvalidDateFormat              (* Invalid date format. Use DD.MM.YYYY *)
  | BirthdayInFuture               (* Birthday cannot be in the future. *)
  | UnrealisticBirthday            (* Unrealistic birthday. Please try again. *)
  (* add_birthday, edit_birthday, remove_birthday, upcoming_birthdays *)
  | InvalidDateFormatExample       (* Invalid date format. Use DD.MM.YYYY, for example, .. *)
  | BirthdayAlreadySet             (* Birthday is already set. Use 'editbday' .. *)
  | BirthdayAdded                  (* Birthday added! *)
  | BirthdayUpdated                (* Birthday updated! *)
  | BirthdayRemoved                (* Birthday removed! *)
  | Upcoming (text : str)          (* the lines, one per line *)
  | NoUpcoming                     (* No upcoming birthdays in the next 7 days. *)
  (* remove_tag_from_note *)
  | ProvideNameNoteTagToRemove     (* Please provide the contact name, note text and a tag to remove. *)
  | ProvideNoteAndTag              (* Please provide the note text and a tag to remove. *)
  | TagRemoved (tag text : str)    (* Tag .. removed from note: .. *)
  | TagNotInNote (tag : str)       (* Tag .. not found in this note. *)
  | AllTagsRemoved (text : str)    (* All tags removed from note: .. *)
  | NoteHasNoTags                  (* This note has no tags. *)
  | ProvideNoteAndTagFor (name : str) (* Please provide the note text and a tag to remove for .. *)
  (* edit_note *)
  | ProvideNameOldNew              (* Please provide the contact name, old note text and new note text. *)
  | OldNoteNotFound                (* Old note not found. Please check the old note text. Be exact. *)
  | NoteUpdated (tags : list str). (* Note updated [with tags: ..] *)

(** What these command bodies raise. *)
Inductive MoreExn :=
  | MoreValueError (msg : MoreReply)
  | MoreKeyError
  | MoreIndexError
  | MoreAttributeError
  | MoreOverflowError.

Inductive more_result (A : Type) :=
  | Returns (a : A)
  | Raises (e : MoreExn).

Arguments Returns {A} a.
Arguments Raises {A} e.

(** [input_error] on these commands; what is not a [ValueError], a
    [KeyError] or an [IndexError] is answered by [Something went
    wrong]. *)
Definition more_input_error (usage : MoreReply) (book : AddressBook)
  (r : more_result (MoreReply * AddressBook)) : MoreReply * AddressBook :=
  match r with
  | Returns x => x
  | Raises (MoreValueError msg) => (msg, book)
  | Raises MoreKeyError => (Earlier ContactNotFound, book)
  | Raises MoreIndexError => (usage, book)
  | Raises MoreAttributeError => (Earlier SomethingWentWrong, book)
  | Raises MoreOverflowError => (Earlier SomethingWentWrong, book)
  end.

(** ** Phones *)

(** [list.remove] of the phone object that [find_phone] found: the
    first phone with that value goes. *)
Fixpoint remove_first (phone : str) (l : list str) : list str :=
  match l with
  | [] => []
  | p :: l' => if str_eqb p phone then l' else p :: remove_first phone l'
  end.

(** [Record.remove_phone] *)
Definition Record_remove_phone (self : ContactRecord) (phone : str)
  : bool * ContactRecord :=
  match find_phone self phone with
  | Some _ => (true, set_phones self (remove_first phone (r_phones self)))
  | None => (false, self)
  end.

Definition remove_phone_body (args : list str) (book : AddressBook)
  : more_result (MoreReply * AddressBook) :=
  if (length args <? 2)%nat then Raises MoreIndexError
  else
    let possible_phone := last_arg args in
    let name := normalize_name (unwords (but_last args)) in
    match find book name with
    | None => Raises MoreKeyError
    | Some (key, record) =>
        match Record_remove_phone record possible_phone with
        | (false, _) => Returns (PhoneNotFound possible_phone, book)
        | (true, record') =>
            Returns (PhoneRemoved, dict_set key record' book)
        end
    end.

Definition remove_phone (args : list str) (book : AddressBook)
  : MoreReply * AddressBook :=
  more_input_error (MoreUsage removephone) book
    (remove_phone_body args book).

(** ** Contacts *)

(** [AddressBook.delete]: the first key equal to [name] up to case goes,
    with its record. *)
Fixpoint delete (book : AddressBook) (name : str) : bool * AddressBook :=
  match book with
  | [] => (false, [])
  | (key, record) :: b =>
      if str_eqb (lower key) (lower name) then (true, b)
      else let (found, b') := delete b name in (found, (key, record) :: b')
  end.

Definition remove_contact_body (args : list str) (book : AddressBook)
  : more_result (MoreReply * AddressBook) :=
  match args with
  | [] => Raises MoreIndexError
  | _ =>
      let name := normalize_name (unwords args) in
      match delete book name with
      | (false, _) => Raises MoreKeyError
      | (true, book') => Returns (ContactRemoved name, book')
      end
  end.

Definition remove_contact (args : list str) (book : AddressBook)
  : MoreReply * AddressBook :=
  more_input_error (MoreUsage removecontact) book
    (remove_contact_body args book).

Definition set_name (r : ContactRecord) (n : str) : ContactRecord :=
  {| r_name := n; r_phones := r_phones r; r_birthday := r_birthday r;
     r_address := r_address r; r_email := r_email r; r_notes := r_notes r |}.

Definition set_birthday (r : ContactRecord) (b : option str)
  : ContactRecord :=
  {| r_name := r_name r; r_phones := r_phones r; r_birthday := b;
     r_address := r_address r; r_email := r_email r; r_notes := r_notes r |}.

(** [edit_contact_name]: the record found under the old name is taken
    out of the book, renamed, and stored under the new name. *)
Definition edit_contact_name_body (args : list str) (book : AddressBook)
  : more_result (MoreReply * AddressBook) :=
  if (length args <? 2)%nat then Raises MoreIndexError
  else
    match resolve editname book args with
    | None => Raises MoreKeyError
    | Some (i, old_name) =>
        let new_name := normalize_name (unwords (skipn i args)) in
        match find book old_name with
        | None => Raises MoreAttributeError
        | Some (_, record) =>
            let (_, book') := delete book old_name in
            Returns (NameChanged new_name,
                     add_record book' (set_name record new_name))
        end
    end.

Definition edit_contact_name (args : list str) (book : AddressBook)
  : MoreReply * AddressBook :=
  more_input_error (Earlier (Usage editname)) book
    (edit_contact_name_body args book).

(** ** Emails *)

(** [Record.edit_email]: the message returned, [None] when the email was
    replaced. *)
Definition Record_edit_email (self : ContactRecord) (new_email : str)
  : option MoreReply * ContactRecord :=
  match r_email self with
  | Some _ =>
      match Email new_email with
      | Valid v => (None, set_email self (Some v))
      | Invalid msg => (Some (Earlier msg), self)
      end
  | None => (Some EmailNotSetUseAdd, self)
  end.

(** [Record.remove_email] *)
Definition Record_remove_email (self : ContactRecord) : ContactRecord :=
  set_email self None.

Definition add_email_body (args : list str) (book : AddressBook)
  : more_result (MoreReply * AddressBook) :=
  if (length args <? 2)%nat then Raises MoreIndexError
  else
    match resolve addemail book args with
    | None => Returns (Earlier ContactNotFound, book)
    | Some (i, name) =>
        let email := unwords (skipn i args) in
        match find book name with
        | None => Raises MoreAttributeError
        | Some (key, record) =>
            match r_email record with
            | Some _ => Returns (EmailExists, book)
            | None =>
                match Record_add_email record email with
                | Invalid msg => Raises (MoreValueError (Earlier msg))
                | Valid record' =>
                    Returns (EmailAdded, dict_set key record' book)
                end
            end
        end
    end.

Definition add_email (args : list str) (book : AddressBook)
  : MoreReply * AddressBook :=
  more_input_error (Earlier (Usage addemail)) book
    (add_email_body args book).

Definition edit_email_body (args : list str) (book : AddressBook)
  : more_result (MoreReply * AddressBook) :=
  if (length args <? 2)%nat then Raises MoreIndexError
  else
    match resolve editemail book args with
    | None => Returns (Earlier ContactNotFound, book)
    | Some (i, name) =>
        let new_email := unwords (skipn i args) in
        match find book name with
        | None => Raises MoreAttributeError
        | Some (key, record) =>
            match Record_edit_email record new_email with
            | (Some msg, _) => Returns (msg, book)
            | (None, record') =>
                Returns (EmailUpdated, dict_set key record' book)
            end
        end
    end.

Definition edit_email (args : list str) (book : AddressBook)
  : MoreReply * AddressBook :=
  more_input_error (Earlier (Usage editemail)) book
    (edit_email_body args book).

Definition remove_email_body (args : list str) (book : AddressBook)
  : more_result (MoreReply * AddressBook) :=
  match args with
  | [] => Raises MoreIndexError
  | _ =>
      match resolve removeemail book args with
      | None => Returns (ProvideValidName, book)
      | Some (i, name) =>
          match find book name with
          | None => Returns (Earlier ContactNotFound, book)
          | Some (key, record) =>
              match r_email record with
              | None => Returns (EmailNotSet, book)
              | Some _ =>
                  Returns (EmailRemoved,
                           dict_set key (Record_remove_email record) book)
              end
          end
      end
  end.

Definition remove_email (args : list str) (book : AddressBook)
  : MoreReply * AddressBook :=
  more_input_error (Earlier (Usage removeemail)) book
    (remove_email_body args book).

(** ** Addresses *)

(** [Record.edit_address]: the value of the address is replaced, or the
    address is created. *)
Definition Record_edit_address (self : ContactRecord) (new_address : str)
  : ContactRecord :=
  match r_address self with
  | Some _ => set_address self (Some new_address)
  | None => Record_add_address self new_address
  end.

(** [Record.remove_address] *)
Definition Record_remove_address (self : ContactRecord) : ContactRecord :=
  set_address self None.

Definition edit_address_body (args : list str) (book : AddressBook)
  : more_result (MoreReply * AddressBook) :=
  if (length args <? 2)%nat then Raises MoreIndexError
  else
    match resolve editaddress book args with
    | None => Returns (Earlier ContactNotFound, book)
    | Some (i, name) =>
        let new_address := title (unwords (skipn i args)) in
        match find book name with
        | None => Raises MoreAttributeError
        | Some (key, record) =>
            Returns (AddressUpdated,
                     dict_set key (Record_edit_address record new_address)
                              book)
        end
    end.

Definition edit_address (args : list str) (book : AddressBook)
  : MoreReply * AddressBook :=
  more_input_error (Earlier (Usage editaddress)) book
    (edit_address_body args book).

Definition remove_address_body (args : list str) (book : AddressBook)
  : more_result (MoreReply * AddressBook) :=
  match args with
  | [] => Raises MoreIndexError
  | _ =>
      let name := normalize_name (unwords args) in
      match find book name with
      | None => Raises MoreKeyError
      | Some (key, record) =>
          match r_address record with
          | None => Returns (AddressNotSet, book)
          | Some _ =>
              Returns (AddressRemoved,
                       dict_set key (Record_remove_address record) book)
          end
      end
  end.

Definition remove_address (args : list str) (book : AddressBook)
  : MoreReply * AddressBook :=
  more_input_error (MoreUsage removeaddress) book
    (remove_address_body args book).

(** ** Birthdays *)

Inductive more_checked (A : Type) :=
  | Accepted (a : A)
  | Rejected (msg : MoreReply).

Arguments Accepted {A} a.
Arguments Rejected {A} msg.

(** [Birthday.__init__]; [today] is what [datetime.today().date()]
    answers. *)
Definition Birthday (today : date) (value : str) : more_checked str :=
  match strptime_dmY value with
  | None => Rejected InvalidDateFormat
  | Some birthday_date =>
      if date_ltb today birthday_date then Rejected BirthdayInFuture
      else if (year_of birthday_date <? 1930)%Z then
        Rejected UnrealisticBirthday
      else Accepted value
  end.

(** [Record.add_birthday] and [Record.edit_birthday], which are the
    same. *)
Definition Record_add_birthday (today : date) (self : ContactRecord)
  (birthday_str : str) : more_checked ContactRecord :=
  match Birthday today birthday_str with
  | Accepted v => Accepted (set_birthday self (Some v))
  | Rejected msg => Rejected msg
  end.

Definition Record_edit_birthday (today : date) (self : ContactRecord)
  (new_birthday : str) : more_checked ContactRecord :=
  match Birthday today new_birthday with
  | Accepted v => Accepted (set_birthday self (Some v))
  | Rejected msg => Rejected msg
  end.

(** [Record.remove_birthday] *)
Definition Record_remove_birthday (self : ContactRecord) : ContactRecord :=
  set_birthday self None.

Definition add_birthday_body (today : date) (args : list str)
  (book : AddressBook) : more_result (MoreReply * AddressBook) :=
  if (length args <? 2)%nat then Raises MoreIndexError
  else
    let name := normalize_name (unwords (but_last args)) in
    let birthday := last_arg args in
    match strptime_dmY birthday with
    | None => Returns (InvalidDateFormatExample, book)
    | Some _ =>
        match find book name with
        | None => Raises MoreKeyError
        | Some (key, record) =>
            match r_birthday record with
            | Some _ => Returns (BirthdayAlreadySet, book)
            | None =>
                match Record_add_birthday today record birthday with
                | Rejected msg => Raises (MoreValueError msg)
                | Accepted record' =>
                    Returns (BirthdayAdded, dict_set key record' book)
                end
            end
        end
    end.

Definition add_birthday (today : date) (args : list str)
  (book : AddressBook) : MoreReply * AddressBook :=
  more_input_error (MoreUsage addbday) book
    (add_birthday_body today args book).

Definition edit_birthday_body (today : date) (args : list str)
  (book : AddressBook) : more_result (MoreReply * AddressBook) :=
  if (length args <? 2)%nat then Raises MoreIndexError
  else
    let name := normalize_name (unwords (but_last args)) in
    let birthday := last_arg args in
    match find book name with
    | None => Raises MoreKeyError
    | Some (key, record) =>
        match Record_edit_birthday today record birthday with
        | Rejected msg => Raises (MoreValueError msg)
        | Accepted record' =>
            Returns (BirthdayUpdated, dict_set key record' book)
        end
    end.

Definition edit_birthday (today : date) (args : list str)
  (book : AddressBook) : MoreReply * AddressBook :=
  more_input_error (MoreUsage editbday) book
    (edit_birthday_body today args book).

Definition remove_birthday_body (args : list str) (book : AddressBook)
  : more_result (MoreReply * AddressBook) :=
  match args with
  | [] => Raises MoreIndexError
  | _ =>
      let name := normalize_name (unwords args) in
      match find book name with
      | None => Raises MoreKeyError
      | Some (key, record) =>
          Returns (BirthdayRemoved,
                   dict_set key (Record_remove_birthday record) book)
      end
  end.

Definition remove_birthday (args : list str) (book : AddressBook)
  : MoreReply * AddressBook :=
  more_input_error (MoreUsage removebday) book
    (remove_birthday_body args book).

(** [upcoming_birthdays] *)
Definition upcoming_birthdays_body (today : date) (args : list str)
  (book : AddressBook) : more_result (MoreReply * AddressBook) :=
  match args with
  | _ :: _ => Raises MoreIndexError
  | [] =>
      match get_upcoming_birthdays book today 7 with
      | None => Raises MoreOverflowError
      | Some [] => Returns (NoUpcoming, book)
      | Some upcoming => Returns (Upcoming (join [10%N] upcoming), book)
      end
  end.

Definition upcoming_birthdays (today : date) (args : list str)
  (book : AddressBook) : MoreReply * AddressBook :=
  more_input_error (MoreUsage upcomingbdays) book
    (upcoming_birthdays_body today args book).

(** ** Tags *)

(** [Note.remove_tag]: [set.discard] of the cleaned tag. *)
Definition Note_remove_tag (self : Note) (tag : str) : Note :=
  let tag_clean := lower (lstrip_hash tag) in
  {| n_text := n_text self;
     n_tags := filter (fun t => negb (str_eqb t tag_clean)) (n_tags self) |}.

(** [Note.has_tag] *)
Definition Note_has_tag (self : Note) (tag : str) : bool :=
  set_mem (lower (lstrip_hash tag)) (n_tags self).

(** [re.search(r"#\w+", s)]: the word of the first match. *)
Definition re_search_tag (s : str) : option str :=
  match re_findall_tags s with
  | [] => None
  | w :: _ => Some w
  end.

(** The loop over the notes of [remove_tag_from_note]: the first note
    whose text matches loses the tag, or all its tags when no tag is
    given. *)
Fixpoint untag_first_match (note_text : str) (tag_to_remove : option str)
  (l : list Note) : option (MoreReply * list Note) :=
  match l with
  | [] => None
  | note :: l' =>
      if str_eqb (note_key note) (lower note_text) then
        match tag_to_remove with
        | Some (c :: t) =>
            let tag := c :: t in
            if set_mem tag (n_tags note) then
              Some (TagRemoved tag (n_text note),
                    {| n_text := n_text note;
                       n_tags := filter (fun x => negb (str_eqb x tag))
                                        (n_tags note) |} :: l')
            else Some (TagNotInNote tag, l)
        | _ =>
            match n_tags note with
            | [] => Some (NoteHasNoTags, l)
            | _ =>
                Some (AllTagsRemoved (n_text note),
                      {| n_text := n_text note; n_tags := [] |} :: l')
            end
        end
      else
        match untag_first_match note_text tag_to_remove l' with
        | Some (msg, l'') => Some (msg, note :: l'')
        | None => None
        end
  end.

Definition remove_tag_from_note_body (args : list str) (book : AddressBook)
  : more_result (MoreReply * AddressBook) :=
  if (length args <? 2)%nat then Raises MoreIndexError
  else
    match resolve removetag book args with
    | None => Returns (ProvideNameNoteTagToRemove, book)
    | Some (i, name) =>
        match skipn i args with
        | [] => Returns (ProvideNoteAndTag, book)
        | rest_args =>
            let full_text := unwords rest_args in
            let tag_to_remove := option_map lower (re_search_tag full_text) in
            let note_text := strip (re_sub_tags full_text) in
            match find book name with
            | None => Raises MoreAttributeError
            | Some (key, record) =>
                match untag_first_match note_text tag_to_remove
                        (r_notes record) with
                | Some (msg, l) =>
                    Returns (msg, dict_set key (set_notes record l) book)
                | None => Returns (ProvideNoteAndTagFor name, book)
                end
            end
        end
    end.

Definition remove_tag_from_note (args : list str) (book : AddressBook)
  : MoreReply * AddressBook :=
  more_input_error (Earlier (Usage removetag)) book
    (remove_tag_from_note_body args book).

(** ** Editing a note *)

(** The loop over [j] of [edit_note]: the first [j] from [j] on, of [n]
    tried, for which the first [j] of the remaining tokens are the text
    of a note. *)
Fixpoint scan_old_note (notes : list Note) (remaining : list str)
  (j n : nat) : option nat :=
  match n with
  | O => None
  | S n' =>
      let old_candidate := lower (strip (unwords (firstn j remaining))) in
      if existsb (fun note => str_eqb (note_key note) old_candidate) notes
      then Some j
      else scan_old_note notes remaining (S j) n'
  end.

(** [set(tags)] *)
Definition set_of (tags : list str) : list str :=
  fold_left (fun s t => set_add t s) tags [].

(** [["edited" in result.lower()]] on the two messages of
    [Record.edit_note]. *)
Definition says_edited (r : Reply) : bool :=
  match r with
  | NoteEdited => true
  | _ => false
  end.

Definition edit_note_body (args : list str) (book : AddressBook)
  : more_result (MoreReply * AddressBook) :=
  if (length args <? 3)%nat then Raises MoreIndexError
  else
    match resolve editnote book args with
    | None => Returns (ProvideNameOldNew, book)
    | Some (i, name) =>
        match find book name with
        | None => Raises MoreAttributeError
        | Some (key, record) =>
            let remaining := skipn i args in
            match scan_old_note (r_notes record) remaining 1
                                (length remaining - 1) with
            | None => Returns (OldNoteNotFound, book)
            | Some j =>
                let old_text := unwords (firstn j remaining) in
                let new_text := unwords (skipn j remaining) in
                let tags := extract_tags_from_text new_text in
                let clean_new_text := strip (re_sub_tags new_text) in
                match Record_edit_note record old_text clean_new_text with
                | Invalid msg => Raises (MoreValueError (Earlier msg))
                | Valid (result, record') =>
                    if says_edited result then
                      let retag note :=
                        if str_eqb (note_key note) (lower clean_new_text)
                           && nonempty tags
                        then {| n_text := n_text note;
                                n_tags := set_of tags |}
                        else note in
                      Returns (NoteUpdated tags,
                               dict_set key
                                 (set_notes record'
                                    (map retag (r_notes record')))
                                 book)
                    else Returns (Earlier result, dict_set key record' book)
                end
            end
        end
    end.

Definition edit_note (args : list str) (book : AddressBook)
  : MoreReply * AddressBook :=
  more_input_error (Earlier (Usage editnote)) book
    (edit_note_body args book).

(** ** Reading a line *)

(** [parse_input]; [None] stands for the [ValueError] of a line without
    a word. *)
Definition parse_input (user_input : str) : option (str * list str) :=
  match split (strip user_input) with
  | [] => None
  | cmd :: args => Some (lower (strip cmd), args)
  end.

(** ** Statements about the whole session *)

(** The books that the commands build from the empty book; [today] is
    the date of the day on which a birthday is entered. *)
Inductive session : AddressBook -> Prop :=
  | session_empty : session []
  | session_add_contact args book :
      session book -> session (snd (add_contact args book))
  | session_edit_contact_name args book :
      session book -> session (snd (edit_contact_name args book))
  | session_remove_contact args book :
      session book -> session (snd (remove_contact args book))
  | session_add_phone args book :
      session book -> session (snd (add_phone_to_contact args book))
  | session_change_phone args book :
      session book -> session (snd (change_contact args book))
  | session_remove_phone args book :
      session book -> session (snd (remove_phone args book))
  | session_add_birthday today args book :
      session book -> session (snd (add_birthday today args book))
  | session_edit_birthday today args book :
      session book -> session (snd (edit_birthday today args book))
  | session_remove_birthday args book :
      session book -> session (snd (remove_birthday args book))
  | session_add_email args book :
      session book -> session (snd (add_email args book))
  | session_edit_email args book :
      session book -> session (snd (edit_email args book))
  | session_remove_email args book :
      session book -> session (snd (remove_email args book))
  | session_add_address args book :
      session book -> session (snd (add_address args book))
  | session_edit_address args book :
      session book -> session (snd (edit_address args book))
  | session_remove_address args book :
      session book -> session (snd (remove_address args book))
  | session_add_note args book :
      session book -> session (snd (add_note args book))
  | session_edit_note args book :
      session book -> session (snd (edit_note args book))
  | session_remove_note args book :
      session book -> session (snd (remove_note args book))
  | session_add_tag args book :
      session book -> session (snd (add_tag_to_note args book))
  | session_remove_tag args book :
      session book -> session (snd (remove_tag_from_note args book)).

(** The email of a record, when it has one, matches the pattern of
    [Email.validate_email]. *)
Definition email_ok (r : ContactRecord) : Prop :=
  forall e, r_email r = Some e -> validate_email e = true.

(** The birthday of a record, when it has one, is a date in the format
    [DD.MM.YYYY], of 1930 or later. *)
Definition birthday_ok (r : ContactRecord) : Prop :=
  forall v, r_birthday r = Some v ->
    exists d, strptime_dmY v = Some d /\ (1930 <= year_of d)%Z.

(** Every email and every birthday of the book has been validated. *)
Definition fields_ok (book : AddressBook) : Prop :=
  forall key record,
    In (key, record) book -> email_ok record /\ birthday_ok record.

(** A command changes at most one stored record, and neither its name nor
    its phones, of which it may only drop some; an email or a birthday
    that it stores has been validated. *)
Definition same_but_one (book book' : AddressBook) : Prop :=
  book' = book
  \/ exists key record r',
       In (key, record) book
       /\ r_name r' = r_name record
       /\ incl (r_phones r') (r_phones record)
       /\ (email_ok record -> email_ok r')
       /\ (birthday_ok record -> birthday_ok r')
       /\ book' = dict_set key r' book.

(** The goals that [stored_by] leaves are closed by computation when the
    command does not touch the field. *)
Ltac stored_by L H :=
  eapply L;
  [ exact H
  | try reflexivity
  | try apply incl_refl
  | try (intros Hok; exact Hok)
  | try (intros Hok; exact Hok) ].

(** Two contacts, [Ivan] and [Petro]. *)
Definition book_ivan_petro : AddressBook :=
  snd (add_contact [py "Petro"; py "0671234567"]
         (snd (add_contact [py "Ivan"; py "0501234567"] []))).

(** A short session: two contacts, a note, a rename and a removal. *)
Definition book_after_session : AddressBook :=
  snd (remove_phone [py "Petro"; py "0671234567"]
         (snd (edit_contact_name [py "Ivan"; py "Petro"]
                 (snd (add_note [py "Ivan"; py "Call"; py "#urgent"]
                         book_ivan_petro))))).

(** ** Checks by computation *)

(** A number written by [fmt] has no dot and is read back by [parse]. *)
Definition field_ok (parse : str -> option Z) (fmt : Z -> str) (k : Z)
  : bool :=
  negb (contains ch_dot (fmt k))
  && match parse (fmt k) with
     | Some v => (v =? k)%Z
     | None => false
     end.

(** The numbers from [lo] on, [n] of them. *)
Definition Zseq (lo : Z) (n : nat) : list Z :=
  map (fun k => (lo + Z.of_nat k)%Z) (seq 0 n).

(** An ASCII character and its lower case: one character, which is put
    in title case and in lower case as the character itself is, and is
    white space or a hyphen exactly when the character is. *)
Definition ascii_lower_ok (c : char) : bool :=
  match lower_char c with
  | [l] =>
      str_eqb (title_char l) (title_char c)
      && str_eqb (lower_char l) [l]
      && is_ascii l
      && Bool.eqb (isspace_char l) (isspace_char c)
      && Bool.eqb (l =? ch_hyphen)%N (c =? ch_hyphen)%N
  | _ => false
  end.

(** Some [#] of [s] has a word character after it: [#\w+] matches
    somewhere in [s]. *)
Fixpoint has_tag_start (s : str) : bool :=
  match s with
  | [] => false
  | c :: r => ((c =? ch_hash)%N && next_isword r) || has_tag_start r
  end.

(** A record with the notes [Call] and [Meeting #work]. *)
Definition record_call_meeting : ContactRecord :=
  {| r_name := py "Ivan"; r_phones := []; r_birthday := None;
     r_address := None; r_email := None;
     r_notes := [mkNote (py "Call") []; mkNote (py "Meeting") [py "work"]] |}.

(** [Ivan Petrov] with an email and a birthday, entered on 10.05.2025. *)
Definition book_ivan_fields : AddressBook :=
  snd (add_birthday today_2025_05_10
         [py "Ivan"; py "Petrov"; py "15.05.1990"]
         (snd (add_email [py "Ivan"; py "Petrov"; py "ivan@mail.com"]
                 book_ivan))).

(** * Properties *)

(** ** Strings *)

Lemma str_eqb_eq (a b : str) : str_eqb a b = true <-> a = b.
Proof.
  revert b; induction a as [|x a IH]; intros [|y b]; simpl;
    try (split; congruence).
  rewrite andb_true_iff, N.eqb_eq, IH. split.
  - intros [-> ->]; reflexivity.
  - intros H; injection H; auto.
Qed.

Lemma str_eqb_refl (a : str) : str_eqb a a = true.
Proof. apply str_eqb_eq; reflexivity. Qed.

Lemma str_eqb_neq (a b : str) : str_eqb a b = false <-> a <> b.
Proof.
  rewrite <- str_eqb_eq. destruct (str_eqb a b); split; congruence.
Qed.

Lemma str_eqb_sym (a b : str) : str_eqb a b = str_eqb b a.
Proof.
  destruct (str_eqb a b) eqn:E.
  - apply str_eqb_eq in E; subst; symmetry; apply str_eqb_refl.
  - symmetry; apply str_eqb_neq; apply str_eqb_neq in E; congruence.
Qed.

Example split_demo :
  split (py "  ivan   petrov ") = [py "ivan"; py "petrov"].
Proof. reflexivity. Qed.

Example re_sub_demo :
  re_sub_tags (py "Meeting #urgent at 3 ##x") = py "Meeting  at 3 #".
Proof. reflexivity. Qed.

Example re_findall_demo :
  re_findall_tags (py "Meeting #urgent at 3 ##x#y") =
  [py "urgent"; py "x"; py "y"].
Proof. reflexivity. Qed.

Example validate_email_demo :
  validate_email (py "ivan@example.com") = true
  /\ validate_email (py "ivan@example") = false
  /\ validate_email (py "@example.com") = false
  /\ validate_email (py "a b@example.com") = false.
Proof. repeat split; reflexivity. Qed.


(** *** Stripping *)

Lemma dropwhile_idem (f : char -> bool) (s : str) :
  dropwhile f (dropwhile f s) = dropwhile f s.
Proof.
  induction s as [|c r IH]; simpl; [reflexivity|].
  destruct (f c) eqn:E; [exact IH|]. simpl. rewrite E. reflexivity.
Qed.

Lemma dropwhile_app (f : char -> bool) (a b : str) :
  dropwhile f (a ++ b)
  = if forallb f a then dropwhile f b else dropwhile f a ++ b.
Proof.
  induction a as [|c a IH]; simpl; [reflexivity|].
  destruct (f c); simpl; [exact IH | reflexivity].
Qed.

Lemma dropwhile_nil (f : char -> bool) (s : str) :
  dropwhile f s = [] <-> forallb f s = true.
Proof.
  induction s as [|c r IH]; simpl; [tauto|].
  destruct (f c); simpl; [exact IH|]. split; discriminate.
Qed.

(** [rstrip], read from the left. *)
Lemma rstrip_cons (c : char) (s : str) :
  rstrip (c :: s)
  = match rstrip s with
    | [] => if isspace_char c then [] else [c]
    | r => c :: r
    end.
Proof.
  unfold rstrip. simpl. rewrite dropwhile_app.
  destruct (forallb isspace_char (rev s)) eqn:E.
  - assert (dropwhile isspace_char (rev s) = []) as ->
      by (apply dropwhile_nil; exact E).
    simpl. destruct (isspace_char c); reflexivity.
  - rewrite rev_app_distr. simpl.
    destruct (rev (dropwhile isspace_char (rev s))) eqn:F; [|reflexivity].
    apply (f_equal (@rev char)) in F. rewrite rev_involutive in F. simpl in F.
    apply dropwhile_nil in F. congruence.
Qed.

Lemma rstrip_nil (s : str) : rstrip s = [] <-> forallb isspace_char s = true.
Proof.
  induction s as [|c s IH]; [split; reflexivity|].
  rewrite rstrip_cons. simpl.
  destruct (rstrip s) eqn:E.
  - destruct (isspace_char c); simpl.
    + tauto.
    + split; discriminate.
  - split; [discriminate|]. intros H. apply andb_true_iff in H as [_ H].
    apply IH in H. discriminate.
Qed.

Lemma rstrip_idem (s : str) : rstrip (rstrip s) = rstrip s.
Proof.
  induction s as [|c s IH]; [reflexivity|].
  rewrite rstrip_cons.
  destruct (rstrip s) as [|d r] eqn:E.
  - destruct (isspace_char c) eqn:F; [reflexivity|].
    rewrite rstrip_cons. simpl. rewrite F. reflexivity.
  - rewrite rstrip_cons, IH. reflexivity.
Qed.

Lemma lstrip_rstrip_head (c : char) (s : str) :
  isspace_char c = false -> lstrip (rstrip (c :: s)) = rstrip (c :: s).
Proof.
  intros H. rewrite rstrip_cons, H.
  destruct (rstrip s); unfold lstrip; simpl; rewrite H; reflexivity.
Qed.

Lemma lstrip_head (s : str) :
  match lstrip s with [] => True | c :: _ => isspace_char c = false end.
Proof.
  unfold lstrip. induction s as [|c s IH]; simpl; [exact I|].
  destruct (isspace_char c) eqn:E; [exact IH | exact E].
Qed.

Lemma strip_idem (s : str) : strip (strip s) = strip s.
Proof.
  unfold strip. pose proof (lstrip_head s) as H.
  destruct (lstrip s) as [|c r]; [reflexivity|].
  rewrite (lstrip_rstrip_head c r H). apply rstrip_idem.
Qed.

(** *** Splitting on white space *)

Lemma split_from_spaces (cur : option str) (s : str) :
  forallb isspace_char s = true ->
  split_from cur s = match cur with Some w => [w] | None => [] end.
Proof.
  revert cur; induction s as [|c s IH]; simpl; intros cur H; [reflexivity|].
  apply andb_true_iff in H as [-> H].
  destruct cur; rewrite IH; auto.
Qed.

Lemma split_from_rstrip (cur : option str) (s : str) :
  split_from cur (rstrip s) = split_from cur s.
Proof.
  revert cur; induction s as [|c s IH]; intros cur; [reflexivity|].
  rewrite rstrip_cons.
  case_eq (rstrip s); [intros E | intros d r E].
  - apply rstrip_nil in E.
    destruct (isspace_char c) eqn:F; simpl; rewrite F.
    + destruct cur; rewrite (split_from_spaces _ s E); reflexivity.
    + destruct cur; rewrite (split_from_spaces _ s E); reflexivity.
  - rewrite <- E. simpl.
    destruct (isspace_char c), cur; rewrite IH; reflexivity.
Qed.

Lemma split_from_lstrip (s : str) :
  split_from None (lstrip s) = split_from None s.
Proof.
  unfold lstrip. induction s as [|c s IH]; simpl; [reflexivity|].
  destruct (isspace_char c) eqn:E; [exact IH|].
  simpl. rewrite E. reflexivity.
Qed.

Lemma split_strip (s : str) : split (strip s) = split s.
Proof.
  unfold split, strip. rewrite split_from_rstrip. apply split_from_lstrip.
Qed.

Lemma split_from_word (u w tail : str) :
  spacefree w = true ->
  split_from (Some u) (w ++ tail) = split_from (Some (u ++ w)) tail.
Proof.
  revert u; induction w as [|c w IH]; simpl; intros u H.
  - rewrite app_nil_r. reflexivity.
  - apply andb_true_iff in H as [Hc H]. apply negb_true_iff in Hc.
    rewrite Hc, IH by exact H. rewrite <- app_assoc. reflexivity.
Qed.

Lemma split_from_None_word (w tail : str) :
  word_ok w = true ->
  split_from None (w ++ tail) = split_from (Some w) tail.
Proof.
  unfold word_ok. destruct w as [|c w]; simpl; [discriminate|].
  intros H. apply andb_true_iff in H as [Hc H]. apply negb_true_iff in Hc.
  rewrite Hc. apply (split_from_word [c] w tail H).
Qed.

Lemma split_from_space (u tail : str) :
  split_from (Some u) (ch_space :: tail) = u :: split_from None tail.
Proof. reflexivity. Qed.

Lemma join_cons2 (sep w w' : str) (l : list str) :
  join sep (w :: w' :: l) = w ++ sep ++ join sep (w' :: l).
Proof. reflexivity. Qed.

Lemma split_join (l : list str) :
  forallb word_ok l = true -> split (join [ch_space] l) = l.
Proof.
  unfold split. induction l as [|w l IH]; intros H; [reflexivity|].
  simpl in H. apply andb_true_iff in H as [Hw H].
  destruct l as [|w' l'].
  - simpl. rewrite <- (app_nil_r w) at 1.
    rewrite split_from_None_word by exact Hw. reflexivity.
  - rewrite join_cons2, split_from_None_word by exact Hw.
    change ([ch_space] ++ join [ch_space] (w' :: l'))
      with (ch_space :: join [ch_space] (w' :: l')).
    rewrite split_from_space, IH by exact H. reflexivity.
Qed.

Lemma split_from_words (cur : option str) (s : str) :
  match cur with Some u => word_ok u = true | None => True end ->
  forallb word_ok (split_from cur s) = true.
Proof.
  revert cur; induction s as [|c s IH]; simpl; intros cur H.
  - destruct cur; simpl; [rewrite H|]; reflexivity.
  - destruct (isspace_char c) eqn:E.
    + destruct cur; simpl; [rewrite H; simpl|]; apply IH; exact I.
    + destruct cur as [u|]; apply IH.
      * unfold word_ok, spacefree in *.
        apply andb_true_iff in H as [_ H].
        rewrite forallb_app, H. simpl. rewrite E.
        destruct u; reflexivity.
      * unfold word_ok, spacefree. simpl. rewrite E. reflexivity.
Qed.

Lemma split_words (s : str) : forallb word_ok (split s) = true.
Proof. apply split_from_words. exact I. Qed.

(** *** Checking a property on all of ASCII *)

Lemma ascii_forall (P : char -> bool) :
  forallb P (map N.of_nat (seq 0 128)) = true ->
  forall c, is_ascii c = true -> P c = true.
Proof.
  intros A c H. apply N.ltb_lt in H.
  rewrite forallb_forall in A. apply A.
  apply in_map_iff. exists (N.to_nat c). split; [apply N2Nat.id|].
  apply in_seq. lia.
Qed.

Lemma below_forall (n : nat) (P : char -> bool) :
  forallb P (map N.of_nat (seq 0 n)) = true ->
  forall c, (c < N.of_nat n)%N -> P c = true.
Proof.
  intros A c H. rewrite forallb_forall in A. apply A.
  apply in_map_iff. exists (N.to_nat c). split; [apply N2Nat.id|].
  apply in_seq. lia.
Qed.

(** ** The address book *)

Lemma find_In (book : AddressBook) (n key : str) (record : ContactRecord) :
  find book n = Some (key, record) -> In (key, record) book.
Proof.
  induction book as [|[k r] b IH]; simpl; [discriminate|].
  destruct (str_eqb (lower k) (lower n)).
  - intros H; injection H as -> ->; auto.
  - auto.
Qed.

Lemma find_key (book : AddressBook) (n key : str) (record : ContactRecord) :
  find book n = Some (key, record) -> lower key = lower n.
Proof.
  induction book as [|[k r] b IH]; simpl; [discriminate|].
  destruct (str_eqb (lower k) (lower n)) eqn:E.
  - intros H; injection H as -> ->. apply str_eqb_eq; exact E.
  - auto.
Qed.

Lemma name_exists_find (book : AddressBook) (n : str) :
  name_exists book n = true <-> exists e, find book n = Some e.
Proof.
  unfold name_exists.
  induction book as [|[k r] b IH]; simpl.
  - split; [discriminate | intros [e H]; discriminate].
  - rewrite (str_eqb_sym (lower n) (lower k)).
    destruct (str_eqb (lower k) (lower n)); simpl.
    + split; eauto.
    + exact IH.
Qed.

Lemma name_exists_key (book : AddressBook) (n : str) :
  name_exists book n = false -> ~ In n (map fst book).
Proof.
  unfold name_exists. intros H Hin.
  apply in_map_iff in Hin as ([k r] & <- & Hin).
  assert (existsb (fun kr => str_eqb (lower (fst (k, r))) (lower (fst kr))) book
          = true) as E.
  { apply existsb_exists. exists (k, r). split; [exact Hin|].
    apply str_eqb_refl. }
  congruence.
Qed.

Lemma dict_set_fresh (key : str) (r : ContactRecord) (book : AddressBook) :
  ~ In key (map fst book) -> dict_set key r book = book ++ [(key, r)].
Proof.
  induction book as [|[k r0] b IH]; simpl; intros H; [reflexivity|].
  destruct (str_eqb k key) eqn:E.
  - apply str_eqb_eq in E. tauto.
  - rewrite IH; tauto.
Qed.

Lemma dict_set_keys (key : str) (r r0 : ContactRecord) (book : AddressBook) :
  In (key, r0) book -> map fst (dict_set key r book) = map fst book.
Proof.
  induction book as [|[k r1] b IH]; simpl; [tauto|].
  intros [H|H]; destruct (str_eqb k key) eqn:E; simpl; try reflexivity.
  - injection H as -> ->. rewrite str_eqb_refl in E; discriminate.
  - rewrite IH; auto.
Qed.

Lemma dict_set_In (key : str) (r : ContactRecord) (book : AddressBook)
  (k : str) (x : ContactRecord) :
  NoDup (map fst book) ->
  In (k, x) (dict_set key r book) ->
  (k = key /\ x = r) \/ (k <> key /\ In (k, x) book).
Proof.
  induction book as [|[k1 r1] b IH]; simpl; intros ND.
  - intros [H|[]]; injection H as <- <-; auto.
  - inversion ND as [|? ? Hk1 ND']; subst.
    destruct (str_eqb k1 key) eqn:E.
    + apply str_eqb_eq in E; subst k1. simpl.
      intros [H|H]; [injection H as <- <-; auto|].
      right. split; auto.
      intros ->. apply Hk1. apply in_map_iff. exists (key, x); auto.
    + apply str_eqb_neq in E. simpl.
      intros [H|H]; [injection H as <- <-; auto|].
      destruct (IH ND' H) as [?|[? ?]]; auto.
Qed.

Lemma In_dict_set_other (key : str) (r : ContactRecord) (book : AddressBook)
  (k : str) (x : ContactRecord) :
  k <> key -> In (k, x) book -> In (k, x) (dict_set key r book).
Proof.
  intros Hne. induction book as [|[k1 r1] b IH]; simpl; [tauto|].
  destruct (str_eqb k1 key) eqn:E; simpl.
  - apply str_eqb_eq in E; subst k1.
    intros [H|H]; [injection H as <- <-; tauto | auto].
  - intros [H|H]; auto.
Qed.

Lemma In_dict_set_same (key : str) (r r0 : ContactRecord)
  (book : AddressBook) :
  In (key, r0) book -> In (key, r) (dict_set key r book).
Proof.
  induction book as [|[k1 r1] b IH]; simpl; [tauto|].
  destruct (str_eqb k1 key) eqn:E; simpl.
  - apply str_eqb_eq in E; subst k1. auto.
  - intros [H|H]; [injection H as -> ->|auto].
    rewrite str_eqb_refl in E; discriminate.
Qed.

Lemma NoDup_keys_record (book : AddressBook) (k : str)
  (r1 r2 : ContactRecord) :
  NoDup (map fst book) -> In (k, r1) book -> In (k, r2) book -> r1 = r2.
Proof.
  induction book as [|[k0 r0] b IH]; simpl; [tauto|].
  intros ND. inversion ND as [|? ? Hk ND']; subst.
  intros [H1|H1] [H2|H2].
  - congruence.
  - injection H1 as -> ->. exfalso; apply Hk.
    apply in_map_iff; exists (k, r2); auto.
  - injection H2 as -> ->. exfalso; apply Hk.
    apply in_map_iff; exists (k, r1); auto.
  - auto.
Qed.

(** ** The phone validator *)

Lemma startswith_firstn (s p : str) :
  startswith s p = true <-> firstn (length p) s = p.
Proof.
  revert s; induction p as [|x p IH]; intros s; simpl.
  - destruct s; split; reflexivity.
  - destruct s as [|y s]; simpl.
    + split; congruence.
    + rewrite andb_true_iff, N.eqb_eq, IH. split.
      * intros [-> ->]; reflexivity.
      * intros H; injection H; auto.
Qed.

Lemma startswith_code (s : str) :
  existsb (fun code => startswith s code) VALID_CODES
  = existsb (str_eqb (firstn 3 s)) VALID_CODES.
Proof.
  apply eq_true_iff_eq. rewrite !existsb_exists.
  split; intros (code & Hin & H); exists code; split; auto.
  - apply str_eqb_eq. apply startswith_firstn in H.
    assert (length code = 3%nat) as L
      by (simpl in Hin; repeat destruct Hin as [<- | Hin]; tauto).
    rewrite L in H. exact H.
  - apply str_eqb_eq in H. apply startswith_firstn.
    assert (length code = 3%nat) as L
      by (simpl in Hin; repeat destruct Hin as [<- | Hin]; tauto).
    rewrite L. exact H.
Qed.

Lemma isdigit_len10 (s : str) :
  isdigit s && (len s =? 10)%Z
  = (length s =? 10)%nat && forallb isdigit_char s.
Proof.
  unfold isdigit, len.
  assert ((Z.of_nat (length s) =? 10)%Z = (length s =? 10)%nat) as ->.
  { destruct (Nat.eqb_spec (length s) 10) as [->|H]; [reflexivity|].
    apply Z.eqb_neq; lia. }
  destruct s; simpl; [reflexivity|]. apply andb_comm.
Qed.

Lemma ascii_isdigit (c : char) :
  ascii_digit c = isdigit_char c && is_ascii c.
Proof.
  destruct (is_ascii c) eqn:A.
  - apply Bool.eqb_prop.
    apply (ascii_forall
             (fun c => Bool.eqb (ascii_digit c) (isdigit_char c && true)));
      [vm_compute; reflexivity | exact A].
  - rewrite andb_false_r. apply N.ltb_ge in A.
    unfold ascii_digit, in_range.
    destruct (N.leb_spec c 57); [lia|]. apply andb_false_r.
Qed.

Lemma forallb_eq_ext {A} (f g : A -> bool) (l : list A) :
  (forall x, f x = g x) -> forallb f l = forallb g l.
Proof.
  intros H; induction l as [|x l IH]; simpl; [reflexivity|].
  rewrite H, IH; reflexivity.
Qed.

Lemma forallb_andb {A} (f g : A -> bool) (l : list A) :
  forallb (fun x => f x && g x) l = forallb f l && forallb g l.
Proof.
  induction l as [|x l IH]; simpl; [reflexivity|].
  rewrite IH. destruct (f x), (g x), (forallb f l); reflexivity.
Qed.

(** The table of [str.isdigit] has 788 code points. *)
Lemma DIGIT_RANGES_size :
  fold_right (fun r n => (snd r - fst r + 1 + n)%N) 0%N DIGIT_RANGES = 788%N.
Proof. reflexivity. Qed.

(** C3, as the code has it: [Phone] accepts exactly the strings of ten
    characters that [str.isdigit] takes for digits (the ASCII digits, and
    every other Unicode digit too: [isdigit_char] is the table of
    [str.isdigit] in full) and that begin with one of the twelve codes;
    it stores such a string unchanged and raises [ValueError] on every
    other string.  Among strings of ASCII characters these are the
    strings of ten ASCII digits that begin with a code. *)
Theorem Phone_accepts_exactly (value : str) :
  (if digits10_with_code value then Phone value = Valid value
   else exists msg, Phone value = Invalid msg)
  /\ ascii_phone value = digits10_with_code value && forallb is_ascii value.
Proof.
  split.
  - unfold Phone, digits10_with_code.
    rewrite <- negb_andb, isdigit_len10, startswith_code.
    generalize (existsb (str_eqb (firstn 3 value)) VALID_CODES).
    generalize ((length value =? 10)%nat && forallb isdigit_char value).
    intros [|] [|]; cbn; eauto.
  - unfold ascii_phone, digits10_with_code.
    rewrite (forallb_eq_ext _ _ value ascii_isdigit), forallb_andb.
    generalize (existsb (str_eqb (firstn 3 value)) VALID_CODES).
    generalize (forallb is_ascii value), (forallb isdigit_char value).
    generalize (length value =? 10)%nat.
    intros [|] [|] [|] [|]; reflexivity.
Qed.

(** C3 as stated fails: a string that is not ten ASCII digits is
    accepted when its digits are Unicode digits outside ASCII, here
    [050] followed by seven times U+0660 (ARABIC-INDIC DIGIT ZERO). *)
Lemma Phone_accepts_non_ascii_digits :
  let value := (py "050" ++ repeat 0x660%N 7) in
  ascii_phone value = false /\ Phone value = Valid value.
Proof. split; reflexivity. Qed.

(** ** Phones across the records of a book *)

Lemma has_phone_In (p : str) (r : ContactRecord) :
  has_phone p r = true <-> In p (r_phones r).
Proof.
  unfold has_phone. rewrite existsb_exists. split.
  - intros (q & Hq & E). apply str_eqb_eq in E; subst; exact Hq.
  - intros H; exists p; split; [exact H | apply str_eqb_refl].
Qed.

Lemma phone_owner_Some (self_key : option str) (p : str)
  (book : AddressBook) (record : ContactRecord) :
  phone_owner self_key p book = Some record ->
  exists key, In (key, record) book /\ is_other self_key key = true
              /\ In p (r_phones record).
Proof.
  induction book as [|[k r] b IH]; simpl; [discriminate|].
  destruct (is_other self_key k && has_phone p r) eqn:E.
  - intros H; injection H as ->. apply andb_true_iff in E as [E1 E2].
    exists k. rewrite has_phone_In in E2. auto.
  - intros H. destruct (IH H) as (key & ? & ? & ?). exists key; auto.
Qed.

Lemma phone_owner_None (self_key : option str) (p : str)
  (book : AddressBook) :
  phone_owner self_key p book = None ->
  forall key record, In (key, record) book ->
    is_other self_key key = true -> ~ In p (r_phones record).
Proof.
  induction book as [|[k r] b IH]; simpl; [tauto|].
  destruct (is_other self_key k && has_phone p r) eqn:E; [discriminate|].
  intros H key record [Hin|Hin] Ho.
  - injection Hin as -> ->. rewrite Ho in E. simpl in E.
    rewrite <- has_phone_In. congruence.
  - eauto.
Qed.

Lemma is_other_Some (k key : str) :
  is_other (Some k) key = true <-> key <> k.
Proof.
  simpl. rewrite negb_true_iff. apply str_eqb_neq.
Qed.

(** [Record.add_phone] either leaves the record as it is or appends a
    valid phone that no other record has. *)
Lemma Record_add_phone_cases (self : ContactRecord) (self_key : option str)
  (phone : str) (book : AddressBook) :
  (exists msg, Record_add_phone self self_key phone book = (Some msg, self))
  \/ (Record_add_phone self self_key phone book
      = (None, set_phones self (r_phones self ++ [phone]))
      /\ Phone phone = Valid phone
      /\ ~ In phone (r_phones self)
      /\ phone_owner self_key phone book = None).
Proof.
  unfold Record_add_phone.
  destruct (Phone phone) as [v|msg] eqn:EP; [|eauto].
  assert (v = phone) as ->.
  { unfold Phone in EP.
    repeat match type of EP with
           | (if ?b then _ else _) = _ => destruct b
           end; congruence. }
  destruct (has_phone phone self) eqn:EH; [eauto|].
  destruct (phone_owner self_key phone book) eqn:EO; [eauto|].
  right. repeat split; auto.
  rewrite <- has_phone_In. congruence.
Qed.

Lemma replace_first_In (old new : str) (l l' : list str) :
  replace_first old new l = Some l' ->
  forall q, In q l' -> q = new \/ In q l.
Proof.
  revert l'; induction l as [|p l IH]; simpl; intros l'; [discriminate|].
  destruct (str_eqb p old).
  - intros H; injection H as <-. simpl. intros q [<-|?]; auto.
  - destruct (replace_first old new l) as [l0|]; simpl; [|discriminate].
    intros H; injection H as <-. simpl. intros q [<-|Hq]; auto.
    destruct (IH _ eq_refl q Hq); auto.
Qed.

(** [Record.edit_phone] either leaves the record as it is or puts a
    valid phone that no other record has in the place of one. *)
Lemma Record_edit_phone_cases (self : ContactRecord) (self_key : option str)
  (old_phone new_phone : str) (book : AddressBook) :
  (exists msg,
      Record_edit_phone self self_key old_phone new_phone book
      = (Some msg, self))
  \/ (exists l,
         Record_edit_phone self self_key old_phone new_phone book
         = (None, set_phones self l)
         /\ replace_first old_phone new_phone (r_phones self) = Some l
         /\ Phone new_phone = Valid new_phone
         /\ phone_owner self_key new_phone book = None).
Proof.
  unfold Record_edit_phone.
  destruct (find_phone self old_phone); [|eauto].
  destruct (Phone new_phone) as [v|msg] eqn:EP; [|eauto].
  assert (v = new_phone) as ->.
  { unfold Phone in EP.
    repeat match type of EP with
           | (if ?b then _ else _) = _ => destruct b
           end; congruence. }
  destruct (phone_owner self_key new_phone book) eqn:EO; [eauto|].
  destruct (replace_first old_phone new_phone (r_phones self)) eqn:ER;
    [|eauto].
  right. exists l. auto.
Qed.

(** A stored record may take new phones that are valid and that no other
    record has. *)
Lemma book_ok_update (book : AddressBook) (key : str)
  (record : ContactRecord) (l : list str) :
  book_ok book -> In (key, record) book ->
  (forall q, In q l ->
     In q (r_phones record)
     \/ (Phone q = Valid q /\ phone_owner (Some key) q book = None)) ->
  book_ok (dict_set key (set_phones record l) book).
Proof.
  intros [ND Hn Hv Hx] Hin Hl. split.
  - rewrite (dict_set_keys _ _ _ _ Hin). exact ND.
  - intros k r H. apply (dict_set_In _ _ _ _ _ ND) in H as [[-> ->]|[_ H]].
    + simpl. eauto.
    + eauto.
  - intros k r p H Hp.
    apply (dict_set_In _ _ _ _ _ ND) in H as [[-> ->]|[_ H]].
    + simpl in Hp. destruct (Hl p Hp) as [?|[? _]]; eauto.
    + eauto.
  - intros k1 r1 k2 r2 p H1 H2 Hne Hp1 Hp2.
    apply (dict_set_In _ _ _ _ _ ND) in H1 as [[-> ->]|[Hk1 H1]];
      apply (dict_set_In _ _ _ _ _ ND) in H2 as [[-> ->]|[Hk2 H2]].
    + congruence.
    + simpl in Hp1. destruct (Hl p Hp1) as [?|[_ Ho]].
      * eapply (Hx key record k2 r2 p); eauto.
      * apply (phone_owner_None _ _ _ Ho _ _ H2); auto.
        apply is_other_Some; exact Hk2.
    + simpl in Hp2. destruct (Hl p Hp2) as [?|[_ Ho]].
      * eapply (Hx k1 r1 key record p); eauto.
      * apply (phone_owner_None _ _ _ Ho _ _ H1); auto.
        apply is_other_Some; exact Hk1.
    + eauto.
Qed.

Lemma book_ok_Record_add_phone (book : AddressBook) (key : str)
  (record : ContactRecord) (phone : str) :
  book_ok book -> In (key, record) book ->
  book_ok
    (dict_set key (snd (Record_add_phone record (Some key) phone book)) book).
Proof.
  intros Hok Hin.
  destruct (Record_add_phone_cases record (Some key) phone book)
    as [[msg ->]|(-> & Hv & _ & Ho)]; simpl.
  - replace record with (set_phones record (r_phones record))
      by (destruct record; reflexivity).
    apply book_ok_update; auto.
  - apply book_ok_update; auto.
    intros q Hq. apply in_app_iff in Hq as [?|[<-|[]]]; auto.
Qed.

Lemma book_ok_Record_edit_phone (book : AddressBook) (key : str)
  (record : ContactRecord) (old_phone new_phone : str) :
  book_ok book -> In (key, record) book ->
  book_ok
    (dict_set key
       (snd (Record_edit_phone record (Some key) old_phone new_phone book))
       book).
Proof.
  intros Hok Hin.
  destruct (Record_edit_phone_cases record (Some key) old_phone new_phone book)
    as [[msg ->]|(l & -> & Hr & Hv & Ho)]; simpl.
  - replace record with (set_phones record (r_phones record))
      by (destruct record; reflexivity).
    apply book_ok_update; auto.
  - apply book_ok_update; auto.
    intros q Hq. destruct (replace_first_In _ _ _ _ Hr q Hq) as [->|?]; auto.
Qed.

Lemma dict_set_same (book : AddressBook) (key : str)
  (record : ContactRecord) :
  NoDup (map fst book) -> In (key, record) book ->
  dict_set key record book = book.
Proof.
  induction book as [|[k r] b IH]; simpl; [tauto|].
  intros ND. inversion ND as [|? ? Hk ND']; subst.
  destruct (str_eqb k key) eqn:E.
  - apply str_eqb_eq in E; subst k.
    intros [H|H]; [congruence|].
    exfalso; apply Hk. apply in_map_iff; exists (key, record); auto.
  - intros [H|H].
    + injection H as -> ->. rewrite str_eqb_refl in E; discriminate.
    + rewrite IH; auto.
Qed.

(** The phone loop of [add_contact]: when it ends without a message the
    new record has the phones given, each valid and with no record of
    the book. *)
Lemma add_phones_None (record : ContactRecord) (l : list str)
  (book : AddressBook) (r' : ContactRecord) :
  add_phones record l book = (None, r') ->
  r' = set_phones record (r_phones record ++ l)
  /\ forall q, In q l ->
       Phone q = Valid q /\ phone_owner None q book = None.
Proof.
  revert record; induction l as [|p l IH]; simpl; intros record.
  - intros H; injection H as <-. rewrite app_nil_r.
    destruct record; split; [reflexivity | tauto].
  - destruct (Record_add_phone_cases record None p book)
      as [[msg ->]|(-> & Hv & _ & Ho)]; [discriminate|].
    intros H. apply IH in H as [-> H]. simpl. split.
    + rewrite <- app_assoc. reflexivity.
    + intros q [<-|Hq]; auto.
Qed.

Lemma book_ok_append (book : AddressBook) (record : ContactRecord) :
  book_ok book -> name_exists book (r_name record) = false ->
  (forall q, In q (r_phones record) ->
     Phone q = Valid q /\ phone_owner None q book = None) ->
  book_ok (add_record book record).
Proof.
  intros [ND Hn Hv Hx] He Hl. unfold add_record.
  pose proof (name_exists_key _ _ He) as Hk.
  rewrite (dict_set_fresh _ _ _ Hk). split.
  - rewrite map_app. simpl. apply NoDup_app; auto.
    + constructor; [simpl; tauto | constructor].
    + intros a Ha [<-|[]]; tauto.
  - intros k r H. apply in_app_iff in H as [H|[H|[]]]; eauto.
    injection H as <- <-; reflexivity.
  - intros k r p H Hp. apply in_app_iff in H as [H|[H|[]]]; eauto.
    injection H as <- <-. apply Hl; exact Hp.
  - intros k1 r1 k2 r2 p H1 H2 Hne Hp1 Hp2.
    apply in_app_iff in H1 as [H1|[H1|[]]];
      apply in_app_iff in H2 as [H2|[H2|[]]].
    + eauto.
    + injection H2 as <- <-. destruct (Hl p Hp2) as [_ Ho].
      apply (phone_owner_None _ _ _ Ho _ _ H1); auto.
    + injection H1 as <- <-. destruct (Hl p Hp1) as [_ Ho].
      apply (phone_owner_None _ _ _ Ho _ _ H2); auto.
    + congruence.
Qed.

Lemma Record_add_email_phones (r r' : ContactRecord) (e : str) :
  Record_add_email r e = Valid r' ->
  r_name r' = r_name r /\ r_phones r' = r_phones r.
Proof.
  unfold Record_add_email. destruct (Email e); [|discriminate].
  intros H; injection H as <-. auto.
Qed.

(** What [add_contact] does to the book: nothing, or it stores one new
    record, under a new name, whose phones are valid and with no other
    record. *)
Lemma add_contact_cases (args : list str) (book : AddressBook) :
  snd (add_contact args book) = book
  \/ exists record,
       fst (add_contact args book) = ContactAdded
       /\ snd (add_contact args book) = add_record book record
       /\ name_exists book (r_name record) = false
       /\ forall q, In q (r_phones record) ->
            Phone q = Valid q /\ phone_owner None q book = None.
Proof.
  unfold add_contact, add_contact_body.
  destruct (length args <? 2)%nat; [auto|].
  destruct (drop_while _ args) as [|a0 from0]; [auto|].
  destruct (take_while _ args) as [|n0 parts0]; [auto|].
  set (name := normalize_name _).
  destruct (name_exists book name) eqn:EN; [auto|].
  set (phs := take_while is_phone_token _).
  destruct (add_phones (Record_init name) phs book) as [[msg|] record] eqn:EA;
    [auto|].
  apply add_phones_None in EA as [-> Hl]. simpl in Hl.
  destruct (email_and_address _ None []) as [em parts].
  set (r0 := set_phones (Record_init name) _).
  set (w := match em with Some e => _ | None => _ end).
  destruct w as [record1|msg] eqn:EW; [|auto].
  assert (r_name record1 = name /\ r_phones record1 = phs) as [Hn Hp].
  { subst w. destruct em as [e|].
    - apply Record_add_email_phones in EW. exact EW.
    - injection EW as <-. auto. }
  right.
  match goal with |- context [add_record book ?r] => exists r end.
  assert (forall r a, r_name (Record_add_address r a) = r_name r
                      /\ r_phones (Record_add_address r a) = r_phones r)
    as Ha by (intros; split; reflexivity).
  simpl. repeat split.
  - destruct parts; [|rewrite (proj1 (Ha _ _))]; rewrite Hn; exact EN.
  - destruct parts; [|rewrite (proj2 (Ha _ _)) in H]; rewrite Hp in H;
      apply Hl; exact H.
  - destruct parts; [|rewrite (proj2 (Ha _ _)) in H]; rewrite Hp in H;
      apply Hl; exact H.
Qed.

Theorem book_ok_reachable (book : AddressBook) :
  reachable book -> book_ok book.
Proof.
  induction 1 as [|args book _ IH|args book _ IH|args book _ IH
                  |key record phone book _ IH Hin
                  |key record old_phone new_phone book _ IH Hin].
  - split; simpl; try tauto. constructor.
  - destruct (add_contact_cases args book)
      as [->|(record & _ & -> & He & Hl)]; auto.
    apply book_ok_append; auto.
  - unfold add_phone_to_contact, add_phone_to_contact_body.
    destruct (length args <? 2)%nat; [exact IH|].
    destruct (find book _) as [[key record]|] eqn:EF; [|exact IH].
    pose proof (book_ok_Record_add_phone book key record (last_arg args) IH
                  (find_In _ _ _ _ EF)) as H.
    destruct (Record_add_phone record (Some key) (last_arg args) book)
      as [[msg|] r']; simpl in *; auto.
  - unfold change_contact, change_contact_body.
    destruct (length args <? 3)%nat; [exact IH|].
    destruct (find book _) as [[key record]|] eqn:EF; [|exact IH].
    pose proof (book_ok_Record_edit_phone book key record
                  (last_arg (but_last args)) (last_arg args) IH
                  (find_In _ _ _ _ EF)) as H.
    destruct (Record_edit_phone record (Some key) _ _ book)
      as [[msg|] r']; simpl in *; auto.
  - apply book_ok_Record_add_phone; auto.
  - apply book_ok_Record_edit_phone; auto.
Qed.

Lemma book_ok_exclusive (book : AddressBook) :
  book_ok book -> phones_exclusive book.
Proof.
  intros [ND _ _ Hx] i j [k1 r1] [k2 r2] p Hij H1 H2 Hp1 Hp2. simpl in *.
  assert (k1 <> k2) as Hne.
  { intros ->. apply Hij.
    apply (proj1 (NoDup_nth_error (map fst book)) ND).
    - rewrite length_map. apply nth_error_Some. congruence.
    - rewrite !nth_error_map, H1, H2. reflexivity. }
  apply (Hx k1 r1 k2 r2 p); auto.
  - apply (nth_error_In _ _ H1).
  - apply (nth_error_In _ _ H2).
Qed.

Lemma take_while_app (f : str -> bool) (l l2 : list str) :
  forallb f l = true ->
  match l2 with [] => True | x :: _ => f x = false end ->
  take_while f (l ++ l2) = l /\ drop_while f (l ++ l2) = l2.
Proof.
  intros Hl H2. induction l as [|x l IH]; simpl in *.
  - destruct l2 as [|y l2]; simpl; [auto|]. rewrite H2. auto.
  - apply andb_true_iff in Hl as [-> Hl]. destruct (IH Hl) as [-> ->]. auto.
Qed.

Lemma take_while_prefix (f : str -> bool) (l l2 : list str) :
  forallb f l = true -> take_while f (l ++ l2) = l ++ take_while f l2.
Proof.
  intros Hl. induction l as [|x l IH]; simpl in *; [reflexivity|].
  apply andb_true_iff in Hl as [-> Hl]. rewrite IH; auto.
Qed.

Lemma add_phones_app (record : ContactRecord) (l1 l2 : list str)
  (book : AddressBook) :
  add_phones record (l1 ++ l2) book =
  match add_phones record l1 book with
  | (Some msg, r) => (Some msg, r)
  | (None, r) => add_phones r l2 book
  end.
Proof.
  revert record; induction l1 as [|p l1 IH]; simpl; intros record;
    [reflexivity|].
  destruct (Record_add_phone record None p book) as [[msg|] r]; auto.
Qed.

Lemma Phone_Valid_token (p v : str) :
  Phone p = Valid v -> is_phone_token p = true.
Proof.
  unfold Phone, is_phone_token.
  destruct (isdigit p), (len p =? 10)%Z; simpl; try discriminate; auto.
Qed.

(** C1.  In every book that [add_contact], [add_phone] and [edit_phone]
    build from the empty book, no phone is in the lists of two distinct
    records.  In particular [add_contact] with a phone that a record of
    the book has answers that the phone belongs to that record, and
    leaves the book as it was; the phones given before that one are
    those the new record accepted. *)
Theorem phones_unique_across_records :
  (forall book, reachable book -> phones_exclusive book)
  /\ (forall book name_parts accepted phone rest owner_key owner,
        reachable book ->
        name_parts <> [] ->
        forallb (fun a => negb (is_phone_token a)) name_parts = true ->
        name_exists book (normalize_name (unwords name_parts)) = false ->
        forallb is_phone_token accepted = true ->
        fst (add_phones (Record_init (normalize_name (unwords name_parts)))
                        accepted book) = None ->
        In (owner_key, owner) book -> In phone (r_phones owner) ->
        add_contact (name_parts ++ accepted ++ phone :: rest) book
        = (PhoneBelongs phone (r_name owner), book)).
Proof.
  split.
  - intros book H. apply book_ok_exclusive, book_ok_reachable, H.
  - intros book name_parts accepted phone rest owner_key owner
      Hr Hne Hnp Hex Hacc Hadd Hin Hp.
    pose proof (book_ok_reachable book Hr) as [ND Hn Hv Hx].
    pose proof (Hv _ _ _ Hin Hp) as HP.
    pose proof (Phone_Valid_token _ _ HP) as Htok.
    unfold add_contact, add_contact_body.
    assert ((length (name_parts ++ accepted ++ phone :: rest) <? 2)%nat
            = false) as ->.
    { apply Nat.ltb_ge. rewrite !length_app. simpl.
      destruct name_parts; [congruence|simpl; lia]. }
    destruct (take_while_app (fun a => negb (is_phone_token a)) name_parts
                (accepted ++ phone :: rest) Hnp) as [-> ->].
    { destruct accepted as [|a acc]; simpl.
      - rewrite Htok; reflexivity.
      - simpl in Hacc. apply andb_true_iff in Hacc as [-> _]. reflexivity. }
    destruct (accepted ++ phone :: rest) eqn:E0;
      [destruct accepted; discriminate|]. rewrite <- E0. clear E0.
    destruct name_parts as [|n0 np]; [congruence|].
    rewrite Hex.
    rewrite (take_while_prefix is_phone_token accepted (phone :: rest) Hacc).
    simpl take_while. rewrite Htok.
    rewrite add_phones_app.
    destruct (add_phones _ accepted book) as [[msg|] r0] eqn:EA;
      [discriminate|].
    apply add_phones_None in EA as [-> Hl].
    simpl add_phones. unfold Record_add_phone. rewrite HP.
    assert (exists record, phone_owner None phone book = Some record) as [x Ex].
    { destruct (phone_owner None phone book) eqn:EO; [eauto|].
      exfalso. apply (phone_owner_None _ _ _ EO _ _ Hin); auto. }
    match goal with |- context [has_phone phone ?r] =>
      assert (has_phone phone r = false) as -> end.
    { match goal with |- ?b = false => destruct b eqn:EH end; [|reflexivity].
      apply has_phone_In in EH. simpl in EH.
      destruct (Hl _ EH) as [_ Ho]. congruence. }
    rewrite Ex.
    apply phone_owner_Some in Ex as (k & Hk & _ & Hpx).
    assert (k = owner_key) as ->.
    { destruct (list_eq_dec N.eq_dec k owner_key) as [|Hd]; [auto|].
      exfalso. apply (Hx k x owner_key owner phone); auto. }
    rewrite (NoDup_keys_record book owner_key x owner ND Hk Hin).
    reflexivity.
Qed.

Lemma phones_unique_across_records_witness :
  phones_exclusive book_ivan
  /\ add_contact [py "Ivan"; py "0987654321"] book_ivan
     = (PhoneBelongs (py "0987654321") (py "Ivan Petrov"), book_ivan).
Proof.
  assert (reachable book_ivan) as Hr
    by (apply reach_add_contact, reach_empty).
  split.
  - apply (proj1 phones_unique_across_records book_ivan Hr).
  - apply (proj2 phones_unique_across_records book_ivan
             [py "Ivan"] [] (py "0987654321") [] (py "Ivan Petrov")
             (set_phones (Record_init (py "Ivan Petrov")) [py "0987654321"])
             Hr).
    + discriminate.
    + reflexivity.
    + reflexivity.
    + reflexivity.
    + reflexivity.
    + left; reflexivity.
    + left; reflexivity.
Defined.

(** ** Phones and notes within one record *)

(** [Record.add_phone] keeps the phones of a record distinct. *)
Lemma Record_add_phone_NoDup (self : ContactRecord) (self_key : option str)
  (phone : str) (book : AddressBook) :
  NoDup (r_phones self) ->
  NoDup (r_phones (snd (Record_add_phone self self_key phone book))).
Proof.
  intros ND.
  destruct (Record_add_phone_cases self self_key phone book)
    as [[msg ->]|(-> & _ & Hn & _)]; simpl; [exact ND|].
  apply NoDup_app; auto.
  - constructor; [simpl; tauto | constructor].
  - intros a Ha [<-|[]]; tauto.
Qed.

(** [Record.add_note] keeps the texts of the notes of a record distinct,
    even up to case. *)
Lemma Record_add_note_NoDup (self : ContactRecord) (text : str)
  (tags : list str) (res : option Note) (self' : ContactRecord) :
  NoDup (map note_key (r_notes self)) ->
  Record_add_note self text tags = Valid (res, self') ->
  NoDup (map note_key (r_notes self')).
Proof.
  unfold Record_add_note. intros ND.
  destruct (Note_init text tags) as [n|msg]; [|discriminate].
  destruct (existsb _ (r_notes self)) eqn:E.
  - intros H; injection H as _ <-; exact ND.
  - intros H; injection H as _ <-. simpl. rewrite map_app. simpl.
    apply NoDup_app; auto.
    + constructor; [simpl; tauto | constructor].
    + intros a Ha [<-|[]].
      apply in_map_iff in Ha as (m & Hm & Hin).
      assert (existsb (fun existing_note =>
                str_eqb (note_key existing_note) (note_key n))
                (r_notes self) = true); [|congruence].
      apply existsb_exists. exists m. split; auto.
      apply str_eqb_eq; exact Hm.
Qed.

(** C2 at its failing inputs: [changephone Ivan 0501234567 0671234567]
    on a contact with these two phones is accepted and leaves the second
    phone twice; [Record.edit_note("Call", "Lunch")] on a record with the
    notes [Call] and [Lunch] is accepted and leaves two equal notes. *)
Theorem edit_leaves_equal_entries :
  (let (reply, book') :=
     change_contact [py "Ivan"; py "0501234567"; py "0671234567"]
                    book_two_phones in
   book_two_phones
   = [(py "Ivan",
       set_phones (Record_init (py "Ivan"))
                  [py "0501234567"; py "0671234567"])]
   /\ reply = PhoneUpdated
   /\ book'
      = [(py "Ivan",
          set_phones (Record_init (py "Ivan"))
                     [py "0671234567"; py "0671234567"])])
  /\ (exists n1 n2,
        Record_edit_note record_two_notes (py "Call") (py "Lunch")
        = Valid (NoteEdited, set_notes record_two_notes [n1; n2])
        /\ Note_eq n1 n2 = true).
Proof.
  split.
  - vm_compute. auto.
  - exists (mkNote (py "Lunch") []), (mkNote (py "Lunch") []).
    split; reflexivity.
Qed.

(** ** Removing a note *)

Lemma find_split {A} (f : A -> bool) (l : list A) (x : A) :
  List.find f l = Some x ->
  exists l1 l2, l = l1 ++ x :: l2 /\ f x = true
                /\ forallb (fun y => negb (f y)) l1 = true.
Proof.
  induction l as [|y l IH]; simpl; [discriminate|].
  destruct (f y) eqn:E.
  - intros H; injection H as ->. exists [], l. auto.
  - intros H. destruct (IH H) as (l1 & l2 & -> & Hx & Hl).
    exists (y :: l1), l2. simpl. rewrite E. auto.
Qed.

Lemma Note_eq_key (a b : Note) : Note_eq a b = true -> note_key a = note_key b.
Proof.
  unfold Note_eq, note_key. intros H.
  apply andb_true_iff in H as [H _]. apply str_eqb_eq in H. congruence.
Qed.

Lemma set_eqb_refl (s : list str) : set_eqb s s = true.
Proof.
  unfold set_eqb.
  assert (forallb (fun x => set_mem x s) s = true) as ->; [|reflexivity].
  apply forallb_forall. intros x Hx. apply existsb_exists.
  exists x; split; [exact Hx | apply str_eqb_refl].
Qed.

Lemma Note_eq_refl (a : Note) : Note_eq a a = true.
Proof. unfold Note_eq. rewrite str_eqb_refl, set_eqb_refl. reflexivity. Qed.

(** [list.remove] of the first note that matches a text takes that very
    note out: no earlier note is equal to it. *)
Lemma list_remove_first_match (key : str) (l1 l2 : list Note) (x : Note) :
  forallb (fun y => negb (str_eqb (note_key y) key)) l1 = true ->
  str_eqb (note_key x) key = true ->
  list_remove x (l1 ++ x :: l2) = l1 ++ l2.
Proof.
  intros Hl Hx. induction l1 as [|y l1 IH]; simpl in *.
  - rewrite Note_eq_refl. reflexivity.
  - apply andb_true_iff in Hl as [Hy Hl].
    destruct (Note_eq y x) eqn:E.
    + apply Note_eq_key in E. rewrite E, Hx in Hy. discriminate.
    + rewrite IH; auto.
Qed.

(** The method [Record.remove_note] does what the claim says: the tags
    are taken out of the text, notes are matched by trimmed text up to
    case, the first note that matches is the one removed, and without a
    match the record is left alone and [Note not found.] is answered. *)
Lemma Record_remove_note_spec (self : ContactRecord) (text : str) :
  let wanted := lower (strip (re_sub_tags text)) in
  (forallb (fun n => negb (str_eqb (note_key n) wanted)) (r_notes self) = true
   /\ Record_remove_note self text = (NoteNotFound, self))
  \/ (exists l1 n l2,
        r_notes self = l1 ++ n :: l2
        /\ forallb (fun m => negb (str_eqb (note_key m) wanted)) l1 = true
        /\ note_key n = wanted
        /\ Record_remove_note self text
           = (NoteRemoved, set_notes self (l1 ++ l2))).
Proof.
  intros wanted. unfold Record_remove_note. fold wanted.
  destruct (List.find _ (r_notes self)) as [n|] eqn:E.
  - right. apply find_split in E as (l1 & l2 & E & Hn & Hl).
    exists l1, n, l2. rewrite E at 2.
    rewrite (list_remove_first_match wanted l1 l2 n Hl Hn).
    repeat split; auto. apply str_eqb_eq; exact Hn.
  - left. split; [|reflexivity].
    apply forallb_forall. intros n Hn.
    rewrite (find_none _ _ E n Hn). reflexivity.
Qed.

(** C4 at its failing input: [removenote Ivan Lunch] on a contact whose
    only note is [Meeting].  The method answers [Note not found.] and
    keeps the note; the command answers [Note removed!]. *)
Theorem remove_note_reports_removed_when_not_found :
  exists record,
    book_meeting = [(py "Ivan", record)]
    /\ r_notes record = [mkNote (py "Meeting") []]
    /\ Record_remove_note record (py "Lunch") = (NoteNotFound, record)
    /\ remove_note [py "Ivan"; py "Lunch"] book_meeting
       = (NoteRemoved, book_meeting).
Proof.
  eexists. split; [reflexivity|]. repeat split; reflexivity.
Qed.

(** ** Name normalization *)

Lemma join_cons_app (sep x y : str) (l : list str) :
  join sep ((x ++ y) :: l) = x ++ join sep (y :: l).
Proof.
  destruct l; simpl; [reflexivity|]. rewrite <- app_assoc. reflexivity.
Qed.

Lemma split_on_cons (sep : char) (s : str) :
  exists hd tl, split_on sep s = hd :: tl.
Proof.
  induction s as [|c r (hd & tl & E)]; simpl; [eauto|].
  destruct (c =? sep)%N; [eauto|]. rewrite E. eauto.
Qed.

(** [fix_part] is the character-wise [cap_from], on every string. *)
Lemma fix_part_cap_from (start : bool) (w : str) :
  match split_on ch_hyphen w with
  | hd :: tl =>
      join [ch_hyphen]
        ((if start then capitalize hd else lower hd) :: map capitalize tl)
  | [] => []
  end = cap_from start w.
Proof.
  revert start; induction w as [|c r IH]; intros start.
  - destruct start; reflexivity.
  - cbn [split_on cap_from]. destruct (c =? ch_hyphen)%N eqn:E.
    + apply N.eqb_eq in E; subst c. specialize (IH true).
      destruct (split_on_cons ch_hyphen r) as (hd & tl & S).
      rewrite S in IH |- *. simpl map.
      assert ((if start then capitalize [] else lower []) = []) as ->
        by (destruct start; reflexivity).
      rewrite join_cons2. simpl. f_equal. exact IH.
    + specialize (IH false).
      destruct (split_on_cons ch_hyphen r) as (hd & tl & S).
      rewrite S in IH |- *.
      assert ((if start then capitalize (c :: hd) else lower (c :: hd))
              = (if start then title_char c else lower_char c) ++ lower hd)
        as -> by (destruct start; reflexivity).
      rewrite join_cons_app. f_equal. exact IH.
Qed.

Lemma fix_part_eq (w : str) : fix_part w = cap_from true w.
Proof.
  unfold fix_part. rewrite <- (fix_part_cap_from true w).
  destruct (split_on_cons ch_hyphen w) as (hd & tl & S). rewrite S.
  reflexivity.
Qed.

Lemma split_from_ascii (cur : option str) (s : str) :
  match cur with Some u => forallb is_ascii u = true | None => True end ->
  forallb is_ascii s = true ->
  forallb (fun w => forallb is_ascii w) (split_from cur s) = true.
Proof.
  revert cur; induction s as [|c s IH]; simpl; intros cur Hc H.
  - destruct cur; simpl; [rewrite Hc|]; reflexivity.
  - apply andb_true_iff in H as [Ha H].
    destruct (isspace_char c).
    + destruct cur; simpl; [rewrite Hc; simpl|]; apply IH; auto.
    + destruct cur as [u|]; apply IH; auto.
      * rewrite forallb_app, Hc. simpl. rewrite Ha. reflexivity.
      * simpl. rewrite Ha. reflexivity.
Qed.

(** *** The case mappings, character by character *)

Lemma case_ok_all (c : char) : case_ok c = true.
Proof.
  destruct (N.ltb_spec c 0x500) as [H|H].
  - apply (below_forall 1280 case_ok); [vm_compute; reflexivity | exact H].
  - assert (lower_char c = [c]) as Hl.
    { unfold lower_char, ascii_upper, latin1_upper, cyr_upper, cyr_upper_ext,
        in_range.
      repeat match goal with
             | |- context [(?a <=? ?b)%N] => destruct (N.leb_spec a b); try lia
             | |- context [(?a =? ?b)%N] => destruct (N.eqb_spec a b); try lia
             end; reflexivity. }
    assert (title_char c = [c]) as Ht.
    { unfold title_char, ascii_lower, latin1_lower, cyr_lower, cyr_lower_ext,
        in_range.
      repeat match goal with
             | |- context [(?a <=? ?b)%N] => destruct (N.leb_spec a b); try lia
             | |- context [(?a =? ?b)%N] => destruct (N.eqb_spec a b); try lia
             end; reflexivity. }
    assert ((c =? ch_hyphen)%N = false) as He
      by (apply N.eqb_neq; unfold ch_hyphen; lia).
    assert ((c =? ch_n_apostrophe)%N = false) as Hn
      by (apply N.eqb_neq; unfold ch_n_apostrophe; lia).
    unfold case_ok. rewrite Ht, Hl. unfold contains, spacefree.
    cbn [nonempty existsb forallb cap_from]. rewrite He, Hn, Ht, Hl.
    cbn [app]. rewrite str_eqb_refl.
    destruct (isspace_char c); reflexivity.
Qed.

Lemma case_facts (c : char) :
  (c =? ch_hyphen)%N = false ->
  title_char c <> [] /\ lower_char c <> []
  /\ contains ch_hyphen (title_char c) = false
  /\ contains ch_hyphen (lower_char c) = false
  /\ cap_from false (lower_char c) = lower_char c
  /\ ((c =? ch_n_apostrophe)%N = false ->
      cap_from true (title_char c) = title_char c)
  /\ (isspace_char c = false ->
      spacefree (title_char c) = true /\ spacefree (lower_char c) = true).
Proof.
  intros He. pose proof (case_ok_all c) as F. unfold case_ok in F.
  cbv zeta in F. rewrite He in F.
  apply andb_true_iff in F as [F F6]. apply andb_true_iff in F as [F F5].
  apply andb_true_iff in F as [F F4]. apply andb_true_iff in F as [F F3].
  apply andb_true_iff in F as [F1 F2].
  cbn [orb] in F3. apply andb_true_iff in F3 as [F3 F3'].
  apply negb_true_iff in F3. apply negb_true_iff in F3'.
  apply str_eqb_eq in F4.
  split; [intros E; rewrite E in F1; discriminate|].
  split; [intros E; rewrite E in F2; discriminate|].
  split; [exact F3|]. split; [exact F3'|]. split; [exact F4|]. split.
  - intros Hn. rewrite Hn in F5. apply str_eqb_eq in F5. exact F5.
  - intros Hs. rewrite Hs in F6. apply andb_true_iff in F6. exact F6.
Qed.

Lemma cap_from_false_app (x y : str) :
  contains ch_hyphen x = false ->
  cap_from false (x ++ y) = cap_from false x ++ cap_from false y.
Proof.
  unfold contains. induction x as [|c x IH]; simpl; [reflexivity|].
  intros H. apply orb_false_iff in H as [-> H].
  rewrite IH by exact H. apply app_assoc.
Qed.

Lemma cap_from_app (start : bool) (x y : str) :
  x <> [] -> contains ch_hyphen x = false ->
  cap_from start (x ++ y) = cap_from start x ++ cap_from false y.
Proof.
  destruct x as [|c x]; [congruence|]. intros _. unfold contains. simpl.
  intros H. apply orb_false_iff in H as [-> H].
  rewrite (cap_from_false_app x y H). apply app_assoc.
Qed.

(** Capitalizing a second time changes nothing, unless a part starts
    with U+0149. *)
Lemma cap_from_twice (start : bool) (w : str) :
  cap_from start (cap_from start w) = cap_from start w
  <-> part_start_from start w = false.
Proof.
  revert start; induction w as [|c w IH]; intros start.
  - simpl. tauto.
  - cbn [cap_from part_start_from].
    destruct (c =? ch_hyphen)%N eqn:He.
    + cbn [cap_from]. rewrite He. rewrite <- (IH true). split.
      * intros H; injection H as H; exact H.
      * intros H; f_equal; exact H.
    + destruct (case_facts c He) as (Tn & Ln & Th & Lh & Ll & Tt & _).
      set (x := if start then title_char c else lower_char c).
      assert (x <> [] /\ contains ch_hyphen x = false) as [Xn Xh]
        by (subst x; destruct start; auto).
      rewrite (cap_from_app start x _ Xn Xh).
      destruct (start && (c =? ch_n_apostrophe)%N) eqn:Eb.
      * apply andb_true_iff in Eb as [-> Ec]. apply N.eqb_eq in Ec.
        subst c x. simpl. split; intros H; discriminate.
      * assert (cap_from start x = x) as ->.
        { subst x. destruct start; [|exact Ll]. apply Tt. exact Eb. }
        simpl. rewrite <- (IH false). split.
        -- apply app_inv_head.
        -- intros ->. reflexivity.
Qed.

Lemma part_start_split_on (start : bool) (w : str) :
  part_start_from start w
  = match split_on ch_hyphen w with
    | hd :: tl =>
        (start && starts_with_n_apostrophe hd)
        || existsb starts_with_n_apostrophe tl
    | [] => false
    end.
Proof.
  revert start; induction w as [|c w IH]; intros start.
  - simpl. destruct start; reflexivity.
  - cbn [part_start_from split_on].
    destruct (split_on_cons ch_hyphen w) as (hd & tl & S).
    destruct (c =? ch_hyphen)%N.
    + rewrite (IH true), S. simpl. rewrite andb_false_r. reflexivity.
    + rewrite (IH false), S. reflexivity.
Qed.

Lemma fix_part_twice (w : str) :
  fix_part (fix_part w) = fix_part w
  <-> existsb starts_with_n_apostrophe (split_on ch_hyphen w) = false.
Proof.
  rewrite !fix_part_eq, cap_from_twice, part_start_split_on.
  destruct (split_on_cons ch_hyphen w) as (hd & tl & ->). simpl. tauto.
Qed.

(** What [fix_part] makes of a word is a word. *)
Lemma cap_from_word (start : bool) (w : str) :
  (spacefree w = true -> spacefree (cap_from start w) = true)
  /\ nonempty (cap_from start w) = nonempty w.
Proof.
  revert start; induction w as [|c w IH]; intros start; [auto|].
  cbn [cap_from]. destruct (c =? ch_hyphen)%N eqn:He.
  - destruct (IH true) as [I1 _]. split; [|reflexivity].
    unfold spacefree in *. simpl. intros H.
    apply andb_true_iff in H as [-> H]. simpl. auto.
  - destruct (IH false) as [I1 _].
    destruct (case_facts c He) as (Tn & Ln & _ & _ & _ & _ & Hs).
    set (x := if start then title_char c else lower_char c).
    assert (x <> []) as Xn by (subst x; destruct start; auto).
    split.
    + unfold spacefree in *. simpl. intros H.
      apply andb_true_iff in H as [Hc H]. apply negb_true_iff in Hc.
      destruct (Hs Hc) as [S1 S2].
      rewrite forallb_app, (I1 H), andb_true_r.
      subst x. destruct start; assumption.
    + destruct x; [congruence | reflexivity].
Qed.

Lemma fix_part_words (l : list str) :
  forallb word_ok l = true -> forallb word_ok (map fix_part l) = true.
Proof.
  induction l as [|w l IH]; simpl; [reflexivity|].
  intros H. apply andb_true_iff in H as [Hw H].
  rewrite (IH H), andb_true_r, fix_part_eq.
  destruct (cap_from_word true w) as [E1 E2].
  unfold word_ok in *. apply andb_true_iff in Hw as [Hn Hs].
  rewrite E2, Hn, (E1 Hs). reflexivity.
Qed.

Lemma join_words_inj (l1 l2 : list str) :
  forallb word_ok l1 = true -> forallb word_ok l2 = true ->
  join [ch_space] l1 = join [ch_space] l2 -> l1 = l2.
Proof.
  intros H1 H2 E.
  rewrite <- (split_join l1 H1), <- (split_join l2 H2), E. reflexivity.
Qed.

Lemma fix_parts_twice (l : list str) :
  map fix_part (map fix_part l) = map fix_part l
  <-> existsb (fun word =>
                 existsb starts_with_n_apostrophe (split_on ch_hyphen word))
              l = false.
Proof.
  induction l as [|w l IH]; simpl; [tauto|].
  rewrite orb_false_iff, <- IH, <- fix_part_twice. split.
  - intros H; injection H; auto.
  - intros [-> ->]. reflexivity.
Qed.

(** C8, as the code has it.  Normalizing a normalized name changes
    nothing, whatever the characters of the name, with one exception:
    when some part, between hyphens, of some word of the name starts with
    U+0149, the second normalization gives another name, because
    [str.capitalize] writes U+0149 as U+02BC followed by [N] and lowers
    that [N] the next time. *)
Theorem normalize_name_idempotent_exactly (s : str) :
  normalize_name (normalize_name s) = normalize_name s
  <-> has_n_apostrophe_part s = false.
Proof.
  unfold normalize_name, has_n_apostrophe_part.
  set (W := split (strip s)).
  assert (forallb word_ok W = true) as HW by apply split_words.
  pose proof (fix_part_words W HW) as HW'.
  pose proof (fix_part_words _ HW') as HW''.
  rewrite split_strip, split_join by exact HW'.
  rewrite <- fix_parts_twice. split.
  - apply join_words_inj; assumption.
  - intros ->. reflexivity.
Qed.

Lemma normalize_name_idempotent_exactly_witness :
  normalize_name (normalize_name [0x44F; 0x43D; 0x2D; 0xDF; 0x130; 0x149]%N)
  = normalize_name [0x44F; 0x43D; 0x2D; 0xDF; 0x130; 0x149]%N.
Proof.
  apply (proj2 (normalize_name_idempotent_exactly
                  [0x44F; 0x43D; 0x2D; 0xDF; 0x130; 0x149]%N)).
  reflexivity.
Defined.

(** C8 as stated fails: U+0149 is put in title case as U+02BC followed
    by [N], and a second normalization lowers that [N]. *)
Lemma normalize_name_not_idempotent :
  normalize_name [0x149%N] = [0x2BC; 0x4E]%N
  /\ normalize_name (normalize_name [0x149%N]) = [0x2BC; 0x6E]%N
  /\ normalize_name (normalize_name [0x149%N]) <> normalize_name [0x149%N].
Proof.
  repeat split; try reflexivity. vm_compute. discriminate.
Qed.

(** ** Adding a note *)

Lemma Note_add_tags_text (self n : Note) (l : list str) :
  Note_add_tags self l = Valid n -> n_text n = n_text self.
Proof.
  revert self; induction l as [|tag l IH]; simpl; intros self.
  - intros H; injection H as <-; reflexivity.
  - unfold Note_add_tag. destruct (TAG_PATTERN_fullmatch _); [|discriminate].
    intros H. apply IH in H. exact H.
Qed.

Lemma Note_add_tags_cases (self : Note) (l : list str) :
  if forallb valid_tag l
  then exists n, Note_add_tags self l = Valid n
  else exists tag, In tag l /\ Note_add_tags self l = Invalid (InvalidTag tag).
Proof.
  revert self; induction l as [|tag l IH]; simpl; intros self; [eauto|].
  unfold Note_add_tag. fold (valid_tag tag).
  destruct (valid_tag tag); simpl.
  - specialize (IH {| n_text := n_text self;
                      n_tags := set_add (lower (lstrip_hash tag))
                                        (n_tags self) |}).
    destruct (forallb valid_tag l); [exact IH|].
    destruct IH as (t & ? & ?). eauto.
  - eauto.
Qed.

(** [Record.add_note] with a text that a note of the record has
    already, up to case and surrounding white space. *)
Lemma Record_add_note_duplicate (self : ContactRecord) (text : str)
  (tags : list str) :
  existsb (fun n => str_eqb (lower (strip (n_text n))) (lower (strip text)))
          (r_notes self) = true ->
  if forallb valid_tag tags
  then Record_add_note self text tags = Valid (None, self)
  else exists tag,
         In tag tags
         /\ Record_add_note self text tags = Invalid (InvalidTag tag).
Proof.
  intros Hdup. unfold Record_add_note, Note_init.
  pose proof (Note_add_tags_cases {| n_text := strip text; n_tags := [] |} tags)
    as H.
  destruct (forallb valid_tag tags).
  - destruct H as [n H]. rewrite H.
    apply Note_add_tags_text in H. simpl in H.
    unfold note_key at 2. rewrite H, strip_idem.
    unfold note_key. rewrite Hdup. reflexivity.
  - destruct H as (tag & Hin & ->). eauto.
Qed.

(** C7, as the code has it.  Adding a note whose trimmed text is equal,
    up to case, to the trimmed text of a note of the record changes
    nothing, whatever the tags: the record, and with it the number of
    notes and the tags of the existing note, stay as they were.  The
    duplicate is reported as such when every tag given is valid; when
    one is not, the operation fails with the error of that tag. *)
Theorem add_note_duplicate_text :
  (forall self text tags,
      existsb (fun n =>
                 str_eqb (lower (strip (n_text n))) (lower (strip text)))
              (r_notes self) = true ->
      if forallb valid_tag tags
      then Record_add_note self text tags = Valid (None, self)
      else exists tag,
             In tag tags
             /\ Record_add_note self text tags = Invalid (InvalidTag tag))
  /\ (forall args book i name key record,
        (2 <= length args)%nat ->
        resolve addnote book args = Some (i, name) ->
        find book name = Some (key, record) ->
        let note_text := unwords (skipn i args) in
        existsb (fun n =>
                   str_eqb (lower (strip (n_text n)))
                           (lower (strip (re_sub_tags note_text))))
                (r_notes record) = true ->
        if forallb valid_tag (extract_tags_from_text note_text)
        then add_note args book = (NoteExists, book)
        else exists tag,
               In tag (extract_tags_from_text note_text)
               /\ add_note args book = (InvalidTag tag, book)).
Proof.
  split; [exact Record_add_note_duplicate|].
  intros args book i name key record Hlen Hres Hfind note_text Hdup.
  unfold add_note, add_note_body.
  assert ((length args <? 2)%nat = false) as -> by (apply Nat.ltb_ge; exact Hlen).
  rewrite Hres, Hfind. fold note_text.
  rewrite <- (strip_idem (re_sub_tags note_text)) in Hdup.
  pose proof (Record_add_note_duplicate record (strip (re_sub_tags note_text))
                (extract_tags_from_text note_text) Hdup) as H.
  destruct (forallb valid_tag (extract_tags_from_text note_text)).
  - rewrite H. reflexivity.
  - destruct H as (tag & Hin & ->). exists tag. auto.
Qed.

Lemma add_note_duplicate_text_witness :
  add_note [py "ivan"; py " MEETING"; py "#urgent"] book_meeting
  = (NoteExists, book_meeting).
Proof.
  apply (proj2 add_note_duplicate_text
           [py "ivan"; py " MEETING"; py "#urgent"] book_meeting
           1%nat (py "Ivan") (py "Ivan")
           (set_notes (set_phones (Record_init (py "Ivan")) [py "0501234567"])
                      [mkNote (py "Meeting") []])).
  - simpl; lia.
  - reflexivity.
  - reflexivity.
  - reflexivity.
Defined.

(** C7 as stated fails: with a tag of 31 letters the duplicate is not
    reported as a duplicate, the answer is the error of the tag. *)
Lemma add_note_duplicate_with_invalid_tag :
  exists record,
    book_meeting = [(py "Ivan", record)]
    /\ r_notes record = [mkNote (py "Meeting") []]
    /\ Record_add_note record (py "meeting") [tag31]
       = Invalid (InvalidTag tag31)
    /\ add_note [py "Ivan"; py "meeting"; ch_hash :: tag31] book_meeting
       = (InvalidTag tag31, book_meeting)
    /\ fst (add_note [py "Ivan"; py "meeting"; ch_hash :: tag31] book_meeting)
       <> NoteExists.
Proof.
  eexists. split; [reflexivity|]. repeat split; try reflexivity.
  vm_compute. discriminate.
Qed.

(** ** Name resolution *)

Lemma scan_name_Some (book : AddressBook) (args : list str) (i n j : nat)
  (nm : str) :
  scan_name book args i n = Some (j, nm) <->
  (i <= j < i + n)%nat
  /\ names_contact book args j = true
  /\ (forall k, (i <= k < j)%nat -> names_contact book args k = false)
  /\ nm = normalize_name (unwords (firstn j args)).
Proof.
  revert i; induction n as [|n IH]; intros i; simpl.
  - split; [discriminate | intros [? _]; lia].
  - fold (names_contact book args i).
    destruct (names_contact book args i) eqn:E.
    + split.
      * intros H; injection H as <- <-. repeat split; auto; lia.
      * intros (Hj & Hn & Hk & ->).
        destruct (Nat.eq_dec i j) as [->|Hne]; [reflexivity|].
        rewrite (Hk i) in E by lia. discriminate.
    + rewrite IH. split.
      * intros (Hj & Hn & Hk & ->). repeat split; auto; try lia.
        intros k Hk'. destruct (Nat.eq_dec k i) as [->|]; [exact E|].
        apply Hk; lia.
      * intros (Hj & Hn & Hk & ->).
        assert (i <> j) by (intros ->; congruence).
        repeat split; auto; try lia. intros k Hk'. apply Hk; lia.
Qed.

Lemma scan_name_None (book : AddressBook) (args : list str) (i n : nat) :
  scan_name book args i n = None <->
  (forall k, (i <= k < i + n)%nat -> names_contact book args k = false).
Proof.
  revert i; induction n as [|n IH]; intros i; simpl.
  - split; [intros _ k; lia | reflexivity].
  - fold (names_contact book args i).
    destruct (names_contact book args i) eqn:E.
    + split; [discriminate|]. intros H. rewrite (H i) in E by lia.
      discriminate.
    + rewrite IH. split.
      * intros H k Hk. destruct (Nat.eq_dec k i) as [->|]; [exact E|].
        apply H; lia.
      * intros H k Hk. apply H; lia.
Qed.

(** What [resolve] answers, for a command that scans up to [stop]. *)
Lemma resolve_Some (c : Command) (book : AddressBook) (args : list str)
  (stop i : nat) (nm : str) :
  scan_stop c (length args) = Some stop ->
  resolve c book args = Some (i, nm) <->
  (1 <= i < stop)%nat
  /\ names_contact book args i = true
  /\ (forall k, (1 <= k < i)%nat -> names_contact book args k = false)
  /\ nm = normalize_name (unwords (firstn i args)).
Proof.
  intros Hs. unfold resolve. rewrite Hs, scan_name_Some.
  split; intros (H1 & H2 & H3 & H4); repeat split; auto; lia.
Qed.

Lemma resolve_None (c : Command) (book : AddressBook) (args : list str)
  (stop : nat) :
  scan_stop c (length args) = Some stop ->
  resolve c book args = None <->
  forall k, (1 <= k < stop)%nat -> names_contact book args k = false.
Proof.
  intros Hs. unfold resolve. rewrite Hs, scan_name_None.
  split; intros H k Hk; apply H; lia.
Qed.

(** A name that exists is found. *)
Lemma resolved_name_found (c : Command) (book : AddressBook)
  (args : list str) (i : nat) (nm : str) :
  resolve c book args = Some (i, nm) ->
  exists key record,
    find book nm = Some (key, record) /\ lower key = lower nm.
Proof.
  unfold resolve. destruct (scan_stop c (length args)); [|discriminate].
  intros H. apply scan_name_Some in H as (_ & H & _ & ->).
  apply name_exists_find in H as [[key record] H].
  exists key, record. split; [exact H|]. apply (find_key _ _ _ _ H).
Qed.

(** C6, as the code has it.  A command that scans forward tries the
    split points [1 <= i < stop], where [stop] is the number of tokens
    for most commands, one more for [removenote], [removeemail] and
    [removetag], and one less for [addtag].  It accepts the first of
    these for which the first [i] tokens, joined and normalized, name a
    contact, so of several such prefixes the shortest one in the range.
    [addnote] and [addaddress] then work on the contact found under that
    name, with the tokens from [i] on as the text. *)
Theorem resolve_first_prefix_in_range :
  (forall c book args stop,
      scan_stop c (length args) = Some stop ->
      (forall i nm,
          resolve c book args = Some (i, nm) <->
          (1 <= i < stop)%nat
          /\ names_contact book args i = true
          /\ (forall k, (1 <= k < i)%nat -> names_contact book args k = false)
          /\ nm = normalize_name (unwords (firstn i args)))
      /\ (resolve c book args = None <->
          forall k, (1 <= k < stop)%nat -> names_contact book args k = false))
  /\ (forall book args i nm,
        (2 <= length args)%nat ->
        resolve addnote book args = Some (i, nm) ->
        exists key record,
          find book nm = Some (key, record)
          /\ add_note args book
             = match Record_add_note record
                       (strip (re_sub_tags (unwords (skipn i args))))
                       (extract_tags_from_text (unwords (skipn i args))) with
               | Invalid msg => (msg, book)
               | Valid (None, _) => (NoteExists, book)
               | Valid (Some note, record') =>
                   (NoteAdded (n_tags note), dict_set key record' book)
               end)
  /\ (forall book args i nm,
        (2 <= length args)%nat ->
        resolve addaddress book args = Some (i, nm) ->
        exists key record,
          find book nm = Some (key, record)
          /\ add_address args book
             = match r_address record with
               | Some _ => (AddressExists, book)
               | None =>
                   (AddressAdded,
                    dict_set key
                      (Record_add_address record
                         (title (unwords (skipn i args)))) book)
               end).
Proof.
  split; [|split].
  - intros c book args stop Hs. split.
    + intros i nm. apply resolve_Some; exact Hs.
    + apply resolve_None; exact Hs.
  - intros book args i nm Hlen Hr.
    destruct (resolved_name_found _ _ _ _ _ Hr) as (key & record & Hf & _).
    exists key, record. split; [exact Hf|].
    unfold add_note, add_note_body.
    assert ((length args <? 2)%nat = false) as ->
      by (apply Nat.ltb_ge; exact Hlen).
    rewrite Hr, Hf.
    destruct (Record_add_note record _ _) as [[[n|] r']|msg]; reflexivity.
  - intros book args i nm Hlen Hr.
    destruct (resolved_name_found _ _ _ _ _ Hr) as (key & record & Hf & _).
    exists key, record. split; [exact Hf|].
    unfold add_address, add_address_body.
    assert ((length args <? 2)%nat = false) as ->
      by (apply Nat.ltb_ge; exact Hlen).
    rewrite Hr, Hf. destruct (r_address record); reflexivity.
Qed.

Lemma resolve_first_prefix_in_range_witness :
  names_contact book_petrov_jr [py "Ivan"; py "Petrov"; py "Jr"; py "x"] 2
  = true
  /\ names_contact book_petrov_jr [py "Ivan"; py "Petrov"; py "Jr"; py "x"] 3
     = true
  /\ resolve addnote book_petrov_jr [py "Ivan"; py "Petrov"; py "Jr"; py "x"]
     = Some (2%nat, py "Ivan Petrov").
Proof.
  split; [reflexivity|]. split; [reflexivity|].
  apply (proj1 (proj1 resolve_first_prefix_in_range addnote book_petrov_jr
                  [py "Ivan"; py "Petrov"; py "Jr"; py "x"] 4%nat eq_refl)
               2%nat (py "Ivan Petrov")).
  repeat split.
  - lia.
  - lia.
  - intros k Hk. assert (k = 1%nat) as -> by lia. reflexivity.
Defined.

(** C6 as stated fails for [addtag]: the first two and the first three
    of the tokens [Ivan Petrov Jr] name a contact, and the command,
    which tries the first token only, accepts neither. *)
Lemma add_tag_skips_shortest_prefix :
  let args := [py "Ivan"; py "Petrov"; py "Jr"] in
  names_contact book_petrov_jr args 1 = false
  /\ names_contact book_petrov_jr args 2 = true
  /\ names_contact book_petrov_jr args 3 = true
  /\ resolve addtag book_petrov_jr args = None
  /\ add_tag_to_note args book_petrov_jr
     = (ProvideNameNoteTag, book_petrov_jr).
Proof. repeat split; reflexivity. Qed.

(** ** Removing all the notes of a contact *)

Lemma find_dict_set (book : AddressBook) (nm key : str)
  (record r' : ContactRecord) :
  find book nm = Some (key, record) ->
  find (dict_set key r' book) nm = Some (key, r').
Proof.
  induction book as [|[k r] b IH]; simpl; [discriminate|].
  destruct (str_eqb (lower k) (lower nm)) eqn:E.
  - intros H; injection H as -> ->. rewrite str_eqb_refl. simpl.
    rewrite E. reflexivity.
  - intros H. destruct (str_eqb k key) eqn:F.
    + apply str_eqb_eq in F; subst k.
      apply find_key in H. rewrite H, str_eqb_refl in E. discriminate.
    + simpl. rewrite E. auto.
Qed.

(** C10, as the code has it.  When the tokens given to [removenote],
    taken all together, name a contact and no shorter prefix of them
    names one, the command empties the notes of that contact, leaves its
    other fields and the other records as they are, and says that all
    notes were removed; when the contact has no note, it says that there
    is nothing to remove and changes nothing. *)
Theorem remove_note_name_only (args : list str) (book : AddressBook) :
  args <> [] ->
  names_contact book args (length args) = true ->
  (forall k, (1 <= k < length args)%nat -> names_contact book args k = false) ->
  let name := normalize_name (unwords args) in
  exists key record,
    find book name = Some (key, record)
    /\ match r_notes record with
       | [] => remove_note args book = (NoNotesToRemove name, book)
       | _ :: _ =>
           remove_note args book
           = (AllNotesRemoved name, dict_set key (set_notes record []) book)
           /\ find (snd (remove_note args book)) name
              = Some (key, set_notes record [])
       end.
Proof.
  intros Hne Hall Hk name.
  assert (resolve removenote book args = Some (length args, name)) as Hr.
  { apply (resolve_Some removenote book args (length args + 1)%nat
             (length args) name eq_refl).
    repeat split; auto; try lia.
    - destruct args; [congruence | simpl; lia].
    - unfold name. rewrite firstn_all. reflexivity. }
  destruct (resolved_name_found _ _ _ _ _ Hr) as (key & record & Hf & _).
  exists key, record. split; [exact Hf|].
  unfold remove_note, remove_note_body.
  destruct args as [|a args']; [congruence|].
  rewrite Hr, Hf, skipn_all. simpl unwords. 
  change (strip []) with (@nil char).
  destruct (r_notes record) eqn:En; [reflexivity|].
  split; [reflexivity|]. simpl. apply (find_dict_set _ _ _ _ _ Hf).
Qed.

Lemma remove_note_name_only_witness :
  exists key record,
    find book_meeting (py "Ivan") = Some (key, record)
    /\ remove_note [py "ivan"] book_meeting
       = (AllNotesRemoved (py "Ivan"),
          dict_set key (set_notes record []) book_meeting).
Proof.
  destruct (remove_note_name_only [py "ivan"] book_meeting)
    as (key & record & Hf & H).
  - discriminate.
  - reflexivity.
  - simpl. intros k Hk. lia.
  - exists key, record. split; [exact Hf|].
    assert (r_notes record = [mkNote (py "Meeting") []]) as E
      by (vm_compute in Hf; injection Hf as _ <-; reflexivity).
    rewrite E in H. exact (proj1 H).
Defined.

(** C10 as stated fails: with the contacts [Ivan Petrov] and [Ivan],
    [removenote Ivan Petrov] is read as the note [Petrov] of [Ivan]; the
    note of [Ivan Petrov] stays. *)
Lemma remove_note_shadowed_by_prefix :
  exists record,
    find book_ivan_and_petrov (py "Ivan Petrov")
    = Some (py "Ivan Petrov", record)
    /\ r_notes record = [mkNote (py "hello") []]
    /\ remove_note [py "Ivan"; py "Petrov"] book_ivan_and_petrov
       = (NoteRemoved, book_ivan_and_petrov).
Proof. eexists. repeat split; reflexivity. Qed.

(** ** Dates *)

Lemma is_leap_spec (y : Z) :
  is_leap y = true <->
  (y mod 4 = 0 /\ (y mod 100 <> 0 \/ y mod 400 = 0))%Z.
Proof.
  unfold is_leap.
  rewrite andb_true_iff, orb_true_iff, negb_true_iff, !Z.eqb_eq, Z.eqb_neq.
  tauto.
Qed.

Lemma valid_ymd_spec (y m d : Z) :
  valid_ymd y m d = true <->
  (1 <= y <= 9999 /\ 1 <= m <= 12 /\ 1 <= d <= days_in_month y m)%Z.
Proof.
  unfold valid_ymd. rewrite !andb_true_iff, !Z.leb_le. tauto.
Qed.

Lemma day_of_year_bounds (y m d : Z) :
  valid_ymd y m d = true ->
  (1 <= day_of_year y m d <= 365 + (if is_leap y then 1 else 0))%Z.
Proof.
  intros H. apply valid_ymd_spec in H as (_ & Hm & Hd).
  unfold day_of_year, days_before_month, days_in_month in *.
  month_cases m; calc_tables; destruct (is_leap y); calc_tables; lia.
Qed.

Lemma day_of_year_lt (y m1 d1 m2 d2 : Z) :
  valid_ymd y m1 d1 = true -> valid_ymd y m2 d2 = true ->
  (m1 < m2 \/ (m1 = m2 /\ d1 < d2))%Z ->
  (day_of_year y m1 d1 < day_of_year y m2 d2)%Z.
Proof.
  intros H1 H2 Hlt.
  apply valid_ymd_spec in H1 as (_ & Hm1 & Hd1).
  apply valid_ymd_spec in H2 as (_ & Hm2 & Hd2).
  unfold day_of_year, days_before_month, days_in_month in *.
  month_cases m1; month_cases m2; try lia; calc_tables;
    destruct (is_leap y); calc_tables; lia.
Qed.

Lemma days_before_year_succ (y : Z) :
  (days_before_year (y + 1)
   = days_before_year y + 365 + (if is_leap y then 1 else 0))%Z.
Proof.
  unfold days_before_year.
  destruct (is_leap y) eqn:E.
  - apply is_leap_spec in E. cbv zeta.
    replace (y + 1 - 1)%Z with y by lia.
    Z.div_mod_to_equations. lia.
  - assert (~ (y mod 4 = 0 /\ (y mod 100 <> 0 \/ y mod 400 = 0))%Z) as N
      by (rewrite <- is_leap_spec; congruence).
    cbv zeta. replace (y + 1 - 1)%Z with y by lia.
    Z.div_mod_to_equations. lia.
Qed.

Lemma days_before_year_mono (a b : Z) :
  (a <= b)%Z -> (days_before_year a <= days_before_year b)%Z.
Proof.
  intros H. unfold days_before_year. cbv zeta.
  Z.div_mod_to_equations. lia.
Qed.

Lemma toordinal_lt (a b : date) :
  valid_date a = true -> valid_date b = true ->
  date_ltb a b = true -> (toordinal a < toordinal b)%Z.
Proof.
  destruct a as [ya ma da], b as [yb mb db]. unfold valid_date, date_ltb.
  simpl. intros Ha Hb H.
  pose proof (day_of_year_bounds _ _ _ Ha) as Ba.
  pose proof (day_of_year_bounds _ _ _ Hb) as Bb.
  unfold toordinal. simpl. fold (day_of_year ya ma da).
  rewrite <- !Z.add_assoc. fold (day_of_year ya ma da) (day_of_year yb mb db).
  apply orb_true_iff in H as [H|H].
  - apply Z.ltb_lt in H.
    pose proof (days_before_year_succ ya) as S.
    pose proof (days_before_year_mono (ya + 1) yb ltac:(lia)) as M.
    lia.
  - apply andb_true_iff in H as [Hy H]. apply Z.eqb_eq in Hy; subst yb.
    assert (ma < mb \/ (ma = mb /\ da < db))%Z as L.
    { apply orb_true_iff in H as [H|H]; [left; apply Z.ltb_lt; exact H|].
      apply andb_true_iff in H as [H1 H2].
      right. split; [apply Z.eqb_eq|apply Z.ltb_lt]; assumption. }
    pose proof (day_of_year_lt _ _ _ _ _ Ha Hb L). lia.
Qed.

Lemma is_leap_of_parts (n400 n100 n4 n1 : Z) :
  (0 <= n400 -> 0 <= n100 <= 3 -> 0 <= n4 <= 24 -> 0 <= n1 <= 3 ->
   is_leap (n400 * 400 + 1 + n100 * 100 + n4 * 4 + n1)
   = (n1 =? 3) && (negb (n4 =? 24) || (n100 =? 3)))%Z.
Proof.
  intros H400 H100 H4 H1.
  apply eq_true_iff_eq. rewrite is_leap_spec.
  rewrite andb_true_iff, orb_true_iff, negb_true_iff, !Z.eqb_eq, Z.eqb_neq.
  split.
  - intros [A B]. Z.div_mod_to_equations. lia.
  - intros [A B]. Z.div_mod_to_equations. lia.
Qed.

Lemma days_before_year_of_parts (n400 n100 n4 n1 : Z) :
  (0 <= n400 -> 0 <= n100 <= 3 -> 0 <= n4 <= 24 -> 0 <= n1 <= 3 ->
   days_before_year (n400 * 400 + 1 + n100 * 100 + n4 * 4 + n1)
   = 146097 * n400 + 36524 * n100 + 1461 * n4 + 365 * n1)%Z.
Proof.
  intros H400 H100 H4 H1. unfold days_before_year. cbv zeta.
  Z.div_mod_to_equations. lia.
Qed.

Lemma month_day_ok_all (leapyear : bool) (n : Z) :
  (0 <= n <= 364)%Z -> month_day_ok leapyear n = true.
Proof.
  intros Hn.
  assert (forallb (fun k => month_day_ok true (Z.of_nat k)
                            && month_day_ok false (Z.of_nat k))
                  (seq 0 365) = true) as A by (vm_compute; reflexivity).
  rewrite forallb_forall in A.
  specialize (A (Z.to_nat n)). rewrite Z2Nat.id in A by lia.
  assert (In (Z.to_nat n) (seq 0 365)) as Hin by (apply in_seq; lia).
  apply A in Hin. apply andb_true_iff in Hin as [? ?].
  destruct leapyear; assumption.
Qed.

Lemma month_day_spec (y n : Z) :
  (0 <= n <= 364)%Z ->
  let md := month_day (is_leap y) n in
  valid_ymd y (fst md) (snd md) = (1 <=? y)%Z && (y <=? 9999)%Z
  /\ day_of_year y (fst md) (snd md) = (n + 1)%Z.
Proof.
  intros Hn. pose proof (month_day_ok_all (is_leap y) n Hn) as H.
  unfold month_day_ok in H. cbv zeta.
  destruct (month_day (is_leap y) n) as [m d]. cbn [fst snd].
  repeat (apply andb_true_iff in H as [H ?]).
  unfold valid_ymd, day_of_year, days_before_month, days_in_month.
  apply Z.eqb_eq in H0. rewrite H0, H, H3, H2, H1. cbn [andb].
  rewrite !andb_true_r. auto.
Qed.

(** [fromordinal] answers a date, and the date of that ordinal. *)
Lemma fromordinal_spec (n : Z) :
  (1 <= n <= MAXORDINAL)%Z ->
  valid_date (fromordinal n) = true /\ toordinal (fromordinal n) = n.
Proof.
  unfold MAXORDINAL. intros Hn. unfold fromordinal. cbv zeta.
  remember ((n - 1) / 146097)%Z as n400 eqn:E400.
  remember ((n - 1) mod 146097)%Z as r1 eqn:Er1.
  remember (r1 / 36524)%Z as n100 eqn:E100.
  remember (r1 mod 36524)%Z as r2 eqn:Er2.
  remember (r2 / 1461)%Z as n4 eqn:E4.
  remember (r2 mod 1461)%Z as r3 eqn:Er3.
  remember (r3 / 365)%Z as n1 eqn:E1.
  remember (r3 mod 365)%Z as r4 eqn:Er4.
  assert (n - 1 = 146097 * n400 + r1 /\ 0 <= r1 < 146097)%Z as [D1 B1]
    by (subst n400 r1; Z.div_mod_to_equations; lia).
  assert (r1 = 36524 * n100 + r2 /\ 0 <= r2 < 36524)%Z as [D2 B2]
    by (subst n100 r2; Z.div_mod_to_equations; lia).
  assert (r2 = 1461 * n4 + r3 /\ 0 <= r3 < 1461)%Z as [D3 B3]
    by (subst n4 r3; Z.div_mod_to_equations; lia).
  assert (r3 = 365 * n1 + r4 /\ 0 <= r4 < 365)%Z as [D4 B4]
    by (subst n1 r4; Z.div_mod_to_equations; lia).
  clear E400 Er1 E100 Er2 E4 Er3 E1 Er4.
  assert (0 <= n400 <= 24 /\ 0 <= n100 <= 4 /\ 0 <= n4 <= 24 /\ 0 <= n1 <= 4)%Z
    as (H400 & H100 & H4 & H1) by lia.
  destruct ((n1 =? 4)%Z || (n100 =? 4)%Z) eqn:EA.
  - (* the last day of a leap year *)
    assert (n400 * 400 + 1 + n100 * 100 + n4 * 4 + n1 - 1
            = (n400 * 400 + n100 * 100 + n4 * 4 + n1 - 1) + 1)%Z as ->
      by lia.
    set (Y1 := (n400 * 400 + n100 * 100 + n4 * 4 + n1 - 1)%Z).
    assert (is_leap (Y1 + 1) = true) as L.
    { apply is_leap_spec. subst Y1.
      apply orb_true_iff in EA as [EA|EA]; apply Z.eqb_eq in EA;
        Z.div_mod_to_equations; lia. }
    assert (days_before_year (Y1 + 1 + 1) = n)%Z as DY.
    { unfold days_before_year. cbv zeta. subst Y1.
      apply orb_true_iff in EA as [EA|EA]; apply Z.eqb_eq in EA;
        Z.div_mod_to_equations; lia. }
    rewrite days_before_year_succ, L in DY.
    assert (1 <= Y1 + 1 <= 9999)%Z as BY
      by (subst Y1; apply orb_true_iff in EA as [EA|EA];
          apply Z.eqb_eq in EA; lia).
    split.
    + unfold valid_date. cbn [year_of month_of day_of].
      apply valid_ymd_spec.
      change (days_in_month (Y1 + 1) 12) with 31%Z. lia.
    + unfold toordinal, days_before_month. simpl year_of. simpl month_of.
      simpl day_of. rewrite L.
      change (DAYS_BEFORE_MONTH 12) with 334%Z.
      change (2 <? 12)%Z with true. cbn [andb]. lia.
  - apply orb_false_iff in EA as [EA1 EA2].
    apply Z.eqb_neq in EA1, EA2.
    assert (0 <= n100 <= 3 /\ 0 <= n1 <= 3)%Z as [H100' H1'] by lia.
    rewrite <- (is_leap_of_parts n400 n100 n4 n1) by lia.
    pose proof (days_before_year_of_parts n400 n100 n4 n1
                  ltac:(lia) H100' H4 H1') as DY.
    set (Y := (n400 * 400 + 1 + n100 * 100 + n4 * 4 + n1)%Z) in *.
    pose proof (month_day_spec Y r4 ltac:(lia)) as [V S].
    cbv zeta in V, S. unfold month_day in V, S. cbv zeta in V, S.
    assert (1 <= Y <= 9999)%Z as BY by (subst Y; lia).
    assert ((1 <=? Y)%Z && (Y <=? 9999)%Z = true) as EY.
    { apply andb_true_iff. split; apply Z.leb_le; lia. }
    rewrite EY in V.
    destruct (r4 <? _)%Z; cbn [fst snd] in V, S.
    + split; [exact V|].
      unfold toordinal. cbn [year_of month_of day_of].
      unfold day_of_year in S. lia.
    + split; [exact V|].
      unfold toordinal. cbn [year_of month_of day_of].
      unfold day_of_year in S. lia.
Qed.

Lemma toordinal_bounds (d : date) :
  valid_date d = true -> (1 <= toordinal d <= MAXORDINAL)%Z.
Proof.
  destruct d as [y m d]. unfold valid_date. cbn [year_of month_of day_of].
  intros V. pose proof (day_of_year_bounds _ _ _ V) as B.
  apply valid_ymd_spec in V as (Hy & _ & _).
  unfold toordinal. cbn [year_of month_of day_of].
  rewrite <- Z.add_assoc. fold (day_of_year y m d).
  pose proof (days_before_year_succ y) as S.
  pose proof (days_before_year_mono (y + 1) 10000 ltac:(lia)) as M.
  pose proof (days_before_year_mono 1 y ltac:(lia)) as M1.
  change (days_before_year 10000) with 3652059%Z in M.
  change (days_before_year 1) with 0%Z in M1.
  unfold MAXORDINAL. lia.
Qed.

Lemma date_order_cases (a b : date) :
  (date_ltb a b = true /\ date_leb a b = true /\ date_leb b a = false)
  \/ (a = b /\ date_leb a b = true /\ date_leb b a = true)
  \/ (date_ltb b a = true /\ date_leb a b = false /\ date_leb b a = true).
Proof.
  destruct a as [ya ma da], b as [yb mb db].
  unfold date_leb, date_ltb, date_eqb. cbn [year_of month_of day_of].
  destruct (Z.lt_trichotomy ya yb) as [H|[H|H]];
    destruct (Z.lt_trichotomy ma mb) as [H'|[H'|H']];
    destruct (Z.lt_trichotomy da db) as [H''|[H''|H'']];
    repeat match goal with
           | |- context [(?x <? ?y)%Z] => destruct (Z.ltb_spec x y); try lia
           | |- context [(?x =? ?y)%Z] => destruct (Z.eqb_spec x y); try lia
           end; cbn [andb orb]; try subst; auto.
Qed.

(** Dates are ordered as their ordinals. *)
Lemma date_leb_toordinal (a b : date) :
  valid_date a = true -> valid_date b = true ->
  date_leb a b = (toordinal a <=? toordinal b)%Z.
Proof.
  intros Va Vb.
  destruct (date_order_cases a b) as [(L & -> & _)|[(-> & -> & _)|(L & -> & _)]].
  - pose proof (toordinal_lt a b Va Vb L). symmetry. apply Z.leb_le. lia.
  - symmetry. apply Z.leb_le. lia.
  - pose proof (toordinal_lt b a Vb Va L). symmetry. apply Z.leb_gt. lia.
Qed.

Lemma date_ltb_toordinal (a b : date) :
  valid_date a = true -> valid_date b = true ->
  date_ltb a b = (toordinal a <? toordinal b)%Z.
Proof.
  intros Va Vb.
  destruct (date_order_cases a b) as [(L & _ & _)|[(-> & _ & _)|(L & _ & _)]].
  - pose proof (toordinal_lt a b Va Vb L). rewrite L. symmetry.
    apply Z.ltb_lt. lia.
  - transitivity false.
    + destruct b as [y m d]. unfold date_ltb. cbn [year_of month_of day_of].
      rewrite !Z.ltb_irrefl, !Z.eqb_refl. reflexivity.
    + symmetry. apply Z.ltb_irrefl.
  - pose proof (toordinal_lt b a Vb Va L).
    destruct (date_ltb a b) eqn:E.
    + pose proof (toordinal_lt a b Va Vb E). lia.
    + symmetry. apply Z.ltb_ge. lia.
Qed.

Lemma date_add_spec (d : date) (n : Z) :
  valid_date d = true ->
  (1 <= toordinal d + n <= MAXORDINAL)%Z ->
  date_add d n = Some (fromordinal (toordinal d + n))
  /\ valid_date (fromordinal (toordinal d + n)) = true
  /\ toordinal (fromordinal (toordinal d + n)) = (toordinal d + n)%Z.
Proof.
  intros V H. unfold date_add. cbv zeta.
  destruct (Z.ltb_spec 0 (toordinal d + n)); [|lia].
  destruct (Z.leb_spec (toordinal d + n) MAXORDINAL); [|lia].
  split; [reflexivity|]. apply fromordinal_spec. exact H.
Qed.

Lemma replace_year_valid (d d' : date) (y : Z) :
  replace_year d y = Some d' -> valid_date d' = true.
Proof.
  unfold replace_year, make_date.
  destruct (valid_ymd y (month_of d) (day_of d)) eqn:E; [|discriminate].
  intros H; injection H as <-. exact E.
Qed.

Lemma next_occurrence_valid (today bd d : date) :
  next_occurrence today bd = Some d -> valid_date d = true.
Proof.
  unfold next_occurrence.
  destruct (replace_year bd (year_of today)) as [b|] eqn:E; [|discriminate].
  destruct (date_ltb b today).
  - apply replace_year_valid.
  - intros H; injection H as <-. apply (replace_year_valid _ _ _ E).
Qed.

(** A Saturday or a Sunday is never so late that the shift leaves the
    calendar. *)
Lemma weekend_shift_in_range (d : date) :
  valid_date d = true ->
  (1 <= toordinal d + weekend_shift d <= MAXORDINAL)%Z.
Proof.
  intros V. pose proof (toordinal_bounds d V) as B.
  unfold weekend_shift, weekday, MAXORDINAL in *.
  destruct (Z.eqb_spec ((toordinal d + 6) mod 7) 5) as [E|_];
    [Z.div_mod_to_equations; lia|].
  destruct (Z.eqb_spec ((toordinal d + 6) mod 7) 6) as [E|_];
    [Z.div_mod_to_equations; lia|].
  lia.
Qed.

(** One turn of the loop reports the line of the record. *)
Lemma upcoming_turn_line (today : date) (record : ContactRecord) :
  valid_date today = true ->
  (toordinal today + 7 <= MAXORDINAL)%Z ->
  upcoming_turn today (fromordinal (toordinal today + 7)) record
  = match upcoming_line today 7 record with
    | Some line => Append line
    | None => Continue
    end.
Proof.
  intros V H.
  pose proof (toordinal_bounds today V) as B.
  destruct (date_add_spec today 7 V ltac:(lia)) as (_ & Ve & Oe).
  unfold upcoming_turn, upcoming_line, next_occurrence.
  destruct (r_birthday record) as [value|]; [|reflexivity].
  destruct (strptime_dmY value) as [bd|]; [|reflexivity].
  destruct (replace_year bd (year_of today)) as [b|] eqn:Eb; [|reflexivity].
  match goal with
  | |- match ?x with Some _ => _ | None => _ end = _ =>
      destruct x as [d|] eqn:Ed; [|reflexivity]
  end.
  assert (valid_date d = true) as Vd.
  { destruct (date_ltb b today).
    - apply (replace_year_valid _ _ _ Ed).
    - injection Ed as <-. apply (replace_year_valid _ _ _ Eb). }
  rewrite (date_leb_toordinal today d V Vd).
  rewrite (date_leb_toordinal d _ Vd Ve), Oe.
  unfold days_from.
  assert ((toordinal today <=? toordinal d)%Z
          = (0 <=? toordinal d - toordinal today)%Z) as ->.
  { destruct (Z.leb_spec (toordinal today) (toordinal d));
      symmetry; [apply Z.leb_le | apply Z.leb_gt]; lia. }
  assert ((toordinal d <=? toordinal today + 7)%Z
          = (toordinal d - toordinal today <=? 7)%Z) as ->.
  { destruct (Z.leb_spec (toordinal d) (toordinal today + 7));
      symmetry; [apply Z.leb_le | apply Z.leb_gt]; lia. }
  destruct ((0 <=? _)%Z && (_ <=? 7)%Z); [|reflexivity].
  pose proof (weekend_shift_in_range d Vd) as R.
  unfold congratulation_date. unfold weekend_shift in *.
  destruct (weekday d =? 5)%Z.
  - destruct (date_add_spec d 2 Vd R) as (-> & _ & _). reflexivity.
  - destruct (weekday d =? 6)%Z.
    + destruct (date_add_spec d 1 Vd R) as (-> & _ & _). reflexivity.
    + rewrite Z.add_0_r.
      destruct (fromordinal_spec (toordinal d) (toordinal_bounds d Vd))
        as [Vf Of].
      assert (fromordinal (toordinal d) = d) as ->; [|reflexivity].
      destruct (date_order_cases (fromordinal (toordinal d)) d)
        as [(L & _ & _)|[(E & _ & _)|(L & _ & _)]]; [|exact E|].
      * pose proof (toordinal_lt _ _ Vf Vd L). lia.
      * pose proof (toordinal_lt _ _ Vd Vf L). lia.
Qed.

Lemma upcoming_loop_lines (today : date) (records : list ContactRecord)
  (upcoming : list str) :
  valid_date today = true ->
  (toordinal today + 7 <= MAXORDINAL)%Z ->
  upcoming_loop today (fromordinal (toordinal today + 7)) records upcoming
  = Some (upcoming ++ lines_of today 7 records).
Proof.
  intros V H. revert upcoming.
  induction records as [|record rest IH]; intros upcoming; simpl.
  - rewrite app_nil_r. reflexivity.
  - rewrite (upcoming_turn_line today record V H).
    destruct (upcoming_line today 7 record) as [line|].
    + rewrite IH, <- app_assoc. reflexivity.
    + apply IH.
Qed.

(** C5.  With a horizon of 7 days, [get_upcoming_birthdays] reports, in
    the order of the book, one line for each record whose birthday
    parses and whose next occurrence (the birthday in the current year,
    or in the next year when that date is before today) is from 0 to 7
    days after today; the test is on that date itself.  The date written
    on the line is that date moved 2 days on when it is a Saturday and 1
    day on when it is a Sunday, which is a Monday then, and that date
    itself on the other days.  [today] is a date at least a week before
    the end of the calendar. *)
Theorem upcoming_birthdays_horizon (book : AddressBook) (today : date) :
  valid_date today = true ->
  (toordinal today + 7 <= MAXORDINAL)%Z ->
  get_upcoming_birthdays book today 7 = Some (lines_of today 7 (map snd book))
  /\ forall record value birthday_date end_date,
       r_birthday record = Some value ->
       strptime_dmY value = Some birthday_date ->
       date_add today 7 = Some end_date ->
       match next_occurrence today birthday_date with
       | Some d =>
           if ((0 <=? days_from today d) && (days_from today d <=? 7))%Z
           then exists c,
               upcoming_turn today end_date record
               = Append (r_name record ++ py ": " ++ strftime_dmY c)
               /\ valid_date c = true
               /\ days_from d c
                  = (if weekday d =? 5 then 2
                     else if weekday d =? 6 then 1 else 0)%Z
               /\ (weekday d = 5%Z \/ weekday d = 6%Z -> weekday c = 0%Z)
           else upcoming_turn today end_date record = Continue
       | None => upcoming_turn today end_date record = Continue
       end.
Proof.
  intros V H.
  pose proof (toordinal_bounds today V) as B.
  destruct (date_add_spec today 7 V ltac:(lia)) as (Ea & _ & _).
  split.
  - unfold get_upcoming_birthdays. rewrite Ea.
    apply (upcoming_loop_lines today (map snd book) [] V H).
  - intros record value bd end_date Hb Hp He.
    rewrite Ea in He. injection He as <-.
    rewrite (upcoming_turn_line today record V H).
    unfold upcoming_line. rewrite Hb, Hp.
    destruct (next_occurrence today bd) as [d|] eqn:En; [|reflexivity].
    destruct ((0 <=? _)%Z && (_ <=? 7)%Z); [|reflexivity].
    pose proof (next_occurrence_valid _ _ _ En) as Vd.
    pose proof (weekend_shift_in_range d Vd) as R.
    destruct (fromordinal_spec _ R) as [Vc Oc].
    exists (congratulation_date d). unfold congratulation_date.
    repeat split; auto.
    + unfold days_from. rewrite Oc. unfold weekend_shift.
      destruct (weekday d =? 5)%Z; [lia|].
      destruct (weekday d =? 6)%Z; lia.
    + intros W. unfold weekday at 1. rewrite Oc.
      unfold weekend_shift, weekday in *.
      destruct W as [W|W]; rewrite W; cbn [Z.eqb Pos.eqb];
        Z.div_mod_to_equations; lia.
Qed.

Lemma upcoming_birthdays_horizon_witness :
  get_upcoming_birthdays book_birthdays today_2025_05_10 7
  = Some [py "Ivan: 15.05.2025"; py "Olha: 19.05.2025"].
Proof.
  exact (proj1 (upcoming_birthdays_horizon book_birthdays today_2025_05_10
                  eq_refl ltac:(vm_compute; discriminate))).
Defined.

Lemma upcoming_loop_skip (today end_date : date) (l1 l2 : list ContactRecord)
  (record : ContactRecord) (upcoming : list str) :
  upcoming_turn today end_date record = Continue ->
  upcoming_loop today end_date (l1 ++ record :: l2) upcoming
  = upcoming_loop today end_date (l1 ++ l2) upcoming.
Proof.
  intros H. revert upcoming.
  induction l1 as [|r l1 IH]; intros upcoming; simpl.
  - rewrite H. reflexivity.
  - destruct (upcoming_turn today end_date r); auto.
Qed.

(** C9.  A record whose birthday is a 29 February is passed over
    whenever the current year is not a leap year: the turn of the loop
    for it ends in [continue], and the method answers what it answers
    for the book without that record. *)
Theorem leap_day_birthday_omitted (book1 book2 : AddressBook) (key : str)
  (record : ContactRecord) (value : str) (y : Z) (today : date) (days : Z) :
  r_birthday record = Some value ->
  strptime_dmY value = Some (mkdate y 2 29) ->
  is_leap (year_of today) = false ->
  (forall end_date, upcoming_turn today end_date record = Continue)
  /\ get_upcoming_birthdays (book1 ++ (key, record) :: book2) today days
     = get_upcoming_birthdays (book1 ++ book2) today days.
Proof.
  intros Hb Hp Hl.
  assert (forall end_date, upcoming_turn today end_date record = Continue)
    as T.
  { intros end_date. unfold upcoming_turn. rewrite Hb, Hp.
    unfold replace_year, make_date, valid_ymd, days_in_month.
    cbn [month_of day_of]. rewrite Hl. cbn [Z.eqb Pos.eqb].
    change (29 <=? 28)%Z with false. rewrite !andb_false_r. reflexivity. }
  split; [exact T|].
  unfold get_upcoming_birthdays.
  destruct (date_add today days) as [end_date|]; [|reflexivity].
  rewrite !map_app. simpl map.
  apply upcoming_loop_skip. apply T.
Qed.

Lemma leap_day_birthday_omitted_witness :
  get_upcoming_birthdays book_birthdays today_2025_05_10 7
  = get_upcoming_birthdays
      [with_birthday (py "Ivan") (py "15.05.1990");
       with_birthday (py "Olha") (py "17.05.1985");
       with_birthday (py "Anna") (py "18.05.1992")]
      today_2025_05_10 7.
Proof.
  exact (proj2 (leap_day_birthday_omitted
                  [with_birthday (py "Ivan") (py "15.05.1990");
                   with_birthday (py "Olha") (py "17.05.1985")]
                  [with_birthday (py "Anna") (py "18.05.1992")]
                  (py "Petro") (snd (with_birthday (py "Petro") (py "29.02.2000")))
                  (py "29.02.2000") 2000 today_2025_05_10 7
                  eq_refl eq_refl eq_refl)).
Defined.

(** * The other operations: properties *)

(** ** Phones of one record *)

Lemma find_phone_None (self : ContactRecord) (phone : str) :
  find_phone self phone = None <-> ~ In phone (r_phones self).
Proof.
  unfold find_phone. split.
  - intros H Hin. pose proof (find_none _ _ H phone Hin) as E.
    cbv beta in E. rewrite str_eqb_refl in E. discriminate.
  - intros H. destruct (List.find _ (r_phones self)) as [p|] eqn:E;
      [|reflexivity].
    apply find_some in E as [Hin E]. apply str_eqb_eq in E; subst p. tauto.
Qed.

Lemma In_split_first (phone : str) (l : list str) :
  In phone l ->
  exists l1 l2, l = l1 ++ phone :: l2 /\ ~ In phone l1.
Proof.
  induction l as [|p l IH]; simpl; [tauto|].
  intros H. destruct (str_eqb p phone) eqn:E.
  - apply str_eqb_eq in E; subst p. exists [], l. simpl. tauto.
  - apply str_eqb_neq in E. destruct H as [H|H]; [congruence|].
    destruct (IH H) as (l1 & l2 & -> & Hn).
    exists (p :: l1), l2. simpl. split; [reflexivity|]. tauto.
Qed.

Lemma remove_first_split (phone : str) (l1 l2 : list str) :
  ~ In phone l1 -> remove_first phone (l1 ++ phone :: l2) = l1 ++ l2.
Proof.
  induction l1 as [|p l1 IH]; simpl; intros H.
  - rewrite str_eqb_refl. reflexivity.
  - destruct (str_eqb p phone) eqn:E.
    + apply str_eqb_eq in E. tauto.
    + rewrite IH; tauto.
Qed.

Lemma replace_first_split (old new : str) (l1 l2 : list str) :
  ~ In old l1 ->
  replace_first old new (l1 ++ old :: l2) = Some (l1 ++ new :: l2).
Proof.
  induction l1 as [|p l1 IH]; simpl; intros H.
  - rewrite str_eqb_refl. reflexivity.
  - destruct (str_eqb p old) eqn:E.
    + apply str_eqb_eq in E. tauto.
    + rewrite IH by tauto. reflexivity.
Qed.

(** X1.  [Record.remove_phone] takes out the first phone equal to the one
    given, keeps the others in their order and answers [True]; when the
    record does not have the phone it answers [False] and the record is
    as it was. *)
Theorem Record_remove_phone_first (self : ContactRecord) (phone : str) :
  (~ In phone (r_phones self)
   /\ Record_remove_phone self phone = (false, self))
  \/ (exists l1 l2,
         r_phones self = l1 ++ phone :: l2 /\ ~ In phone l1
         /\ Record_remove_phone self phone
            = (true, set_phones self (l1 ++ l2))).
Proof.
  unfold Record_remove_phone.
  destruct (find_phone self phone) as [p|] eqn:E.
  - right.
    assert (In phone (r_phones self)) as Hin.
    { destruct (in_dec (list_eq_dec N.eq_dec) phone (r_phones self));
        [assumption|].
      apply find_phone_None in n. congruence. }
    destruct (In_split_first _ _ Hin) as (l1 & l2 & Hs & Hn).
    exists l1, l2. rewrite Hs at 2. rewrite remove_first_split by exact Hn.
    auto.
  - left. split; [apply find_phone_None; exact E | reflexivity].
Qed.

(** X2.  When [Record.edit_phone] succeeds, the new phone stands where
    the first occurrence of the old one stood, and the other phones are
    where they were. *)
Theorem Record_edit_phone_in_place (self self' : ContactRecord)
  (self_key : option str) (old_phone new_phone : str) (book : AddressBook) :
  Record_edit_phone self self_key old_phone new_phone book = (None, self') ->
  exists l1 l2,
    r_phones self = l1 ++ old_phone :: l2 /\ ~ In old_phone l1
    /\ self' = set_phones self (l1 ++ new_phone :: l2).
Proof.
  intros H.
  destruct (Record_edit_phone_cases self self_key old_phone new_phone book)
    as [[msg E]|(l & E & Hr & _ & _)]; rewrite E in H; [discriminate|].
  injection H as <-.
  assert (In old_phone (r_phones self)) as Hin.
  { destruct (in_dec (list_eq_dec N.eq_dec) old_phone (r_phones self))
      as [|n]; [assumption|].
    exfalso. clear E. revert l Hr.
    induction (r_phones self) as [|p ps IH]; simpl; intros l Hr;
      [discriminate|].
    destruct (str_eqb p old_phone) eqn:F.
    - apply str_eqb_eq in F. simpl in n. tauto.
    - destruct (replace_first old_phone new_phone ps) eqn:G;
        [|discriminate].
      apply (IH ltac:(simpl in n; tauto) l0 eq_refl). }
  destruct (In_split_first _ _ Hin) as (l1 & l2 & Hs & Hn).
  exists l1, l2. repeat split; auto.
  rewrite Hs, replace_first_split in Hr by exact Hn.
  injection Hr as <-. reflexivity.
Qed.

Lemma Record_edit_phone_in_place_witness :
  exists l1 l2,
    [py "0501234567"; py "0671234567"] = l1 ++ py "0501234567" :: l2
    /\ ~ In (py "0501234567") l1
    /\ set_phones (Record_init (py "Ivan")) [py "0931234567"; py "0671234567"]
       = set_phones
           (set_phones (Record_init (py "Ivan"))
                       [py "0501234567"; py "0671234567"])
           (l1 ++ py "0931234567" :: l2).
Proof.
  exact (Record_edit_phone_in_place
           (set_phones (Record_init (py "Ivan"))
                       [py "0501234567"; py "0671234567"])
           (set_phones (Record_init (py "Ivan"))
                       [py "0931234567"; py "0671234567"])
           (Some (py "Ivan")) (py "0501234567") (py "0931234567")
           book_two_phones eq_refl).
Defined.

(** X3.  The three phone commands change the book only when they answer
    their success message: [addphone], [changephone] and [removephone]
    either say that the phone was added, updated or removed, or leave
    the book as it was. *)
Theorem phone_commands_all_or_nothing (args : list str)
  (book : AddressBook) :
  (fst (add_phone_to_contact args book) = PhoneAdded
   \/ snd (add_phone_to_contact args book) = book)
  /\ (fst (change_contact args book) = PhoneUpdated
      \/ snd (change_contact args book) = book)
  /\ (fst (remove_phone args book) = PhoneRemoved
      \/ snd (remove_phone args book) = book).
Proof.
  repeat split.
  - unfold add_phone_to_contact, add_phone_to_contact_body.
    destruct (length args <? 2)%nat; [auto|].
    destruct (find book _) as [[key record]|]; [|auto].
    destruct (Record_add_phone record (Some key) _ book) as [[msg|] r];
      simpl; auto.
  - unfold change_contact, change_contact_body.
    destruct (length args <? 3)%nat; [auto|].
    destruct (find book _) as [[key record]|]; [|auto].
    destruct (Record_edit_phone record (Some key) _ _ book) as [[msg|] r];
      simpl; auto.
  - unfold remove_phone, remove_phone_body.
    destruct (length args <? 2)%nat; [auto|].
    destruct (find book _) as [[key record]|]; [|auto].
    destruct (Record_remove_phone record _) as [[|] r]; simpl; auto.
Qed.

(** ** Removing and renaming contacts *)

Lemma find_app_None (l1 l2 : AddressBook) (name : str) :
  find l1 name = None -> find (l1 ++ l2) name = find l2 name.
Proof.
  induction l1 as [|[k r] l1 IH]; simpl; [reflexivity|].
  destruct (str_eqb (lower k) (lower name)); [discriminate | exact IH].
Qed.

Lemma find_None_exists (book : AddressBook) (name : str) :
  find book name = None <-> name_exists book name = false.
Proof.
  pose proof (name_exists_find book name) as H.
  destruct (find book name) as [e|] eqn:F.
  - split; [discriminate|]. intros E.
    assert (name_exists book name = true) by (apply H; eauto). congruence.
  - split; [|reflexivity]. intros _.
    destruct (name_exists book name) eqn:G; [|reflexivity].
    destruct (proj1 H eq_refl) as [e E]. discriminate.
Qed.

(** [delete] and [find] stop at the same entry. *)
Lemma delete_find_split (book : AddressBook) (name : str) :
  match find book name with
  | None => delete book name = (false, book)
  | Some (key, record) =>
      exists l1 l2,
        book = l1 ++ (key, record) :: l2
        /\ find l1 name = None
        /\ delete book name = (true, l1 ++ l2)
  end.
Proof.
  induction book as [|[k r] b IH]; simpl; [reflexivity|].
  destruct (str_eqb (lower k) (lower name)) eqn:E.
  - exists [], b. auto.
  - destruct (find b name) as [[key record]|].
    + destruct IH as (l1 & l2 & -> & Hn & ->).
      exists ((k, r) :: l1), l2. simpl. rewrite E. auto.
    + rewrite IH. reflexivity.
Qed.

(** X4.  [AddressBook.delete] takes out of the book exactly the entry
    that [find] answers for the name, and leaves the others in their
    order; when [find] answers none, it answers [False] and the book is
    as it was. *)
Theorem delete_removes_what_find_finds (book : AddressBook) (name : str) :
  match find book name with
  | None => delete book name = (false, book)
  | Some (key, record) =>
      exists l1 l2,
        book = l1 ++ (key, record) :: l2
        /\ find l1 name = None
        /\ delete book name = (true, l1 ++ l2)
  end.
Proof. exact (delete_find_split book name). Qed.

Lemma delete_fresh_last (book : AddressBook) (name : str)
  (record : ContactRecord) :
  name_exists book name = false ->
  delete (book ++ [(name, record)]) name = (true, book).
Proof.
  intros H. apply find_None_exists in H.
  pose proof (delete_find_split (book ++ [(name, record)]) name)
    as D.
  rewrite (find_app_None _ _ _ H) in D. simpl in D.
  rewrite str_eqb_refl in D.
  destruct D as (l1 & l2 & E & Hn & ->). f_equal.
  assert (find (l1 ++ (name, record) :: l2) name = Some (name, record)) as F.
  { rewrite find_app_None by exact Hn. simpl. rewrite str_eqb_refl.
    reflexivity. }
  destruct l2 as [|e l2].
  - apply app_inj_tail in E as [-> _]. apply app_nil_r.
  - exfalso.
    assert (In (name, record) book) as Hin.
    { assert (In (name, record) (removelast (book ++ [(name, record)]))) as X.
      { rewrite E. rewrite removelast_app by discriminate.
        apply in_or_app. right. simpl. destruct l2; simpl; auto. }
      rewrite removelast_last in X. exact X. }
    assert (name_exists book name = true); [|apply find_None_exists in H;
                                             congruence].
    unfold name_exists. apply existsb_exists. exists (name, record).
    split; [exact Hin | apply str_eqb_refl].
Qed.

Lemma Record_add_phone_message (self : ContactRecord) (k : option str)
  (phone : str) (book : AddressBook) (msg : Reply) (r : ContactRecord) :
  Record_add_phone self k phone book = (Some msg, r) -> msg <> ContactAdded.
Proof.
  unfold Record_add_phone, Phone.
  repeat match goal with
         | |- context [if ?b then _ else _] => destruct b
         | |- context [match phone_owner ?a ?b ?c with _ => _ end] =>
             destruct (phone_owner a b c)
         end; intros H; try discriminate H; injection H as <- _;
    discriminate.
Qed.

Lemma add_phones_message (record : ContactRecord) (l : list str)
  (book : AddressBook) (msg : Reply) (r : ContactRecord) :
  add_phones record l book = (Some msg, r) -> msg <> ContactAdded.
Proof.
  revert record; induction l as [|p l IH]; simpl; intros record;
    [discriminate|].
  destruct (Record_add_phone record None p book) as [[m|] r0] eqn:E.
  - intros H; injection H as <- _.
    apply (Record_add_phone_message _ _ _ _ _ _ E).
  - apply IH.
Qed.

(** When [add_contact] says that the contact was added, the book has one
    more entry, at its end, under the normalized name. *)
Lemma add_contact_added (args : list str) (book : AddressBook) :
  fst (add_contact args book) = ContactAdded ->
  let name_parts := take_while (fun a => negb (is_phone_token a)) args in
  let name := normalize_name (unwords name_parts) in
  name_parts <> []
  /\ name_exists book name = false
  /\ exists record,
       r_name record = name
       /\ snd (add_contact args book) = book ++ [(name, record)].
Proof.
  unfold add_contact, add_contact_body.
  destruct (length args <? 2)%nat; [discriminate|].
  destruct (drop_while _ args) as [|a0 from0]; [discriminate|].
  destruct (take_while _ args) as [|n0 parts0]; [discriminate|].
  cbv zeta. set (name := normalize_name _).
  destruct (name_exists book name) eqn:EN; [discriminate|].
  set (phs := take_while is_phone_token _).
  destruct (add_phones (Record_init name) phs book) as [[msg|] record] eqn:EA.
  - simpl. intros H. exfalso. apply (add_phones_message _ _ _ _ _ EA H).
  - apply add_phones_None in EA as [-> _].
    destruct (email_and_address _ None []) as [em parts].
    set (r0 := set_phones (Record_init name) _).
    set (w := match em with Some e => _ | None => _ end).
    destruct w as [record1|msg] eqn:EW.
    2:{ subst w. destruct em as [e|]; [|discriminate].
        unfold Record_add_email, Email in EW.
        destruct (validate_email (strip e)); [discriminate|].
        injection EW as <-. simpl. discriminate. }
    assert (r_name record1 = name) as Hn.
    { subst w. destruct em as [e|].
      - apply Record_add_email_phones in EW. apply EW.
      - injection EW as <-. reflexivity. }
    intros _. split; [discriminate|]. split; [reflexivity|].
    match goal with |- context [add_record book ?r] => exists r end.
    assert (forall r a, r_name (Record_add_address r a) = r_name r) as Ha
      by reflexivity.
    simpl. split.
    + destruct parts; [|rewrite Ha]; exact Hn.
    + unfold add_record. rewrite dict_set_fresh.
      * destruct parts; [|rewrite Ha]; rewrite Hn; reflexivity.
      * apply name_exists_key.
        destruct parts; [|rewrite Ha]; rewrite Hn; exact EN.
Qed.

(** X5.  A contact that [addcontact] has just added is taken out again
    by [removecontact] with the same name tokens, and the book is then
    the book from before the two commands. *)
Theorem add_then_remove_contact (args : list str) (book : AddressBook) :
  fst (add_contact args book) = ContactAdded ->
  let name_parts := take_while (fun a => negb (is_phone_token a)) args in
  remove_contact name_parts (snd (add_contact args book))
  = (ContactRemoved (normalize_name (unwords name_parts)), book).
Proof.
  intros H. destruct (add_contact_added args book H)
    as (Hne & He & record & _ & ->).
  cbv zeta. unfold remove_contact, remove_contact_body.
  destruct (take_while _ args) as [|a l] eqn:E; [congruence|].
  rewrite (delete_fresh_last _ _ _ He). reflexivity.
Qed.

Lemma add_then_remove_contact_witness :
  remove_contact [py "ivan"; py "petrov"] book_ivan
  = (ContactRemoved (py "Ivan Petrov"), []).
Proof.
  exact (add_then_remove_contact
           [py "ivan"; py "petrov"; py "0987654321"] [] eq_refl).
Defined.

Lemma name_exists_app (l1 l2 : AddressBook) (name : str) :
  name_exists (l1 ++ l2) name = name_exists l1 name || name_exists l2 name.
Proof. unfold name_exists. apply existsb_app. Qed.

(** What [edit_contact_name] answers once the old name is resolved. *)
Lemma edit_contact_name_resolved (args : list str) (book : AddressBook)
  (i : nat) (old_name : str) :
  (2 <= length args)%nat ->
  resolve editname book args = Some (i, old_name) ->
  let new_name := normalize_name (unwords (skipn i args)) in
  exists key record l1 l2,
    find book old_name = Some (key, record)
    /\ book = l1 ++ (key, record) :: l2
    /\ find l1 old_name = None
    /\ edit_contact_name args book
       = (NameChanged new_name,
          dict_set new_name (set_name record new_name) (l1 ++ l2)).
Proof.
  intros Hlen Hr new_name.
  destruct (resolved_name_found _ _ _ _ _ Hr) as (key & record & Hf & _).
  pose proof (delete_find_split book old_name) as D.
  rewrite Hf in D. destruct D as (l1 & l2 & Hb & Hn & Hd).
  exists key, record, l1, l2. repeat split; auto.
  unfold edit_contact_name, edit_contact_name_body.
  assert ((length args <? 2)%nat = false) as ->
    by (apply Nat.ltb_ge; exact Hlen).
  rewrite Hr, Hf, Hd. reflexivity.
Qed.

(** X6.  [editname] to a name that no contact has moves the record to
    the end of the book, stored under the new name and carrying that
    name; its phones, birthday, address, email and notes are as before,
    the other records keep their order, and the record is found under
    the new name. *)
Theorem edit_contact_name_to_unused_name (args : list str)
  (book : AddressBook) (i : nat) (old_name : str) :
  (2 <= length args)%nat ->
  resolve editname book args = Some (i, old_name) ->
  let new_name := normalize_name (unwords (skipn i args)) in
  name_exists book new_name = false ->
  exists key record l1 l2,
    book = l1 ++ (key, record) :: l2
    /\ find book old_name = Some (key, record)
    /\ edit_contact_name args book
       = (NameChanged new_name,
          l1 ++ l2 ++ [(new_name, set_name record new_name)])
    /\ find (snd (edit_contact_name args book)) new_name
       = Some (new_name, set_name record new_name).
Proof.
  intros Hlen Hr new_name He.
  destruct (edit_contact_name_resolved args book i old_name Hlen Hr)
    as (key & record & l1 & l2 & Hf & Hb & Hn & E).
  fold new_name in E.
  exists key, record, l1, l2.
  assert (name_exists (l1 ++ l2) new_name = false) as He'.
  { rewrite Hb, name_exists_app in He. simpl in He.
    rewrite name_exists_app.
    apply orb_false_iff in He as [H1 H2].
    apply orb_false_iff in H2 as [_ H2].
    unfold name_exists in *. rewrite H1. exact H2. }
  rewrite dict_set_fresh in E by (apply name_exists_key; exact He').
  rewrite <- app_assoc in E.
  repeat split; auto. rewrite E. simpl.
  rewrite app_assoc, find_app_None by (apply find_None_exists; exact He').
  simpl. rewrite str_eqb_refl. reflexivity.
Qed.

Lemma edit_contact_name_to_unused_name_witness :
  edit_contact_name [py "ivan"; py "petrov"; py "petro"] book_ivan
  = (NameChanged (py "Petro"),
     [(py "Petro",
       set_name (set_phones (Record_init (py "Ivan Petrov"))
                            [py "0987654321"]) (py "Petro"))]).
Proof.
  destruct (edit_contact_name_to_unused_name
              [py "ivan"; py "petrov"; py "petro"] book_ivan 2%nat
              (py "Ivan Petrov") ltac:(simpl; lia) eq_refl eq_refl)
    as (key & record & l1 & l2 & Hb & Hf & E & _).
  vm_compute in Hf. injection Hf as <- <-.
  destruct l1 as [|e l1].
  - injection Hb as <-. exact E.
  - exfalso. apply (f_equal (@length _)) in Hb. simpl in Hb.
    rewrite length_app in Hb. simpl in Hb. lia.
Defined.

(** X7.  [editname] to the name of another contact puts the renamed
    record in the place of that contact: the book has one entry less,
    and the only entry under the new name is the renamed record. *)
Theorem edit_contact_name_overwrites (args : list str) (book : AddressBook)
  (i : nat) (old_name : str) (other : ContactRecord) :
  (2 <= length args)%nat ->
  NoDup (map fst book) ->
  resolve editname book args = Some (i, old_name) ->
  let new_name := normalize_name (unwords (skipn i args)) in
  In (new_name, other) book ->
  lower new_name <> lower old_name ->
  exists key record,
    find book old_name = Some (key, record)
    /\ fst (edit_contact_name args book) = NameChanged new_name
    /\ S (length (snd (edit_contact_name args book))) = length book
    /\ forall x, In (new_name, x) (snd (edit_contact_name args book)) <->
                 x = set_name record new_name.
Proof.
  intros Hlen ND Hr new_name Ho Hne.
  destruct (edit_contact_name_resolved args book i old_name Hlen Hr)
    as (key & record & l1 & l2 & Hf & Hb & Hn & E).
  fold new_name in E. exists key, record.
  assert (key <> new_name) as Hk.
  { intros ->. apply Hne. apply (find_key _ _ _ _ Hf). }
  assert (In (new_name, other) (l1 ++ l2)) as Ho'.
  { rewrite Hb in Ho. apply in_app_iff in Ho as [?|[X|?]];
      apply in_app_iff; auto. injection X as -> _. congruence. }
  assert (NoDup (map fst (l1 ++ l2))) as ND'.
  { rewrite Hb, map_app in ND. simpl in ND.
    apply NoDup_remove_1 in ND. rewrite map_app. exact ND. }
  rewrite E. simpl. repeat split; auto.
  - assert (length (dict_set new_name (set_name record new_name) (l1 ++ l2))
            = length (l1 ++ l2)) as ->.
    { rewrite <- (length_map fst), (dict_set_keys _ _ other _ Ho').
      apply length_map. }
    rewrite Hb, !length_app. simpl. lia.
  - intros H. apply (dict_set_In _ _ _ _ _ ND') in H as [[_ ?]|[X _]];
      [assumption | congruence].
  - intros ->. apply (In_dict_set_same _ _ other _ Ho').
Qed.

Lemma edit_contact_name_overwrites_witness :
  exists key record,
    find book_ivan_petro (py "Ivan") = Some (key, record)
    /\ fst (edit_contact_name [py "Ivan"; py "Petro"] book_ivan_petro)
       = NameChanged (py "Petro")
    /\ S (length (snd (edit_contact_name [py "Ivan"; py "Petro"]
                         book_ivan_petro)))
       = length book_ivan_petro
    /\ forall x,
         In (py "Petro", x)
            (snd (edit_contact_name [py "Ivan"; py "Petro"] book_ivan_petro))
         <-> x = set_name record (py "Petro").
Proof.
  apply (edit_contact_name_overwrites [py "Ivan"; py "Petro"] book_ivan_petro
           1%nat (py "Ivan")
           (set_phones (Record_init (py "Petro")) [py "0671234567"])).
  - simpl; lia.
  - vm_compute. repeat constructor; simpl; intuition discriminate.
  - reflexivity.
  - right; left; reflexivity.
  - vm_compute. discriminate.
Defined.

(** ** What every command keeps *)

Lemma dict_set_NoDup (key : str) (r : ContactRecord) (book : AddressBook) :
  NoDup (map fst book) -> NoDup (map fst (dict_set key r book)).
Proof.
  intros ND.
  destruct (in_dec (list_eq_dec N.eq_dec) key (map fst book)) as [Hin|Hn].
  - apply in_map_iff in Hin as ([k r0] & E & Hin). simpl in E; subst k.
    rewrite (dict_set_keys _ _ _ _ Hin). exact ND.
  - rewrite (dict_set_fresh _ _ _ Hn), map_app. simpl.
    apply NoDup_app; auto.
    + constructor; [simpl; tauto | constructor].
    + intros a Ha [<-|[]]; tauto.
Qed.

(** Storing a record under its name keeps the book in order when its
    phones are valid and with no record of another key. *)
Lemma book_ok_put (book : AddressBook) (key : str) (r : ContactRecord) :
  book_ok book -> r_name r = key ->
  (forall p, In p (r_phones r) -> Phone p = Valid p) ->
  (forall k2 r2 p, In (k2, r2) book -> k2 <> key ->
     In p (r_phones r) -> In p (r_phones r2) -> False) ->
  book_ok (dict_set key r book).
Proof.
  intros [ND Hn Hv Hx] Hname Hvalid Hex. split.
  - apply dict_set_NoDup; exact ND.
  - intros k x H. apply (dict_set_In _ _ _ _ _ ND) in H as [[-> ->]|[_ H]];
      eauto.
  - intros k x p H Hp.
    apply (dict_set_In _ _ _ _ _ ND) in H as [[-> ->]|[_ H]]; eauto.
  - intros k1 r1 k2 r2 p H1 H2 Hne Hp1 Hp2.
    apply (dict_set_In _ _ _ _ _ ND) in H1 as [[-> ->]|[Hk1 H1]];
      apply (dict_set_In _ _ _ _ _ ND) in H2 as [[-> ->]|[Hk2 H2]].
    + congruence.
    + eapply Hex; eauto.
    + eapply Hex; eauto.
    + eauto.
Qed.

Lemma book_ok_same_but_one (book book' : AddressBook) :
  book_ok book -> same_but_one book book' -> book_ok book'.
Proof.
  intros Hok [->|(key & record & r' & Hin & Hname & Hincl & _ & _ & ->)];
    [exact Hok|].
  pose proof Hok as [ND Hn Hv Hx].
  apply book_ok_put; auto.
  - rewrite Hname. eauto.
  - intros p Hp. apply (Hv key record p Hin). apply Hincl; exact Hp.
  - intros k2 r2 p H2 Hne Hp Hp2.
    apply (Hx k2 r2 key record p); auto.
Qed.

Lemma book_ok_remove (l1 l2 : AddressBook) (e : str * ContactRecord) :
  book_ok (l1 ++ e :: l2) -> book_ok (l1 ++ l2).
Proof.
  intros [ND Hn Hv Hx].
  assert (forall x, In x (l1 ++ l2) -> In x (l1 ++ e :: l2)) as Hsub.
  { intros x H. apply in_app_iff in H as [?|?]; apply in_app_iff; simpl;
      auto. }
  split; eauto.
  rewrite map_app in *. simpl in ND. apply NoDup_remove_1 in ND. exact ND.
Qed.

Lemma same_but_one_stored (book : AddressBook) (name key : str)
  (record r' : ContactRecord) :
  find book name = Some (key, record) ->
  r_name r' = r_name record -> incl (r_phones r') (r_phones record) ->
  (email_ok record -> email_ok r') ->
  (birthday_ok record -> birthday_ok r') ->
  same_but_one book (dict_set key r' book).
Proof.
  intros Hf Hn Hi He Hb. right. exists key, record, r'.
  repeat split; auto. apply (find_In _ _ _ _ Hf).
Qed.

Lemma remove_first_incl (phone : str) (l : list str) :
  incl (remove_first phone l) l.
Proof.
  induction l as [|p l IH]; simpl; [apply incl_refl|].
  destruct (str_eqb p phone).
  - apply incl_tl, incl_refl.
  - intros x [<-|H]; simpl; auto.
Qed.

Lemma same_but_one_kept (book : AddressBook) (name key : str)
  (record r' : ContactRecord) :
  find book name = Some (key, record) ->
  r_name r' = r_name record /\ r_phones r' = r_phones record
  /\ r_email r' = r_email record /\ r_birthday r' = r_birthday record ->
  same_but_one book (dict_set key r' book).
Proof.
  intros Hf (E1 & E2 & E3 & E4).
  apply (same_but_one_stored book name key record r' Hf E1).
  - rewrite E2. apply incl_refl.
  - unfold email_ok. rewrite E3. auto.
  - unfold birthday_ok. rewrite E4. auto.
Qed.

Lemma Email_Valid (value v : str) :
  Email value = Valid v -> validate_email v = true.
Proof.
  unfold Email. destruct (validate_email value) eqn:E; [|discriminate].
  intros H; injection H as <-. exact E.
Qed.

Lemma Birthday_Accepted (today : date) (value v : str) :
  Birthday today value = Accepted v ->
  exists d, strptime_dmY v = Some d /\ (1930 <= year_of d)%Z.
Proof.
  unfold Birthday. destruct (strptime_dmY value) as [d|] eqn:E;
    [|discriminate].
  destruct (date_ltb today d); [discriminate|].
  destruct (Z.ltb_spec (year_of d) 1930) as [|Hy]; [discriminate|].
  intros Hv; injection Hv as <-. eauto.
Qed.

Lemma Record_edit_note_same (self self' : ContactRecord) (old new : str)
  (reply : Reply) :
  Record_edit_note self old new = Valid (reply, self') ->
  r_name self' = r_name self /\ r_phones self' = r_phones self
  /\ r_email self' = r_email self /\ r_birthday self' = r_birthday self.
Proof.
  unfold Record_edit_note.
  destruct (replace_note _ _ _ (r_notes self)) as [[l|msg]|];
    intros H; try discriminate; injection H as _ <-; auto.
Qed.

Lemma Record_remove_note_same (self : ContactRecord) (text : str) :
  r_name (snd (Record_remove_note self text)) = r_name self
  /\ r_phones (snd (Record_remove_note self text)) = r_phones self
  /\ r_email (snd (Record_remove_note self text)) = r_email self
  /\ r_birthday (snd (Record_remove_note self text)) = r_birthday self.
Proof.
  unfold Record_remove_note. destruct (List.find _ _); auto.
Qed.

Lemma Record_add_note_same (self self' : ContactRecord) (text : str)
  (tags : list str) (res : option Note) :
  Record_add_note self text tags = Valid (res, self') ->
  r_name self' = r_name self /\ r_phones self' = r_phones self
  /\ r_email self' = r_email self /\ r_birthday self' = r_birthday self.
Proof.
  unfold Record_add_note. destruct (Note_init text tags); [|discriminate].
  destruct (existsb _ _); intros H; injection H as _ <-; auto.
Qed.

(** Each command that works on one stored record leaves the others, the
    name of the record and its phones alone; [removephone] may drop a
    phone, and the email and the birthday commands store what [Email] and
    [Birthday] accept. *)
Lemma commands_same_but_one (today : date) (args : list str)
  (book : AddressBook) :
  same_but_one book (snd (remove_phone args book))
  /\ same_but_one book (snd (add_birthday today args book))
  /\ same_but_one book (snd (edit_birthday today args book))
  /\ same_but_one book (snd (remove_birthday args book))
  /\ same_but_one book (snd (add_email args book))
  /\ same_but_one book (snd (edit_email args book))
  /\ same_but_one book (snd (remove_email args book))
  /\ same_but_one book (snd (add_address args book))
  /\ same_but_one book (snd (edit_address args book))
  /\ same_but_one book (snd (remove_address args book))
  /\ same_but_one book (snd (add_note args book))
  /\ same_but_one book (snd (edit_note args book))
  /\ same_but_one book (snd (remove_note args book))
  /\ same_but_one book (snd (add_tag_to_note args book))
  /\ same_but_one book (snd (remove_tag_from_note args book)).
Proof.
  repeat split.
  - unfold remove_phone, remove_phone_body.
    destruct (length args <? 2)%nat; [left; reflexivity|].
    destruct (find book _) as [[key record]|] eqn:EF; [|left; reflexivity].
    unfold Record_remove_phone.
    destruct (find_phone record _); simpl; [|left; reflexivity].
    stored_by same_but_one_stored EF. apply remove_first_incl.
  - unfold add_birthday, add_birthday_body.
    destruct (length args <? 2)%nat; [left; reflexivity|].
    destruct (strptime_dmY _); [|left; reflexivity].
    destruct (find book _) as [[key record]|] eqn:EF; [|left; reflexivity].
    destruct (r_birthday record); [left; reflexivity|].
    unfold Record_add_birthday.
    destruct (Birthday today _) as [v|] eqn:EB; simpl; [|left; reflexivity].
    stored_by same_but_one_stored EF.
    intros _ v0 H0. injection H0 as <-.
    apply (Birthday_Accepted _ _ _ EB).
  - unfold edit_birthday, edit_birthday_body.
    destruct (length args <? 2)%nat; [left; reflexivity|].
    destruct (find book _) as [[key record]|] eqn:EF; [|left; reflexivity].
    unfold Record_edit_birthday.
    destruct (Birthday today _) as [v|] eqn:EB; simpl; [|left; reflexivity].
    stored_by same_but_one_stored EF.
    intros _ v0 H0. injection H0 as <-.
    apply (Birthday_Accepted _ _ _ EB).
  - unfold remove_birthday, remove_birthday_body.
    destruct args; [left; reflexivity|].
    destruct (find book _) as [[key record]|] eqn:EF; [|left; reflexivity].
    simpl. stored_by same_but_one_stored EF.
    intros _ v0 H0. discriminate.
  - unfold add_email, add_email_body.
    destruct (length args <? 2)%nat; [left; reflexivity|].
    destruct (resolve addemail book args) as [[i name]|]; [|left; reflexivity].
    destruct (find book _) as [[key record]|] eqn:EF; [|left; reflexivity].
    destruct (r_email record); [left; reflexivity|].
    unfold Record_add_email.
    destruct (Email _) as [v|] eqn:EE; simpl; [|left; reflexivity].
    stored_by same_but_one_stored EF.
    intros _ v0 H0. injection H0 as <-. apply (Email_Valid _ _ EE).
  - unfold edit_email, edit_email_body.
    destruct (length args <? 2)%nat; [left; reflexivity|].
    destruct (resolve editemail book args) as [[i name]|];
      [|left; reflexivity].
    destruct (find book _) as [[key record]|] eqn:EF; [|left; reflexivity].
    unfold Record_edit_email. destruct (r_email record);
      [|left; reflexivity].
    destruct (Email _) as [v|] eqn:EE; simpl; [|left; reflexivity].
    stored_by same_but_one_stored EF.
    intros _ v0 H0. injection H0 as <-. apply (Email_Valid _ _ EE).
  - unfold remove_email, remove_email_body.
    destruct args; [left; reflexivity|].
    destruct (resolve removeemail book _) as [[i name]|];
      [|left; reflexivity].
    destruct (find book _) as [[key record]|] eqn:EF; [|left; reflexivity].
    destruct (r_email record); simpl; [|left; reflexivity].
    stored_by same_but_one_stored EF.
    intros _ v0 H0. discriminate.
  - unfold add_address, add_address_body.
    destruct (length args <? 2)%nat; [left; reflexivity|].
    destruct (resolve addaddress book args) as [[i name]|];
      [|left; reflexivity].
    destruct (find book _) as [[key record]|] eqn:EF; [|left; reflexivity].
    destruct (r_address record); simpl;
      [left; reflexivity | stored_by same_but_one_stored EF].
  - unfold edit_address, edit_address_body.
    destruct (length args <? 2)%nat; [left; reflexivity|].
    destruct (resolve editaddress book args) as [[i name]|];
      [|left; reflexivity].
    destruct (find book _) as [[key record]|] eqn:EF; [|left; reflexivity].
    simpl. apply (same_but_one_kept _ _ _ _ _ EF).
    unfold Record_edit_address. destruct (r_address record); auto.
  - unfold remove_address, remove_address_body.
    destruct args; [left; reflexivity|].
    destruct (find book _) as [[key record]|] eqn:EF; [|left; reflexivity].
    destruct (r_address record); simpl;
      [stored_by same_but_one_stored EF | left; reflexivity].
  - unfold add_note, add_note_body.
    destruct (length args <? 2)%nat; [left; reflexivity|].
    destruct (resolve addnote book args) as [[i name]|]; [|left; reflexivity].
    destruct (find book _) as [[key record]|] eqn:EF; [|left; reflexivity].
    destruct (Record_add_note record _ _) as [[[n|] r']|msg] eqn:EN; simpl;
      try (left; reflexivity).
    apply Record_add_note_same in EN.
    apply (same_but_one_kept _ _ _ _ _ EF EN).
  - unfold edit_note, edit_note_body.
    destruct (length args <? 3)%nat; [left; reflexivity|].
    destruct (resolve editnote book args) as [[i name]|];
      [|left; reflexivity].
    destruct (find book _) as [[key record]|] eqn:EF; [|left; reflexivity].
    destruct (scan_old_note _ _ _ _) as [j|]; [|left; reflexivity].
    destruct (Record_edit_note record _ _) as [[result r']|msg] eqn:EN;
      [|left; reflexivity].
    apply Record_edit_note_same in EN.
    destruct (says_edited result); simpl;
      apply (same_but_one_kept _ _ _ _ _ EF); exact EN.
  - unfold remove_note, remove_note_body.
    destruct args; [left; reflexivity|].
    destruct (resolve removenote book _) as [[i name]|];
      [|left; reflexivity].
    destruct (find book _) as [[key record]|] eqn:EF; [|left; reflexivity].
    destruct (strip _) as [|c0 s0];
      [destruct (r_notes record); simpl;
       [left; reflexivity | stored_by same_but_one_stored EF]|].
    pose proof (Record_remove_note_same record (c0 :: s0)) as EN.
    destruct (Record_remove_note record (c0 :: s0)) as [msg r'].
    simpl in *. apply (same_but_one_kept _ _ _ _ _ EF EN).
  - unfold add_tag_to_note, add_tag_to_note_body.
    destruct (length args <? 3)%nat; [left; reflexivity|].
    destruct (resolve addtag book args) as [[i name]|]; [|left; reflexivity].
    destruct (find book _) as [[key record]|] eqn:EF; [|left; reflexivity].
    destruct (tag_first_match _ _ _) as [[msg l]|]; simpl;
      [stored_by same_but_one_stored EF | left; reflexivity].
  - unfold remove_tag_from_note, remove_tag_from_note_body.
    destruct (length args <? 2)%nat; [left; reflexivity|].
    destruct (resolve removetag book args) as [[i name]|];
      [|left; reflexivity].
    destruct (skipn i args) as [|a0 rest0]; [left; reflexivity|].
    destruct (find book _) as [[key record]|] eqn:EF; [|left; reflexivity].
    destruct (untag_first_match _ _ _) as [[msg notes']|]; simpl;
      [stored_by same_but_one_stored EF | left; reflexivity].
Qed.

(** X8.  Whatever commands are run, from the empty book on, the keys of
    the book stay pairwise distinct, every record is stored under its
    own name, every stored phone has passed [Phone], and no phone is in
    the lists of two records. *)
Theorem session_keeps_book_in_order (book : AddressBook) :
  session book -> book_ok book /\ phones_exclusive book.
Proof.
  intros H. assert (book_ok book) as Hok; [|split; [exact Hok|]].
  2:{ apply book_ok_exclusive; exact Hok. }
  induction H as [|args book _ IH|args book _ IH|args book _ IH
                  |args book _ IH|args book _ IH|args book _ IH
                  |today args book _ IH|today args book _ IH|args book _ IH
                  |args book _ IH|args book _ IH|args book _ IH
                  |args book _ IH|args book _ IH|args book _ IH
                  |args book _ IH|args book _ IH|args book _ IH
                  |args book _ IH|args book _ IH].
  - split; simpl; try tauto. constructor.
  - destruct (add_contact_cases args book)
      as [->|(record & _ & -> & He & Hl)]; auto.
    apply book_ok_append; auto.
  - destruct (Nat.ltb_spec (length args) 2) as [Hl|Hl].
    { unfold edit_contact_name, edit_contact_name_body.
      apply Nat.ltb_lt in Hl. rewrite Hl. exact IH. }
    destruct (resolve editname book args) as [[i old_name]|] eqn:Hr.
    2:{ unfold edit_contact_name, edit_contact_name_body.
        apply Nat.ltb_ge in Hl. rewrite Hl, Hr. exact IH. }
    destruct (edit_contact_name_resolved args book i old_name Hl Hr)
      as (key & record & l1 & l2 & Hf & Hb & Hn & ->). simpl.
    pose proof IH as [ND Hname Hv Hx].
    assert (In (key, record) book) as Hin by (apply (find_In _ _ _ _ Hf)).
    rewrite Hb in IH. apply book_ok_remove in IH.
    apply book_ok_put; auto.
    + intros p Hp. apply (Hv key record p Hin Hp).
    + intros k2 r2 p H2 _ Hp Hp2.
      assert (In (k2, r2) book) as H2'.
      { rewrite Hb. apply in_app_iff in H2 as [?|?]; apply in_app_iff;
          simpl; auto. }
      apply (Hx k2 r2 key record p); auto.
      intros ->. rewrite Hb, map_app in ND. simpl in ND.
      apply NoDup_remove_2 in ND. apply ND. rewrite <- map_app.
      apply in_map_iff. exists (key, r2). auto.
  - unfold remove_contact, remove_contact_body.
    destruct args as [|a args']; [exact IH|].
    pose proof (delete_find_split book
                  (normalize_name (unwords (a :: args')))) as D.
    destruct (find book _) as [[key record]|].
    + destruct D as (l1 & l2 & Hb & _ & ->). simpl.
      rewrite Hb in IH. apply (book_ok_remove _ _ _ IH).
    + rewrite D. exact IH.
  - unfold add_phone_to_contact, add_phone_to_contact_body.
    destruct (length args <? 2)%nat; [exact IH|].
    destruct (find book _) as [[key record]|] eqn:EF; [|exact IH].
    pose proof (book_ok_Record_add_phone book key record (last_arg args) IH
                  (find_In _ _ _ _ EF)) as H.
    destruct (Record_add_phone record (Some key) (last_arg args) book)
      as [[msg|] r']; simpl in *; auto.
  - unfold change_contact, change_contact_body.
    destruct (length args <? 3)%nat; [exact IH|].
    destruct (find book _) as [[key record]|] eqn:EF; [|exact IH].
    pose proof (book_ok_Record_edit_phone book key record
                  (last_arg (but_last args)) (last_arg args) IH
                  (find_In _ _ _ _ EF)) as H.
    destruct (Record_edit_phone record (Some key) _ _ book)
      as [[msg|] r']; simpl in *; auto.
  - apply (book_ok_same_but_one book); auto.
    apply (commands_same_but_one (mkdate 1 1 1) args book).
  - apply (book_ok_same_but_one book); auto.
    apply (commands_same_but_one today args book).
  - apply (book_ok_same_but_one book); auto.
    apply (commands_same_but_one today args book).
  - apply (book_ok_same_but_one book); auto.
    apply (commands_same_but_one (mkdate 1 1 1) args book).
  - apply (book_ok_same_but_one book); auto.
    apply (commands_same_but_one (mkdate 1 1 1) args book).
  - apply (book_ok_same_but_one book); auto.
    apply (commands_same_but_one (mkdate 1 1 1) args book).
  - apply (book_ok_same_but_one book); auto.
    apply (commands_same_but_one (mkdate 1 1 1) args book).
  - apply (book_ok_same_but_one book); auto.
    apply (commands_same_but_one (mkdate 1 1 1) args book).
  - apply (book_ok_same_but_one book); auto.
    apply (commands_same_but_one (mkdate 1 1 1) args book).
  - apply (book_ok_same_but_one book); auto.
    apply (commands_same_but_one (mkdate 1 1 1) args book).
  - apply (book_ok_same_but_one book); auto.
    apply (commands_same_but_one (mkdate 1 1 1) args book).
  - apply (book_ok_same_but_one book); auto.
    apply (commands_same_but_one (mkdate 1 1 1) args book).
  - apply (book_ok_same_but_one book); auto.
    apply (commands_same_but_one (mkdate 1 1 1) args book).
  - apply (book_ok_same_but_one book); auto.
    apply (commands_same_but_one (mkdate 1 1 1) args book).
  - apply (book_ok_same_but_one book); auto.
    apply (commands_same_but_one (mkdate 1 1 1) args book).
Qed.

Lemma session_keeps_book_in_order_witness :
  book_ok book_after_session /\ phones_exclusive book_after_session.
Proof.
  apply (session_keeps_book_in_order book_after_session).
  apply session_remove_phone, session_edit_contact_name, session_add_note.
  apply session_add_contact, session_add_contact, session_empty.
Defined.

(** ** The defensive paths of the scanning commands *)

Lemma Note_add_tags_message (self : Note) (l : list str) (msg : Reply) :
  Note_add_tags self l = Invalid msg -> exists tag, msg = InvalidTag tag.
Proof.
  revert self; induction l as [|tag l IH]; simpl; intros self;
    [discriminate|].
  unfold Note_add_tag. destruct (TAG_PATTERN_fullmatch _).
  - apply IH.
  - intros H; injection H as <-. eauto.
Qed.

Lemma Record_add_note_message (self : ContactRecord) (text : str)
  (tags : list str) (msg : Reply) :
  Record_add_note self text tags = Invalid msg ->
  exists tag, msg = InvalidTag tag.
Proof.
  unfold Record_add_note, Note_init.
  destruct (Note_add_tags _ tags) as [n|m] eqn:E.
  - destruct (existsb _ _); discriminate.
  - intros H; injection H as <-. apply (Note_add_tags_message _ _ _ E).
Qed.

Lemma tag_first_match_message (note_text tag : str) (l l' : list Note)
  (msg : Reply) :
  tag_first_match note_text tag l = Some (msg, l') ->
  msg <> SomethingWentWrong.
Proof.
  revert l'; induction l as [|note l IH]; simpl; intros l'; [discriminate|].
  destruct (str_eqb _ _).
  - destruct (set_mem tag (n_tags note)).
    + intros H; injection H as <- _; discriminate.
    + unfold Note_add_tag. destruct (TAG_PATTERN_fullmatch _);
        intros H; injection H as <- _; discriminate.
  - destruct (tag_first_match note_text tag l) as [[m l0]|]; [|discriminate].
    intros H; injection H as <- _. apply (IH l0 eq_refl).
Qed.

Lemma replace_note_message (old new : str) (tags : list str)
  (l : list Note) (msg : Reply) :
  replace_note old new tags l = Some (Invalid msg) ->
  exists tag, msg = InvalidTag tag.
Proof.
  induction l as [|note l IH]; simpl; [discriminate|].
  destruct (str_eqb _ _).
  - destruct (Note_init new tags) as [n|m] eqn:E; [discriminate|].
    intros H; injection H as <-.
    apply (Note_add_tags_message _ _ _ E).
  - destruct (replace_note old new tags l) as [[l0|m]|]; try discriminate.
    intros H; injection H as <-. apply IH; reflexivity.
Qed.

Lemma Record_edit_note_message (self : ContactRecord) (old new : str) :
  match Record_edit_note self old new with
  | Valid (result, _) => result = NoteEdited \/ result = NoteNotFound
  | Invalid msg => exists tag, msg = InvalidTag tag
  end.
Proof.
  unfold Record_edit_note.
  destruct (replace_note _ _ _ (r_notes self)) as [[l|m]|] eqn:E; auto.
  apply (replace_note_message _ _ _ _ _ E).
Qed.

Lemma untag_first_match_message (note_text : str) (tag : option str)
  (l l' : list Note) (msg : MoreReply) :
  untag_first_match note_text tag l = Some (msg, l') ->
  msg <> Earlier SomethingWentWrong.
Proof.
  revert l'; induction l as [|note l IH]; simpl; intros l'; [discriminate|].
  destruct (str_eqb _ _).
  - destruct tag as [[|c t]|].
    + destruct (n_tags note); intros H; injection H as <- _; discriminate.
    + destruct (set_mem _ _); intros H; injection H as <- _; discriminate.
    + destruct (n_tags note); intros H; injection H as <- _; discriminate.
  - destruct (untag_first_match note_text tag l) as [[m l0]|];
      [|discriminate].
    intros H; injection H as <- _. apply (IH l0 eq_refl).
Qed.

(** X9.  A command that finds the name by scanning never answers
    [Something went wrong]: once a prefix of the tokens names a contact,
    [find] answers its record. *)
Theorem scanning_commands_find_their_contact (args : list str)
  (book : AddressBook) :
  fst (add_address args book) <> SomethingWentWrong
  /\ fst (add_note args book) <> SomethingWentWrong
  /\ fst (remove_note args book) <> SomethingWentWrong
  /\ fst (add_tag_to_note args book) <> SomethingWentWrong
  /\ fst (edit_contact_name args book) <> Earlier SomethingWentWrong
  /\ fst (add_email args book) <> Earlier SomethingWentWrong
  /\ fst (edit_email args book) <> Earlier SomethingWentWrong
  /\ fst (edit_address args book) <> Earlier SomethingWentWrong
  /\ fst (edit_note args book) <> Earlier SomethingWentWrong
  /\ fst (remove_tag_from_note args book) <> Earlier SomethingWentWrong.
Proof.
  repeat split.
  - unfold add_address, add_address_body.
    destruct (length args <? 2)%nat; [discriminate|].
    destruct (resolve addaddress book args) as [[i name]|] eqn:Hr;
      [|discriminate].
    destruct (resolved_name_found _ _ _ _ _ Hr) as (key & record & -> & _).
    destruct (r_address record); discriminate.
  - unfold add_note, add_note_body.
    destruct (length args <? 2)%nat; [discriminate|].
    destruct (resolve addnote book args) as [[i name]|] eqn:Hr;
      [|discriminate].
    destruct (resolved_name_found _ _ _ _ _ Hr) as (key & record & -> & _).
    destruct (Record_add_note record _ _) as [[[n|] r']|msg] eqn:E;
      try discriminate.
    apply Record_add_note_message in E as [tag ->]. discriminate.
  - unfold remove_note, remove_note_body.
    destruct args as [|a args']; [discriminate|].
    destruct (resolve removenote book _) as [[i name]|] eqn:Hr;
      [|discriminate].
    destruct (resolved_name_found _ _ _ _ _ Hr) as (key & record & -> & _).
    destruct (strip _); [destruct (r_notes record); discriminate|].
    destruct (Record_remove_note record _). discriminate.
  - unfold add_tag_to_note, add_tag_to_note_body.
    destruct (length args <? 3)%nat; [discriminate|].
    destruct (resolve addtag book args) as [[i name]|] eqn:Hr;
      [|discriminate].
    destruct (resolved_name_found _ _ _ _ _ Hr) as (key & record & -> & _).
    destruct (tag_first_match _ _ _) as [[msg l]|] eqn:E; [|discriminate].
    apply (tag_first_match_message _ _ _ _ _ E).
  - unfold edit_contact_name, edit_contact_name_body.
    destruct (length args <? 2)%nat; [discriminate|].
    destruct (resolve editname book args) as [[i name]|] eqn:Hr;
      [|discriminate].
    destruct (resolved_name_found _ _ _ _ _ Hr) as (key & record & -> & _).
    destruct (delete book name). discriminate.
  - unfold add_email, add_email_body.
    destruct (length args <? 2)%nat; [discriminate|].
    destruct (resolve addemail book args) as [[i name]|] eqn:Hr;
      [|discriminate].
    destruct (resolved_name_found _ _ _ _ _ Hr) as (key & record & -> & _).
    destruct (r_email record); [discriminate|].
    unfold Record_add_email, Email. destruct (validate_email _);
      discriminate.
  - unfold edit_email, edit_email_body.
    destruct (length args <? 2)%nat; [discriminate|].
    destruct (resolve editemail book args) as [[i name]|] eqn:Hr;
      [|discriminate].
    destruct (resolved_name_found _ _ _ _ _ Hr) as (key & record & -> & _).
    unfold Record_edit_email, Email. destruct (r_email record);
      [|discriminate].
    destruct (validate_email _); discriminate.
  - unfold edit_address, edit_address_body.
    destruct (length args <? 2)%nat; [discriminate|].
    destruct (resolve editaddress book args) as [[i name]|] eqn:Hr;
      [|discriminate].
    destruct (resolved_name_found _ _ _ _ _ Hr) as (key & record & -> & _).
    discriminate.
  - unfold edit_note, edit_note_body.
    destruct (length args <? 3)%nat; [discriminate|].
    destruct (resolve editnote book args) as [[i name]|] eqn:Hr;
      [|discriminate].
    destruct (resolved_name_found _ _ _ _ _ Hr) as (key & record & -> & _).
    destruct (scan_old_note _ _ _ _) as [j|]; [|discriminate].
    match goal with |- context [Record_edit_note ?r ?o ?n] =>
      pose proof (Record_edit_note_message r o n) as M;
      destruct (Record_edit_note r o n) as [[result r']|msg] end.
    + destruct M as [->| ->]; discriminate.
    + destruct M as [tag ->]. discriminate.
  - unfold remove_tag_from_note, remove_tag_from_note_body.
    destruct (length args <? 2)%nat; [discriminate|].
    destruct (resolve removetag book args) as [[i name]|] eqn:Hr;
      [|discriminate].
    destruct (skipn i args) as [|a0 rest0]; [discriminate|].
    destruct (resolved_name_found _ _ _ _ _ Hr) as (key & record & -> & _).
    destruct (untag_first_match _ _ _) as [[msg l]|] eqn:E; [|discriminate].
    apply (untag_first_match_message _ _ _ _ _ E).
Qed.

(** ** Writing a date and reading it back *)

Lemma Zseq_In (lo : Z) (n : nat) (k : Z) :
  (lo <= k < lo + Z.of_nat n)%Z -> In k (Zseq lo n).
Proof.
  intros H. unfold Zseq. apply in_map_iff.
  exists (Z.to_nat (k - lo)). split; [lia|]. apply in_seq. lia.
Qed.

Lemma split_on_no_sep (sep : char) (f : str) :
  contains sep f = false -> split_on sep f = [f].
Proof.
  unfold contains. induction f as [|c f IH]; simpl; [reflexivity|].
  intros H. apply orb_false_iff in H as [-> H]. rewrite IH by exact H.
  reflexivity.
Qed.

Lemma split_on_field (sep : char) (f rest : str) :
  contains sep f = false ->
  split_on sep (f ++ sep :: rest) = f :: split_on sep rest.
Proof.
  unfold contains. induction f as [|c f IH]; simpl; intros H.
  - rewrite N.eqb_refl. reflexivity.
  - apply orb_false_iff in H as [-> H]. rewrite IH by exact H. reflexivity.
Qed.

Lemma field_ok_spec (parse : str -> option Z) (fmt : Z -> str) (k : Z) :
  field_ok parse fmt k = true ->
  contains ch_dot (fmt k) = false /\ parse (fmt k) = Some k.
Proof.
  unfold field_ok. intros H. apply andb_true_iff in H as [H1 H2].
  apply negb_true_iff in H1. split; [exact H1|].
  destruct (parse (fmt k)) as [v|]; [|discriminate].
  apply Z.eqb_eq in H2. congruence.
Qed.

Lemma days_written_and_read (k : Z) :
  (1 <= k <= 31)%Z -> field_ok parse_day two_digits k = true.
Proof.
  intros H.
  assert (forallb (field_ok parse_day two_digits) (Zseq 1 31) = true) as A
    by (vm_compute; reflexivity).
  rewrite forallb_forall in A. apply A, Zseq_In. lia.
Qed.

Lemma months_written_and_read (k : Z) :
  (1 <= k <= 12)%Z -> field_ok parse_month two_digits k = true.
Proof.
  intros H.
  assert (forallb (field_ok parse_month two_digits) (Zseq 1 12) = true) as A
    by (vm_compute; reflexivity).
  rewrite forallb_forall in A. apply A, Zseq_In. lia.
Qed.

Lemma years_written_and_read (k : Z) :
  (1 <= k <= 9999)%Z -> field_ok parse_year four_digits k = true.
Proof.
  intros H.
  assert (forallb (field_ok parse_year four_digits)
            (Zseq 1 (Z.to_nat 9999)) = true)
    as A by (vm_compute; reflexivity).
  rewrite forallb_forall in A. apply A, Zseq_In.
  rewrite Z2Nat.id; lia.
Qed.

(** X10.  A date that [strftime("%d.%m.%Y")] writes, as in the lines of
    [get_upcoming_birthdays], is read back by
    [strptime(.., "%d.%m.%Y")], as in [Birthday], to the same date; the
    year has four digits. *)
Theorem date_written_is_read_back (d : date) :
  valid_date d = true -> (1000 <= year_of d)%Z ->
  strptime_dmY (strftime_dmY d) = Some d.
Proof.
  destruct d as [y m dd]. unfold valid_date. cbn [year_of month_of day_of].
  intros V Hy. pose proof V as V'.
  apply valid_ymd_spec in V' as (By & Bm & Bd).
  assert (days_in_month y m <= 31)%Z as Bdim.
  { unfold days_in_month. destruct (m =? 2)%Z; [destruct (is_leap y); lia|].
    destruct (_ || _); lia. }
  destruct (field_ok_spec _ _ _ (days_written_and_read dd ltac:(lia)))
    as [D1 D2].
  destruct (field_ok_spec _ _ _ (months_written_and_read m ltac:(lia)))
    as [M1 M2].
  destruct (field_ok_spec _ _ _ (years_written_and_read y ltac:(lia)))
    as [Y1 Y2].
  unfold strptime_dmY, strftime_dmY. cbn [year_of month_of day_of].
  change ([ch_dot] ++ ?x) with (ch_dot :: x).
  rewrite (split_on_field ch_dot (two_digits dd) _ D1).
  change ([ch_dot] ++ ?x) with (ch_dot :: x).
  rewrite (split_on_field ch_dot (two_digits m) _ M1).
  rewrite (split_on_no_sep ch_dot _ Y1).
  rewrite D2, M2, Y2. unfold make_date. rewrite V. reflexivity.
Qed.

Lemma date_written_is_read_back_witness :
  strptime_dmY (strftime_dmY today_2025_05_10) = Some today_2025_05_10.
Proof.
  apply (date_written_is_read_back today_2025_05_10).
  - reflexivity.
  - vm_compute. discriminate.
Defined.

(** ** The dates on the list of birthdays *)

Lemma lines_of_In (today : date) (days : Z) (records : list ContactRecord)
  (line : str) :
  In line (lines_of today days records)
  <-> exists record, In record records
                     /\ upcoming_line today days record = Some line.
Proof.
  unfold lines_of. rewrite in_flat_map. split.
  - intros (record & Hin & H). exists record. split; [exact Hin|].
    destruct (upcoming_line today days record) as [l|]; [|destruct H].
    destruct H as [<-|[]]. reflexivity.
  - intros (record & Hin & H). exists record. split; [exact Hin|].
    rewrite H. left. reflexivity.
Qed.

Lemma get_upcoming_birthdays_lines (book : AddressBook) (today : date) :
  valid_date today = true ->
  (toordinal today + 7 <= MAXORDINAL)%Z ->
  get_upcoming_birthdays book today 7
  = Some (lines_of today 7 (map snd book)).
Proof.
  intros V H. pose proof (toordinal_bounds today V) as B.
  destruct (date_add_spec today 7 V ltac:(lia)) as (Ea & _ & _).
  unfold get_upcoming_birthdays. rewrite Ea.
  apply (upcoming_loop_lines today (map snd book) [] V H).
Qed.

(** X11.  Every line of [get_upcoming_birthdays] is the name of a record
    of the book and a date that is a working day, Monday to Friday, from
    0 to 9 days after today. *)
Theorem upcoming_dates_are_working_days (book : AddressBook) (today : date)
  (lines : list str) (line : str) :
  valid_date today = true ->
  (toordinal today + 7 <= MAXORDINAL)%Z ->
  get_upcoming_birthdays book today 7 = Some lines ->
  In line lines ->
  exists key record c,
    In (key, record) book
    /\ line = r_name record ++ py ": " ++ strftime_dmY c
    /\ valid_date c = true
    /\ (0 <= weekday c <= 4)%Z
    /\ (0 <= days_from today c <= 9)%Z.
Proof.
  intros V H E Hin.
  rewrite (get_upcoming_birthdays_lines book today V H) in E.
  injection E as <-.
  apply lines_of_In in Hin as (record & Hr & Hl).
  apply in_map_iff in Hr as ([key r] & Er & Hr). simpl in Er; subst r.
  exists key, record. unfold upcoming_line in Hl.
  destruct (r_birthday record) as [value|]; [|discriminate].
  destruct (strptime_dmY value) as [bd|]; [|discriminate].
  destruct (next_occurrence today bd) as [d|] eqn:En; [|discriminate].
  destruct (Z.leb_spec 0 (days_from today d)) as [L1|]; [|discriminate].
  destruct (Z.leb_spec (days_from today d) 7) as [L2|]; [|discriminate].
  simpl in Hl. injection Hl as <-.
  pose proof (next_occurrence_valid _ _ _ En) as Vd.
  pose proof (weekend_shift_in_range d Vd) as R.
  destruct (fromordinal_spec _ R) as [Vc Oc].
  exists (congratulation_date d). unfold congratulation_date.
  repeat split; auto; unfold weekday, days_from in *; rewrite ?Oc;
    unfold weekend_shift, weekday in *;
    destruct (Z.eqb_spec ((toordinal d + 6) mod 7) 5);
    try destruct (Z.eqb_spec ((toordinal d + 6) mod 7) 6);
    Z.div_mod_to_equations; lia.
Qed.

Lemma upcoming_dates_are_working_days_witness :
  exists key record c,
    In (key, record) book_birthdays
    /\ py "Olha: 19.05.2025" = r_name record ++ py ": " ++ strftime_dmY c
    /\ valid_date c = true
    /\ (0 <= weekday c <= 4)%Z
    /\ (0 <= days_from today_2025_05_10 c <= 9)%Z.
Proof.
  apply (upcoming_dates_are_working_days book_birthdays today_2025_05_10
           [py "Ivan: 15.05.2025"; py "Olha: 19.05.2025"]
           (py "Olha: 19.05.2025")).
  - reflexivity.
  - vm_compute. discriminate.
  - vm_compute. reflexivity.
  - simpl. right. left. reflexivity.
Defined.

(** X12.  A contact whose birthday has the day and the month of today is
    on the list of [get_upcoming_birthdays], with the date of today, or of
    the Monday after it when today is a Saturday or a Sunday; the command
    [upcomingbdays] then answers the list, its lines joined by newlines,
    and leaves the book as it is. *)
Theorem birthday_today_is_listed (book : AddressBook) (today : date)
  (key : str) (record : ContactRecord) (value : str) (birthday_date : date) :
  valid_date today = true ->
  (toordinal today + 7 <= MAXORDINAL)%Z ->
  In (key, record) book ->
  r_birthday record = Some value ->
  strptime_dmY value = Some birthday_date ->
  month_of birthday_date = month_of today ->
  day_of birthday_date = day_of today ->
  exists lines,
    get_upcoming_birthdays book today 7 = Some lines
    /\ In (r_name record ++ py ": "
           ++ strftime_dmY (congratulation_date today)) lines
    /\ days_from today (congratulation_date today)
       = (if weekday today =? 5 then 2
          else if weekday today =? 6 then 1 else 0)%Z
    /\ upcoming_birthdays today [] book
       = (Upcoming (join [10%N] lines), book).
Proof.
  intros V H Hin Hb Hp Hm Hd.
  exists (lines_of today 7 (map snd book)).
  split; [apply (get_upcoming_birthdays_lines book today V H)|].
  assert (In (r_name record ++ py ": "
              ++ strftime_dmY (congratulation_date today))
            (lines_of today 7 (map snd book))) as Hline.
  { apply lines_of_In. exists record. split.
    - apply in_map_iff. exists (key, record). auto.
    - unfold upcoming_line. rewrite Hb, Hp.
      assert (next_occurrence today birthday_date = Some today) as ->.
      { unfold next_occurrence, replace_year, make_date.
        rewrite Hm, Hd. destruct today as [y m d].
        unfold valid_date in V. cbn [year_of month_of day_of] in *.
        rewrite V.
        assert (date_ltb (mkdate y m d) (mkdate y m d) = false) as ->;
          [|reflexivity].
        unfold date_ltb. cbn [year_of month_of day_of].
        rewrite !Z.ltb_irrefl, !Z.eqb_refl. reflexivity. }
      unfold days_from. rewrite Z.sub_diag. reflexivity. }
  split; [exact Hline|]. split.
  - pose proof (weekend_shift_in_range today V) as R.
    destruct (fromordinal_spec _ R) as [_ Oc].
    unfold days_from, congratulation_date. rewrite Oc.
    unfold weekend_shift. lia.
  - unfold upcoming_birthdays, upcoming_birthdays_body.
    rewrite (get_upcoming_birthdays_lines book today V H).
    destruct (lines_of today 7 (map snd book)); [destruct Hline|].
    reflexivity.
Qed.

Lemma birthday_today_is_listed_witness :
  exists lines,
    get_upcoming_birthdays [with_birthday (py "Ivan") (py "10.05.1990")]
      today_2025_05_10 7 = Some lines
    /\ In (py "Ivan: " ++ strftime_dmY (congratulation_date today_2025_05_10))
         lines
    /\ days_from today_2025_05_10 (congratulation_date today_2025_05_10)
       = 2%Z
    /\ upcoming_birthdays today_2025_05_10 []
         [with_birthday (py "Ivan") (py "10.05.1990")]
       = (Upcoming (join [10%N] lines),
          [with_birthday (py "Ivan") (py "10.05.1990")]).
Proof.
  apply (birthday_today_is_listed
           [with_birthday (py "Ivan") (py "10.05.1990")] today_2025_05_10
           (py "Ivan") (snd (with_birthday (py "Ivan") (py "10.05.1990")))
           (py "10.05.1990") (mkdate 1990 5 10)).
  - reflexivity.
  - vm_compute. discriminate.
  - left. reflexivity.
  - reflexivity.
  - vm_compute. reflexivity.
  - reflexivity.
  - reflexivity.
Defined.

(** ** Names and lines *)

Lemma ascii_lower_ok_all (c : char) :
  is_ascii c = true -> ascii_lower_ok c = true.
Proof. apply ascii_forall. vm_compute. reflexivity. Qed.

Lemma ascii_lower_char (c : char) :
  is_ascii c = true ->
  exists l, lower_char c = [l]
            /\ title_char l = title_char c
            /\ lower_char l = [l]
            /\ is_ascii l = true
            /\ isspace_char l = isspace_char c
            /\ (l =? ch_hyphen)%N = (c =? ch_hyphen)%N.
Proof.
  intros H. pose proof (ascii_lower_ok_all c H) as F.
  unfold ascii_lower_ok in F.
  destruct (lower_char c) as [|l [|? ?]]; try discriminate.
  repeat (apply andb_true_iff in F as [F ?]).
  repeat match goal with
         | X : Bool.eqb _ _ = true |- _ => apply Bool.eqb_prop in X
         | X : str_eqb _ _ = true |- _ => apply str_eqb_eq in X
         end.
  exists l. auto 10.
Qed.

Lemma lower_app (a b : str) : lower (a ++ b) = lower a ++ lower b.
Proof. unfold lower. apply flat_map_app. Qed.

Lemma lower_idem_ascii (s : str) :
  forallb is_ascii s = true -> lower (lower s) = lower s.
Proof.
  induction s as [|c s IH]; [reflexivity|]. simpl. intros H.
  apply andb_true_iff in H as [Hc H].
  destruct (ascii_lower_char c Hc) as (l & E & _ & El & _).
  change (lower (c :: s)) with (lower_char c ++ lower s).
  rewrite E. simpl. change (lower (l :: lower s))
    with (lower_char l ++ lower (lower s)).
  rewrite El, IH by exact H. reflexivity.
Qed.

Lemma cap_from_lower (start : bool) (w : str) :
  forallb is_ascii w = true -> cap_from start (lower w) = cap_from start w.
Proof.
  revert start; induction w as [|c w IH]; intros start H; [reflexivity|].
  simpl in H. apply andb_true_iff in H as [Hc H].
  destruct (ascii_lower_char c Hc) as (l & E & Et & El & _ & _ & Eh).
  change (lower (c :: w)) with (lower_char c ++ lower w).
  rewrite E. simpl. rewrite Eh, Et, El, !IH by exact H.
  destruct (c =? ch_hyphen)%N eqn:Hy.
  - apply N.eqb_eq in Hy. apply N.eqb_eq in Eh. congruence.
  - rewrite E. reflexivity.
Qed.

Lemma split_from_lower (cur : option str) (s : str) :
  forallb is_ascii s = true ->
  split_from (option_map lower cur) (lower s)
  = map lower (split_from cur s).
Proof.
  revert cur; induction s as [|c s IH]; intros cur H.
  - destruct cur; reflexivity.
  - simpl in H. apply andb_true_iff in H as [Hc H].
    destruct (ascii_lower_char c Hc) as (l & E & _ & _ & _ & Es & _).
    change (lower (c :: s)) with (lower_char c ++ lower s).
    rewrite E. simpl. rewrite Es.
    destruct (isspace_char c), cur as [w|]; simpl.
    + rewrite <- (IH None H). reflexivity.
    + apply (IH None H).
    + rewrite <- (IH (Some (w ++ [c])) H). simpl.
      rewrite lower_app. simpl. rewrite E. reflexivity.
    + rewrite <- (IH (Some [c]) H). simpl. rewrite E. reflexivity.
Qed.

Lemma normalize_name_lower (s : str) :
  forallb is_ascii s = true -> normalize_name (lower s) = normalize_name s.
Proof.
  intros H. unfold normalize_name. rewrite !split_strip. unfold split.
  pose proof (split_from_lower None s H) as E. simpl in E.
  rewrite E, map_map. clear E. f_equal.
  pose proof (split_from_ascii None s I H) as HA.
  induction (split_from None s) as [|w W IH]; [reflexivity|].
  simpl in *. apply andb_true_iff in HA as [Ha HA].
  rewrite IH by exact HA. rewrite !fix_part_eq, cap_from_lower by exact Ha.
  reflexivity.
Qed.

(** X13.  Names of ASCII characters that differ only in the case of their
    letters are normalized to the same name: [normalize_name] looks at
    the words of a name, not at their case. *)
Theorem names_ignore_case_ascii (s s' : str) :
  forallb is_ascii s = true -> forallb is_ascii s' = true ->
  lower s = lower s' -> normalize_name s = normalize_name s'.
Proof.
  intros H H' E.
  rewrite <- (normalize_name_lower s H), <- (normalize_name_lower s' H'), E.
  reflexivity.
Qed.

Lemma names_ignore_case_ascii_witness :
  normalize_name (py "ANNA-maria o'neil")
  = normalize_name (py "anna-MARIA O'Neil").
Proof.
  apply (names_ignore_case_ascii (py "ANNA-maria o'neil")
           (py "anna-MARIA O'Neil")); reflexivity.
Defined.

(** X14.  [normalize_name] does not look at the white space of a name:
    the name put together again from its words, one space between them,
    as the commands do with their tokens, is normalized as the name
    itself. *)
Theorem normalize_name_of_words (s : str) :
  normalize_name (unwords (split s)) = normalize_name s.
Proof.
  unfold normalize_name, unwords.
  rewrite !split_strip, split_join by apply split_words. reflexivity.
Qed.

Lemma split_from_Some (w s : str) : split_from (Some w) s <> [].
Proof.
  revert w; induction s as [|c s IH]; intros w; simpl; [discriminate|].
  destruct (isspace_char c); [discriminate | apply IH].
Qed.

Lemma split_nil (s : str) : split s = [] <-> forallb isspace_char s = true.
Proof.
  unfold split. split.
  - induction s as [|c s IH]; simpl; [reflexivity|].
    destruct (isspace_char c); [exact IH|].
    intros H. destruct (split_from_Some _ _ H).
  - intros H. apply (split_from_spaces None s H).
Qed.

Lemma dropwhile_forallb (f : char -> bool) (s : str) :
  forallb f (dropwhile f s) = forallb f s.
Proof.
  induction s as [|c s IH]; simpl; [reflexivity|].
  destruct (f c) eqn:E; simpl; [exact IH | rewrite E; reflexivity].
Qed.

Lemma strip_nil (s : str) : strip s = [] <-> forallb isspace_char s = true.
Proof.
  unfold strip. rewrite rstrip_nil. unfold lstrip.
  rewrite dropwhile_forallb. tauto.
Qed.

(** X15.  [parse_input] fails, with the [ValueError] of unpacking no word,
    exactly on the lines that [main] turns away before it calls it, the
    lines that are empty once stripped; on every other line it answers a
    command word. *)
Theorem parse_input_fails_on_blank_lines_only (user_input : str) :
  parse_input user_input = None <-> strip user_input = [].
Proof.
  unfold parse_input. rewrite split_strip, strip_nil, <- split_nil.
  destruct (split user_input); split; congruence.
Qed.

Lemma rstrip_spacefree (w : str) : spacefree w = true -> rstrip w = w.
Proof.
  unfold spacefree. induction w as [|c w IH]; [reflexivity|].
  simpl. intros H. apply andb_true_iff in H as [Hc H].
  apply negb_true_iff in Hc. rewrite rstrip_cons, IH, Hc by exact H.
  destruct w; reflexivity.
Qed.

Lemma strip_spacefree (w : str) : spacefree w = true -> strip w = w.
Proof.
  intros H. unfold strip, lstrip.
  assert (dropwhile isspace_char w = w) as ->.
  { unfold spacefree in H. destruct w as [|c w]; [reflexivity|].
    simpl in *. apply andb_true_iff in H as [Hc _].
    apply negb_true_iff in Hc. rewrite Hc. reflexivity. }
  apply rstrip_spacefree. exact H.
Qed.

(** X16.  A line made of a command word and arguments, none empty and
    none with white space in it, one space between them, is read by
    [parse_input] as the command word in lower case and the arguments as
    they are. *)
Theorem parse_input_reads_the_words (cmd : str) (args : list str) :
  forallb word_ok (cmd :: args) = true ->
  parse_input (unwords (cmd :: args)) = Some (lower cmd, args).
Proof.
  intros H. unfold parse_input, unwords.
  rewrite split_strip, split_join by exact H.
  simpl in H. apply andb_true_iff in H as [Hc _].
  unfold word_ok in Hc. apply andb_true_iff in Hc as [_ Hc].
  rewrite strip_spacefree by exact Hc. reflexivity.
Qed.

Lemma parse_input_reads_the_words_witness :
  parse_input (py "AddContact Ivan 0501234567")
  = Some (py "addcontact", [py "Ivan"; py "0501234567"]).
Proof.
  apply (parse_input_reads_the_words (py "AddContact")
           [py "Ivan"; py "0501234567"]).
  reflexivity.
Defined.

(** ** Notes and their tags *)

Lemma set_mem_In (x : str) (s : list str) : set_mem x s = true <-> In x s.
Proof.
  unfold set_mem. rewrite existsb_exists. split.
  - intros (y & Hy & E). apply str_eqb_eq in E. subst y. exact Hy.
  - intros H. exists x. split; [exact H | apply str_eqb_refl].
Qed.

Lemma set_mem_false (x : str) (s : list str) :
  set_mem x s = false <-> ~ In x s.
Proof.
  rewrite <- set_mem_In. destruct (set_mem x s); split; congruence.
Qed.

Lemma set_add_In (x t : str) (s : list str) :
  In t (set_add x s) <-> t = x \/ In t s.
Proof.
  unfold set_add. destruct (set_mem x s) eqn:E.
  - apply set_mem_In in E. split; [auto|]. intros [->|H]; auto.
  - rewrite in_app_iff. simpl. intuition congruence.
Qed.

Lemma set_add_NoDup (x : str) (s : list str) :
  NoDup s -> NoDup (set_add x s).
Proof.
  intros H. unfold set_add. destruct (set_mem x s) eqn:E; [exact H|].
  apply set_mem_false in E. apply NoDup_app; auto.
  - constructor; [simpl; tauto | constructor].
  - intros a Ha [<-|[]]. exact (E Ha).
Qed.

Lemma Note_add_tags_tags (self n : Note) (l : list str) :
  Note_add_tags self l = Valid n ->
  (NoDup (n_tags self) -> NoDup (n_tags n))
  /\ (forall t, In t (n_tags n)
                <-> In t (n_tags self)
                    \/ exists tag, In tag l /\ t = lower (lstrip_hash tag))
  /\ forallb valid_tag l = true.
Proof.
  revert self; induction l as [|tag l IH]; simpl; intros self.
  - intros H; injection H as <-. repeat split; auto.
    intros [H|(tag & [] & _)]. exact H.
  - unfold Note_add_tag. fold (valid_tag tag).
    destruct (valid_tag tag); [|discriminate].
    intros H. apply IH in H as (H1 & H2 & H3). simpl in *.
    repeat split.
    + intros ND. apply H1, set_add_NoDup, ND.
    + intros Ht. apply H2 in Ht as [Ht|(tg & Hin & ->)].
      * apply set_add_In in Ht as [->|Ht]; eauto.
      * eauto.
    + intros [Ht|(tg & [<-|Hin] & ->)]; apply H2.
      * left. apply set_add_In. auto.
      * left. apply set_add_In. auto.
      * eauto.
    + exact H3.
Qed.

(** X17.  A note that [Note] builds has the stripped text, and its tags
    are the tags given, each without its leading [#] signs and in lower
    case, once each; every one of them matches [TAG_PATTERN], as every
    tag given does once cleaned. *)
Theorem Note_keeps_the_cleaned_tags (text : str) (tags : list str)
  (n : Note) :
  Note_init text tags = Valid n ->
  n_text n = strip text
  /\ NoDup (n_tags n)
  /\ (forall t, In t (n_tags n)
                <-> exists tag, In tag tags /\ t = lower (lstrip_hash tag))
  /\ (forall t, In t (n_tags n) -> TAG_PATTERN_fullmatch t = true).
Proof.
  unfold Note_init. intros H.
  pose proof (Note_add_tags_text _ _ _ H) as Ht.
  apply Note_add_tags_tags in H as (H1 & H2 & H3). simpl in *.
  assert (forall t, In t (n_tags n)
                    <-> exists tag, In tag tags
                                    /\ t = lower (lstrip_hash tag)) as H2'.
  { intros t. rewrite H2. split; [intros [[]|H]; exact H | auto]. }
  repeat split; try apply H2'; auto.
  - apply H1. constructor.
  - intros t Hin. apply H2' in Hin as (tag & Hin & ->).
    rewrite forallb_forall in H3. apply (H3 tag Hin).
Qed.

Lemma Note_keeps_the_cleaned_tags_witness :
  n_text (mkNote (py "Call") [py "urgent"; py "work"]) = strip (py " Call ")
  /\ NoDup [py "urgent"; py "work"]
  /\ (forall t, In t [py "urgent"; py "work"]
                <-> exists tag, In tag [py "#Urgent"; py "work"; py "URGENT"]
                                /\ t = lower (lstrip_hash tag))
  /\ (forall t, In t [py "urgent"; py "work"] ->
                TAG_PATTERN_fullmatch t = true).
Proof.
  apply (Note_keeps_the_cleaned_tags (py " Call ")
           [py "#Urgent"; py "work"; py "URGENT"]
           (mkNote (py "Call") [py "urgent"; py "work"])).
  reflexivity.
Defined.

Lemma filter_not_In (x : str) (s : list str) :
  ~ In x (filter (fun t => negb (str_eqb t x)) s).
Proof.
  intros H. apply filter_In in H as [_ H].
  rewrite str_eqb_refl in H. discriminate.
Qed.

Lemma set_mem_filter_other (x y : str) (s : list str) :
  y <> x ->
  set_mem y (filter (fun t => negb (str_eqb t x)) s) = set_mem y s.
Proof.
  intros Hne. destruct (set_mem y s) eqn:E.
  - apply set_mem_In. apply set_mem_In in E. apply filter_In.
    split; [exact E|]. apply negb_true_iff, str_eqb_neq. exact Hne.
  - apply set_mem_false. apply set_mem_false in E. intros H.
    apply filter_In in H as [H _]. exact (E H).
Qed.

Lemma set_mem_add_other (x y : str) (s : list str) :
  y <> x -> set_mem y (set_add x s) = set_mem y s.
Proof.
  intros Hne. destruct (set_mem y s) eqn:E.
  - apply set_mem_In. apply set_mem_In in E. apply set_add_In. auto.
  - apply set_mem_false. apply set_mem_false in E. intros H.
    apply set_add_In in H as [H|H]; auto.
Qed.

(** X18.  A tag that [Note.add_tag] accepts is one that [Note.has_tag]
    finds, whatever its case and its leading [#] signs; after
    [Note.remove_tag] it is not found any more; and neither method
    touches the text or any other tag. *)
Theorem Note_tag_added_then_removed (self n : Note) (tag : str) :
  Note_add_tag self tag = Valid n ->
  Note_has_tag n tag = true
  /\ Note_has_tag (Note_remove_tag n tag) tag = false
  /\ n_text n = n_text self
  /\ n_text (Note_remove_tag n tag) = n_text self
  /\ forall other,
       lower (lstrip_hash other) <> lower (lstrip_hash tag) ->
       Note_has_tag n other = Note_has_tag self other
       /\ Note_has_tag (Note_remove_tag n tag) other
          = Note_has_tag self other.
Proof.
  unfold Note_add_tag, Note_has_tag, Note_remove_tag.
  destruct (TAG_PATTERN_fullmatch _); [|discriminate].
  intros H; injection H as <-. simpl. repeat split.
  - apply set_mem_In, set_add_In. auto.
  - apply set_mem_false, filter_not_In.
  - apply set_mem_add_other. exact H.
  - rewrite set_mem_filter_other by exact H.
    apply set_mem_add_other. exact H.
Qed.

Lemma Note_tag_added_then_removed_witness :
  Note_has_tag (mkNote (py "Call") [py "work"; py "urgent"]) (py "#Urgent")
  = true
  /\ Note_has_tag
       (Note_remove_tag (mkNote (py "Call") [py "work"; py "urgent"])
          (py "#Urgent")) (py "#Urgent") = false.
Proof.
  destruct (Note_tag_added_then_removed (mkNote (py "Call") [py "work"])
              (mkNote (py "Call") [py "work"; py "urgent"]) (py "#Urgent")
              eq_refl) as (H1 & H2 & _).
  split; [exact H1 | exact H2].
Defined.

(** *** The text without its tags *)

Lemma isword_hash : isword_char ch_hash = false.
Proof. reflexivity. Qed.

Lemma re_sub_tags_from_clean (skipping : bool) (s : str) :
  has_tag_start (re_sub_tags_from skipping s) = false
  /\ (skipping = true \/ next_isword s = false ->
      next_isword (re_sub_tags_from skipping s) = false).
Proof.
  revert skipping; induction s as [|c r IH]; intros skipping.
  - simpl. auto.
  - simpl. destruct (skipping && isword_char c) eqn:E1; [|
      destruct ((c =? ch_hash)%N && next_isword r) eqn:E2].
    + destruct (IH true) as [I1 I2]. auto.
    + destruct (IH true) as [I1 I2]. auto.
    + destruct (IH false) as [I1 I2]. simpl. rewrite I1. split.
      * rewrite orb_false_r. apply andb_false_iff.
        apply andb_false_iff in E2 as [E2|E2]; auto.
      * intros [->|H]; [|exact H]. exact E1.
Qed.

Lemma re_findall_tags_none (s : str) :
  has_tag_start s = false -> re_findall_tags_from None s = [].
Proof.
  induction s as [|c r IH]; simpl; [reflexivity|].
  intros H. apply orb_false_iff in H as [-> H]. apply IH, H.
Qed.

Lemma re_sub_tags_none (s : str) :
  has_tag_start s = false -> re_sub_tags_from false s = s.
Proof.
  induction s as [|c r IH]; simpl; [reflexivity|].
  intros H. apply orb_false_iff in H as [-> H]. rewrite IH by exact H.
  reflexivity.
Qed.

Lemma has_tag_start_dropwhile (f : char -> bool) (s : str) :
  has_tag_start s = false -> has_tag_start (dropwhile f s) = false.
Proof.
  induction s as [|c r IH]; simpl; [reflexivity|].
  intros H. destruct (f c); [|exact H].
  apply orb_false_iff in H as [_ H]. auto.
Qed.

Lemma rstrip_head (s : str) (d : char) (r : str) :
  rstrip s = d :: r -> exists r', s = d :: r'.
Proof.
  destruct s as [|c s]; [discriminate|]. rewrite rstrip_cons.
  destruct (rstrip s).
  - destruct (isspace_char c); [discriminate|].
    intros H; injection H as <- _. eauto.
  - intros H; injection H as <- _. eauto.
Qed.

Lemma has_tag_start_rstrip (s : str) :
  has_tag_start s = false -> has_tag_start (rstrip s) = false.
Proof.
  induction s as [|c s IH]; [reflexivity|].
  intros H. simpl in H. apply orb_false_iff in H as [H1 H2].
  rewrite rstrip_cons. specialize (IH H2).
  case_eq (rstrip s); [intros E | intros d r E].
  - destruct (isspace_char c); [reflexivity|]. simpl.
    rewrite andb_false_r. reflexivity.
  - rewrite <- E. simpl. rewrite IH, orb_false_r.
    destruct (rstrip_head _ _ _ E) as [r' ->]. rewrite E. exact H1.
Qed.

Lemma has_tag_start_strip (s : str) :
  has_tag_start s = false -> has_tag_start (strip s) = false.
Proof.
  intros H. apply has_tag_start_rstrip, has_tag_start_dropwhile, H.
Qed.

(** X19.  The text that the note commands keep, the tokens with every
    [#tag] taken out by [re.sub] and then stripped, has no tag left:
    [extract_tags_from_text] and [re.search] find nothing in it, and
    taking the tags out again, as [Record.remove_note] and
    [Record.edit_note] do, changes nothing. *)
Theorem cleaned_text_has_no_tag (s : str) :
  let clean_text := strip (re_sub_tags s) in
  extract_tags_from_text clean_text = []
  /\ re_search_tag clean_text = None
  /\ re_sub_tags clean_text = clean_text.
Proof.
  intros clean_text.
  assert (has_tag_start clean_text = false) as H.
  { apply has_tag_start_strip.
    apply (proj1 (re_sub_tags_from_clean false s)). }
  unfold extract_tags_from_text, re_search_tag, re_findall_tags,
    re_sub_tags.
  rewrite (re_findall_tags_none _ H), (re_sub_tags_none _ H). auto.
Qed.

(** *** Adding a note and removing it again *)

Lemma existsb_false_forallb {A} (f : A -> bool) (l : list A) :
  existsb f l = false -> forallb (fun y => negb (f y)) l = true.
Proof.
  induction l as [|y l IH]; simpl; [reflexivity|].
  intros H. apply orb_false_iff in H as [-> H]. simpl. auto.
Qed.

(** X20.  A note that [Record.add_note] has added is the one that
    [Record.remove_note] takes out again, when asked for a text that is,
    with its tags taken out, the text of the note up to case and
    surrounding white space: the record is as it was before the two. *)
Theorem Record_add_then_remove_note (self self' : ContactRecord)
  (text : str) (tags : list str) (n : Note) (asked : str) :
  Record_add_note self text tags = Valid (Some n, self') ->
  lower (strip (re_sub_tags asked)) = lower (strip text) ->
  Record_remove_note self' asked = (NoteRemoved, self).
Proof.
  unfold Record_add_note. intros H Ha.
  destruct (Note_init text tags) as [m|] eqn:En; [|discriminate].
  destruct (existsb _ (r_notes self)) eqn:Ex; [discriminate|].
  injection H as <- <-.
  assert (note_key m = lower (strip text)) as Hk.
  { unfold Note_init in En. apply Note_add_tags_text in En. simpl in En.
    unfold note_key. rewrite En, strip_idem. reflexivity. }
  apply existsb_false_forallb in Ex. rewrite Hk in Ex.
  unfold Record_remove_note. rewrite Ha. cbn [r_notes set_notes].
  assert (List.find (fun note => str_eqb (note_key note) (lower (strip text)))
            (r_notes self ++ [m]) = Some m) as ->.
  { clear - Ex Hk. induction (r_notes self) as [|y l IH]; simpl in *.
    - rewrite Hk, str_eqb_refl. reflexivity.
    - apply andb_true_iff in Ex as [Hy Ex]. apply negb_true_iff in Hy.
      rewrite Hy. auto. }
  rewrite (list_remove_first_match (lower (strip text)) (r_notes self) [] m Ex)
    by (rewrite Hk; apply str_eqb_refl).
  rewrite app_nil_r. destruct self; reflexivity.
Qed.

Lemma Record_add_then_remove_note_witness :
  Record_remove_note
    (set_notes record_call_meeting
       (r_notes record_call_meeting ++ [mkNote (py "Lunch") [py "food"]]))
    (py " LUNCH #food")
  = (NoteRemoved, record_call_meeting).
Proof.
  apply (Record_add_then_remove_note record_call_meeting _ (py "Lunch ")
           [py "food"] (mkNote (py "Lunch") [py "food"]) (py " LUNCH #food"));
    reflexivity.
Defined.

(** ** Emails and birthdays that are stored *)

Lemma dict_set_In_weak (key : str) (r : ContactRecord) (book : AddressBook)
  (k : str) (x : ContactRecord) :
  In (k, x) (dict_set key r book) -> x = r \/ In (k, x) book.
Proof.
  induction book as [|[k1 r1] b IH]; simpl.
  - intros [H|[]]; injection H as <- <-; auto.
  - destruct (str_eqb k1 key); simpl.
    + intros [H|H]; [injection H as <- <-; auto | auto].
    + intros [H|H]; [auto|]. destruct (IH H); auto.
Qed.

Lemma fields_ok_put (book : AddressBook) (key : str) (r : ContactRecord) :
  fields_ok book -> email_ok r -> birthday_ok r ->
  fields_ok (dict_set key r book).
Proof.
  intros Hb He Hd k x Hin.
  apply dict_set_In_weak in Hin as [->|Hin]; [auto | apply (Hb k x Hin)].
Qed.

Lemma fields_ok_same_but_one (book book' : AddressBook) :
  fields_ok book -> same_but_one book book' -> fields_ok book'.
Proof.
  intros Hb [->|(key & record & r' & Hin & _ & _ & He & Hd & ->)];
    [exact Hb|].
  destruct (Hb key record Hin) as [H1 H2].
  apply fields_ok_put; auto.
Qed.

Lemma fields_ok_remove (l1 l2 : AddressBook) (e : str * ContactRecord) :
  fields_ok (l1 ++ e :: l2) -> fields_ok (l1 ++ l2).
Proof.
  intros H k x Hin. apply (H k x).
  apply in_app_iff in Hin as [?|?]; apply in_app_iff; simpl; auto.
Qed.

(** The record that [add_contact] stores has no birthday, and an email
    only when [Email] has accepted it. *)
Lemma add_contact_fields (args : list str) (book : AddressBook) :
  snd (add_contact args book) = book
  \/ exists record,
       snd (add_contact args book) = add_record book record
       /\ email_ok record /\ birthday_ok record.
Proof.
  unfold add_contact, add_contact_body.
  destruct (length args <? 2)%nat; [auto|].
  destruct (drop_while _ args) as [|a0 from0]; [auto|].
  destruct (take_while _ args) as [|n0 parts0]; [auto|].
  set (name := normalize_name _).
  destruct (name_exists book name); [auto|].
  set (phs := take_while is_phone_token _).
  destruct (add_phones (Record_init name) phs book) as [[msg|] record] eqn:EA;
    [auto|].
  apply add_phones_None in EA as [-> _].
  destruct (email_and_address _ None []) as [em parts].
  set (r0 := set_phones (Record_init name) _).
  assert (email_ok r0 /\ birthday_ok r0) as [He0 Hb0]
    by (split; intros v Hv; discriminate).
  set (w := match em with Some e => _ | None => _ end).
  assert (match w with
          | Valid r1 => email_ok r1 /\ birthday_ok r1
          | Invalid _ => True
          end) as Hw.
  { subst w. destruct em as [e|]; [|auto].
    unfold Record_add_email. destruct (Email (strip e)) as [v|] eqn:EE;
      [|exact I].
    split; [|exact Hb0].
    intros v0 H0. injection H0 as <-. apply (Email_Valid _ _ EE). }
  destruct w as [record1|msg]; [|auto].
  destruct Hw as [He1 Hb1].
  right.
  match goal with |- context [add_record book ?r] => exists r end.
  simpl. split; [reflexivity|]. destruct parts; auto.
Qed.

Lemma session_fields_ok (book : AddressBook) :
  session book -> fields_ok book.
Proof.
  intros H.
  induction H as [|args book _ IH|args book _ IH|args book _ IH
                  |args book _ IH|args book _ IH|args book _ IH
                  |today args book _ IH|today args book _ IH|args book _ IH
                  |args book _ IH|args book _ IH|args book _ IH
                  |args book _ IH|args book _ IH|args book _ IH
                  |args book _ IH|args book _ IH|args book _ IH
                  |args book _ IH|args book _ IH];
    try (apply (fields_ok_same_but_one book); [exact IH|];
         first [ apply (commands_same_but_one today args book)
               | apply (commands_same_but_one (mkdate 1 1 1) args book) ]).
  - intros key record [].
  - destruct (add_contact_fields args book)
      as [->|(record & -> & He & Hb)]; [exact IH|].
    apply fields_ok_put; auto.
  - destruct (Nat.ltb_spec (length args) 2) as [Hl|Hl].
    { unfold edit_contact_name, edit_contact_name_body.
      apply Nat.ltb_lt in Hl. rewrite Hl. exact IH. }
    destruct (resolve editname book args) as [[i old_name]|] eqn:Hr.
    2:{ unfold edit_contact_name, edit_contact_name_body.
        apply Nat.ltb_ge in Hl. rewrite Hl, Hr. exact IH. }
    destruct (edit_contact_name_resolved args book i old_name Hl Hr)
      as (key & record & l1 & l2 & Hf & Hb & Hn & ->). simpl.
    destruct (IH key record (find_In _ _ _ _ Hf)) as [He Hd].
    rewrite Hb in IH. apply fields_ok_remove in IH.
    apply fields_ok_put; auto.
  - unfold remove_contact, remove_contact_body.
    destruct args as [|a args']; [exact IH|].
    pose proof (delete_find_split book
                  (normalize_name (unwords (a :: args')))) as D.
    destruct (find book _) as [[key record]|].
    + destruct D as (l1 & l2 & Hb & _ & ->). simpl.
      rewrite Hb in IH. apply (fields_ok_remove _ _ _ IH).
    + rewrite D. exact IH.
  - unfold add_phone_to_contact, add_phone_to_contact_body.
    destruct (length args <? 2)%nat; [exact IH|].
    destruct (find book _) as [[key record]|] eqn:EF; [|exact IH].
    destruct (IH key record (find_In _ _ _ _ EF)) as [He Hd].
    destruct (Record_add_phone_cases record (Some key) (last_arg args) book)
      as [[msg ->]|(-> & _)]; simpl; [exact IH|].
    apply fields_ok_put; auto.
  - unfold change_contact, change_contact_body.
    destruct (length args <? 3)%nat; [exact IH|].
    destruct (find book _) as [[key record]|] eqn:EF; [|exact IH].
    destruct (IH key record (find_In _ _ _ _ EF)) as [He Hd].
    destruct (Record_edit_phone_cases record (Some key)
                (last_arg (but_last args)) (last_arg args) book)
      as [[msg ->]|(l & -> & _)]; simpl; [exact IH|].
    apply fields_ok_put; auto.
Qed.

(** X21.  Whatever commands are run, from the empty book on, an email in
    the book matches the pattern of [Email.validate_email] and a birthday
    in the book is a date in the format [DD.MM.YYYY] of 1930 or later: no
    command stores one that [Email] or [Birthday] has not accepted. *)
Theorem session_stores_validated_fields (book : AddressBook) (key : str)
  (record : ContactRecord) :
  session book ->
  In (key, record) book ->
  match r_email record with
  | Some e => validate_email e = true
  | None => True
  end
  /\ match r_birthday record with
     | Some v => exists d, strptime_dmY v = Some d /\ (1930 <= year_of d)%Z
     | None => True
     end.
Proof.
  intros H Hin. destruct (session_fields_ok book H key record Hin) as [He Hb].
  split.
  - destruct (r_email record) as [e|] eqn:E; [apply He, E | exact I].
  - destruct (r_birthday record) as [v|] eqn:E; [apply Hb, E | exact I].
Qed.

Lemma session_stores_validated_fields_witness :
  validate_email (py "ivan@mail.com") = true
  /\ exists d, strptime_dmY (py "15.05.1990") = Some d
               /\ (1930 <= year_of d)%Z.
Proof.
  apply (session_stores_validated_fields book_ivan_fields (py "Ivan Petrov")
           {| r_name := py "Ivan Petrov"; r_phones := [py "0987654321"];
              r_birthday := Some (py "15.05.1990"); r_address := None;
              r_email := Some (py "ivan@mail.com"); r_notes := [] |}).
  - apply session_add_birthday, session_add_email, session_add_contact,
      session_empty.
  - left. reflexivity.
Defined.

(** ** Commands that fail leave the book alone *)

(** X22.  The commands on contacts, birthdays, emails and addresses
    change the book only when they answer their success message: each of
    them either says that the contact, the birthday, the email or the
    address was added, changed or removed, or leaves the book as it
    was. *)
Theorem field_commands_all_or_nothing (today : date) (args : list str)
  (book : AddressBook) :
  (fst (add_contact args book) = ContactAdded
   \/ snd (add_contact args book) = book)
  /\ ((exists name, fst (edit_contact_name args book) = NameChanged name)
      \/ snd (edit_contact_name args book) = book)
  /\ ((exists name, fst (remove_contact args book) = ContactRemoved name)
      \/ snd (remove_contact args book) = book)
  /\ (fst (add_birthday today args book) = BirthdayAdded
      \/ snd (add_birthday today args book) = book)
  /\ (fst (edit_birthday today args book) = BirthdayUpdated
      \/ snd (edit_birthday today args book) = book)
  /\ (fst (remove_birthday args book) = BirthdayRemoved
      \/ snd (remove_birthday args book) = book)
  /\ (fst (add_email args book) = EmailAdded
      \/ snd (add_email args book) = book)
  /\ (fst (edit_email args book) = EmailUpdated
      \/ snd (edit_email args book) = book)
  /\ (fst (remove_email args book) = EmailRemoved
      \/ snd (remove_email args book) = book)
  /\ (fst (add_address args book) = AddressAdded
      \/ snd (add_address args book) = book)
  /\ (fst (edit_address args book) = AddressUpdated
      \/ snd (edit_address args book) = book)
  /\ (fst (remove_address args book) = AddressRemoved
      \/ snd (remove_address args book) = book).
Proof.
  repeat split.
  - destruct (add_contact_cases args book) as [H|(record & H & _)]; auto.
  - unfold edit_contact_name, edit_contact_name_body.
    destruct (length args <? 2)%nat; [auto|].
    destruct (resolve editname book args) as [[i name]|]; [|auto].
    destruct (find book _) as [[key record]|]; [|auto].
    destruct (delete book name) as [found book']. simpl. eauto.
  - unfold remove_contact, remove_contact_body.
    destruct args; [auto|].
    destruct (delete book _) as [[|] book']; simpl; eauto.
  - unfold add_birthday, add_birthday_body.
    destruct (length args <? 2)%nat; [auto|].
    destruct (strptime_dmY _); [|auto].
    destruct (find book _) as [[key record]|]; [|auto].
    destruct (r_birthday record); [auto|].
    destruct (Record_add_birthday today record _); simpl; auto.
  - unfold edit_birthday, edit_birthday_body.
    destruct (length args <? 2)%nat; [auto|].
    destruct (find book _) as [[key record]|]; [|auto].
    destruct (Record_edit_birthday today record _); simpl; auto.
  - unfold remove_birthday, remove_birthday_body.
    destruct args; [auto|].
    destruct (find book _) as [[key record]|]; simpl; auto.
  - unfold add_email, add_email_body.
    destruct (length args <? 2)%nat; [auto|].
    destruct (resolve addemail book args) as [[i name]|]; [|auto].
    destruct (find book _) as [[key record]|]; [|auto].
    destruct (r_email record); [auto|].
    destruct (Record_add_email record _); simpl; auto.
  - unfold edit_email, edit_email_body.
    destruct (length args <? 2)%nat; [auto|].
    destruct (resolve editemail book args) as [[i name]|]; [|auto].
    destruct (find book _) as [[key record]|]; [|auto].
    destruct (Record_edit_email record _) as [[msg|] r']; simpl; auto.
  - unfold remove_email, remove_email_body.
    destruct args; [auto|].
    destruct (resolve removeemail book _) as [[i name]|]; [|auto].
    destruct (find book _) as [[key record]|]; [|auto].
    destruct (r_email record); simpl; auto.
  - unfold add_address, add_address_body.
    destruct (length args <? 2)%nat; [auto|].
    destruct (resolve addaddress book args) as [[i name]|]; [|auto].
    destruct (find book _) as [[key record]|]; [|auto].
    destruct (r_address record); simpl; auto.
  - unfold edit_address, edit_address_body.
    destruct (length args <? 2)%nat; [auto|].
    destruct (resolve editaddress book args) as [[i name]|]; [|auto].
    destruct (find book _) as [[key record]|]; simpl; auto.
  - unfold remove_address, remove_address_body.
    destruct args; [auto|].
    destruct (find book _) as [[key record]|]; [|auto].
    destruct (r_address record); simpl; auto.
Qed.
